(** * rbf.linalg: dense/sparse linear solvers

    A shallow embedding of [rbf/linalg.py].  Arrays are MathComp matrices
    over a real field [R] standing for exact arithmetic.  The matrices the
    constructors take have two dimensions, and their shape is the pair of
    indices of their type.  The right-hand side of a [solve] method is an
    array of shape [(n, ...)] with any number of dimensions, an [narray]:
    the length [n] of its first axis is in its type, the other axes are
    data, and [ndarray.dot], the LAPACK wrappers, the sparse libraries and
    the arithmetic of numpy treat them as they do in the source.  The
    argument of [solve_L] is an [ndarray], which may also have no dimension
    at all.  A first axis of another length than [n] is ruled out by the
    types.

    The numerical libraries the module calls (LAPACK through
    [scipy.linalg.lapack], SuperLU through [scipy.sparse.linalg], CHOLMOD
    through [sksparse], GMRES) are not part of the repository: they are the
    fields of a [backend] record, and every call to one of them is recorded
    in the trace of the computation. *)

From HB Require Import structures.
From mathcomp Require Import boot order algebra perm.
From Stdlib Require Import String.

Set Implicit Arguments.
Unset Strict Implicit.
Unset Printing Implicit Defensive.

Import GRing.Theory Num.Theory Order.POrderTheory Order.TotalTheory.
Local Open Scope ring_scope.

(** ** Exceptions *)

(** Exceptions that escape from a library call. *)
Inductive lib_exn : Type :=
| RuntimeError of string
| LibValueError of string
| CholmodNotPositiveDefiniteError
| CholmodError of string.

(** Exceptions of the module itself: its [raise] statements, and the
    failures of the Python expressions it evaluates. *)
Inductive exn : Type :=
| ValueError of string & seq int
| LinAlgError of string
| NameError of string
| ZeroDivisionError
| LibError of lib_exn.

Definition CHOLMOD_MSG : string :=
  "Could not import CHOLMOD. Sparse matrices will be converted to dense for all Cholesky decompositions".

Definition BLOCK_MSG : string :=
  "There are fewer rows than columns in `B`. This makes the block matrix singular, and its inverse cannot be computed.".

Definition NDIM_MSG : string := "`b` must be a 1 or 2 dimensional array".

(** The message of the LAPACK wrappers for an array they cannot take, as
    the format they fill with the lengths. *)
Definition DIMENSION_MSG : string :=
  "0-th dimension must be fixed to %d but got %d (real index=%d)".

(** ** Traces *)

Inductive lib_call : Type :=
| Dgetrf | Dgetrs | Dpotrf | Dpotrs | Dtrtrs
| Splu | SuperLU_solve
| Cholmod_cholesky | Cholmod_solve_A | Cholmod_solve_L | Cholmod_L
| Spilu | Gmres.

Inductive result (T : Type) : Type :=
| Ok of T
| Err of exn.

Arguments Err {T} _.

Section Events.

Variable R : Type.

Inductive log_arg : Type :=
| LInt of int
| LNat of nat
| LNum of R.

Inductive event : Type :=
| Call of lib_call
| Warn of string
| Debug of string & seq log_arg.

Definition is_call (e : event) : bool :=
  if e is Call _ then true else false.

(** ** The monad of the module: a trace and a value or an exception *)

Definition M (T : Type) : Type := (seq event * result T)%type.

Definition ret {T} (x : T) : M T := ([::], Ok x).

Definition raise {T} (e : exn) : M T := ([::], Err e).

Definition bind {T U} (m : M T) (f : T -> M U) : M U :=
  match m with
  | (t, Ok x) => let: (t', r) := f x in (t ++ t', r)
  | (t, Err e) => (t, Err e)
  end.

Definition emit (e : event) : M unit := ([:: e], Ok tt).

Definition trace {T} (m : M T) : seq event := m.1.

Definition outcome {T} (m : M T) : result T := m.2.

(** The backend calls a computation made. *)
Definition calls {T} (m : M T) : seq event := filter is_call (trace m).

(** [LOGGER.debug] and [warnings.warn]. *)
Definition debug (msg : string) (args : seq log_arg) : M unit :=
  emit (Debug msg args).

Definition warn (msg : string) : M unit := emit (Warn msg).

(** A library call: recorded, and its exception, if any, propagated. *)
Definition call {T} (c : lib_call) (r : lib_exn + T) : M T :=
  match r with
  | inr x => ([:: Call c], Ok x)
  | inl e => ([:: Call c], Err (LibError e))
  end.

(** A LAPACK wrapper never raises by itself: it returns [info]. *)
Definition lapack {T} (c : lib_call) (r : T) : M T := ([:: Call c], Ok r).

End Events.

Arguments ret {R T} _.
Arguments raise {R T} _.
Arguments bind {R T U} _ _.
Arguments emit {R} _.
Arguments debug {R} _ _.
Arguments warn {R} _.
Arguments call {R T} _ _.
Arguments lapack {R T} _ _.
Arguments trace {R T} _.
Arguments outcome {R T} _.
Arguments calls {R T} _.
Arguments Call {R} _.
Arguments Warn {R} _.
Arguments Debug {R} _ _.
Arguments LInt {R} _.
Arguments LNat {R} _.
Arguments LNum {R} _.

Notation "x <- m ;; k" := (bind m (fun x => k))
  (at level 100, m at next level, right associativity,
   format "'[v' x  <-  m  ;;  '/' k ']'").
Notation "m ;;; k" := (bind m (fun _ => k))
  (at level 100, right associativity).

(** ** Arrays and sparse matrices *)

Section Data.

Variable R : realFieldType.

(** A scipy sparse matrix: its entries and the number of stored values. *)
Record spmatrix (m n : nat) : Type :=
  SpMatrix { toarray : 'M[R]_(m, n); nnz : nat }.

(** What the constructors and [solve] accept: "array or sparse matrix". *)
Inductive matrix_like (m n : nat) : Type :=
| Array of 'M[R]_(m, n)
| Sparse of spmatrix m n.

Definition issparse m n (A : matrix_like m n) : bool :=
  if A is Sparse _ then true else false.

(** [as_sparse_or_array(A, dtype=float)]: a sparse matrix is returned as a
    csc matrix, anything else as an array; the entries are unchanged. *)
Definition as_sparse_or_array m n (A : matrix_like m n) : matrix_like m n :=
  match A with
  | Sparse s => Sparse s
  | Array a => Array a
  end.

(** [as_array(A, dtype=float)] *)
Definition as_array m n (A : matrix_like m n) : 'M[R]_(m, n) :=
  match A with
  | Sparse s => toarray s
  | Array a => a
  end.

(** [sp.csc_matrix(A)] *)
Definition csc_matrix m n (A : matrix_like m n) : spmatrix m n :=
  match A with
  | Sparse s => s
  | Array a => SpMatrix a #|[set ij : 'I_m * 'I_n | a ij.1 ij.2 != 0]|
  end.

(** The argument of [solve_L] and of [dtrtrs], by its number of
    dimensions: a scalar [()], [(n,)], [(n, k)], or [(n, k1, k2, ...)],
    the trailing axes of the last one flattened. *)
Inductive ndarray (n : nat) : Type :=
| Arr0 of R
| Arr1 of 'cV[R]_n
| Arr2 k of 'M[R]_(n, k)
| ArrN k1 k2 (rest : seq nat) of 'M[R]_(n, k1 * k2 * \prod_(d <- rest) d).

Definition shape n (b : ndarray n) : seq nat :=
  match b with
  | Arr0 _ => [::]
  | Arr1 _ => [:: n]
  | Arr2 k _ => [:: n; k]
  | ArrN k1 k2 rest _ => [:: n, k1, k2 & rest]
  end.

Definition ndim n (b : ndarray n) : nat := size (shape b).

(** [np.zeros(b.shape, dtype=float)] *)
Definition zeros_like n (b : ndarray n) : ndarray n :=
  match b with
  | Arr0 _ => Arr0 n 0
  | Arr1 _ => Arr1 0
  | Arr2 k _ => Arr2 (0 : 'M_(n, k))
  | ArrN k1 k2 rest _ => @ArrN n k1 k2 rest 0
  end.

(** The number of entries along the axes [tr] of an array: their product,
    which is [1] when there is no axis. *)
Fixpoint size_of (tr : seq nat) : nat :=
  match tr with
  | [::] => 1
  | k :: tr' => if tr' is [::] then k else k * size_of tr'
  end.

(** An array of shape [(n, ...)], what [solve] documents as its right-hand
    side: the lengths of the axes after the first one, and the entries with
    these axes flattened in C order, so that row [i] holds [b[i, ...]].
    An [(n,)] array has no trailing axis, an [(n, k)] array has the one
    [k]. *)
Record narray (n : nat) : Type :=
  NArray { trailing : seq nat; entries : 'M[R]_(n, size_of trailing) }.

Definition narray_shape n (b : narray n) : seq nat := n :: trailing b.

(** What [solve] accepts as a right-hand side: "(n, ...) array or sparse
    matrix". *)
Inductive array_like (n : nat) : Type :=
| NdArray of narray n
| SparseMatrix k of spmatrix n k.

(** [as_array(b, dtype=float)] on a right-hand side: a sparse matrix
    becomes the two-dimensional array of its entries, an array is kept. *)
Definition as_narray n (b : array_like n) : narray n :=
  match b with
  | SparseMatrix k s => @NArray n [:: k] (toarray s)
  | NdArray a => a
  end.

(** ** The libraries *)

Record backend : Type := Backend {
  np_sqrt : R -> R;
  np_log : R -> R;
  (* scipy.linalg.lapack *)
  dgetrf : forall n, 'M[R]_n -> 'M[R]_n * seq nat * int;
  dgetrs : forall n k, 'M[R]_n -> seq nat -> 'M[R]_(n, k) -> 'M[R]_(n, k) * int;
  dpotrf : forall n, 'M[R]_n -> bool -> 'M[R]_n * int;
  dpotrs : forall n k, 'M[R]_n -> 'M[R]_(n, k) -> bool -> 'M[R]_(n, k) * int;
  (* dtrtrs is handed arrays of any number of dimensions, and its wrapper may
     refuse one *)
  dtrtrs : forall n, 'M[R]_n -> ndarray n -> bool -> lib_exn + ndarray n * int;
  (* scipy.sparse.linalg.splu and the object it returns *)
  SuperLU : nat -> Type;
  splu : forall n, spmatrix n n -> lib_exn + SuperLU n;
  superlu_solve : forall n k, SuperLU n -> 'M[R]_(n, k) -> lib_exn + 'M[R]_(n, k);
  (* the same method on an array of three dimensions or more *)
  superlu_solve_nd : forall n, SuperLU n -> narray n -> lib_exn + narray n;
  (* sksparse.cholmod.cholesky and the Factor it returns *)
  Factor : nat -> Type;
  cholmod_cholesky : forall n, spmatrix n n -> lib_exn + Factor n;
  factor_D : forall n, Factor n -> 'cV[R]_n;
  factor_P : forall n, Factor n -> 'S_n;
  factor_solve_A : forall n k, Factor n -> 'M[R]_(n, k) -> lib_exn + 'M[R]_(n, k);
  (* the same method on an array of three dimensions or more *)
  factor_solve_A_nd : forall n, Factor n -> narray n -> lib_exn + narray n;
  factor_solve_L : forall n k, Factor n -> 'M[R]_(n, k) -> lib_exn + 'M[R]_(n, k);
  factor_L : forall n, Factor n -> lib_exn + spmatrix n n;
  (* scipy.sparse.linalg.spilu and gmres; gmres also yields the norms its
     callback computes, one for each iteration *)
  ILU : nat -> Type;
  spilu : forall n, spmatrix n n -> R -> R -> lib_exn + ILU n;
  gmres : forall n, spmatrix n n -> 'cV[R]_n -> R -> ILU n ->
          lib_exn + seq R * 'cV[R]_n * int
}.

End Data.

Arguments Arr0 {R n} _.
Arguments Arr1 {R n} _.
Arguments Arr2 {R n k} _.
Arguments ArrN {R n k1 k2 rest} _.
Arguments NArray {R n} trailing entries.
Arguments NdArray {R n} _.
Arguments SparseMatrix {R n k} _.

(** ** numpy on arrays of any number of dimensions

    The array operations that [solve] applies to its right-hand sides:
    [ndarray.dot], the arithmetic with broadcasting, [np.concatenate],
    [np.zeros] and slices of the first axis. *)

(** The messages of numpy's [ValueError]s, as the formats that numpy fills
    with the shapes and lengths at hand. *)
Definition SHAPES_MSG : string :=
  "shapes %s and %s not aligned: %d (dim %d) != %d (dim %d)".

Definition BROADCAST_MSG : string :=
  "operands could not be broadcast together with shapes %s".

Definition OUTPUT_MSG : string :=
  "non-broadcastable output operand with shape %s doesn't match the broadcast shape %s".

Definition NDIMS_MSG : string :=
  "all the input arrays must have same number of dimensions, but the array at index %d has %d dimension(s) and the array at index %d has %d dimension(s)".

Definition CONCATENATE_MSG : string :=
  "all the input array dimensions except for the concatenation axis must match exactly, but along dimension %d, the array at index %d has size %d and the array at index %d has size %d".

Section Numpy.

Variable R : realFieldType.

Local Notation M := (M R).

Definition prodn (dims : seq nat) : nat := foldr muln 1%N dims.

(** The entry of a matrix at two natural numbers. *)
Definition mx_nth m n (A : 'M[R]_(m, n)) (i j : nat) : R :=
  if (insub i : option 'I_m) is Some i' then
    if (insub j : option 'I_n) is Some j' then A i' j' else 0
  else 0.

(** The same entries under another type of matrices. *)
Definition recast m' n' m n (A : 'M[R]_(m, n)) : 'M[R]_(m', n') :=
  \matrix_(i, j) mx_nth A i j.

(** C order: the position of the index [idx] among the entries of an array
    with the axes [dims], and the index at a position. *)
Definition ravel (dims idx : seq nat) : nat :=
  foldl (fun acc (di : nat * nat) => acc * di.1 + di.2)%N 0%N (zip dims idx).

Fixpoint unravel (dims : seq nat) (c : nat) : seq nat :=
  if dims is d :: dims' then
    (c %/ prodn dims')%N :: unravel dims' (c %% prodn dims')%N
  else [::].

(** [b[idx]] for an index of all the axes of [b], the first included. *)
Definition item n (b : narray R n) (idx : seq nat) : R :=
  mx_nth (entries b) (head 0%N idx) (ravel (trailing b) (behead idx)).

(** [A.dot(b)] for a two-dimensional [A] of shape [(m, c)] and an array [b]
    whose first axis has length [c].  For [b] of one or two dimensions it
    is the matrix product.  For more dimensions numpy sums over the last
    axis of [A] and the second-to-last axis of [b], which must have the
    length [c]: [dot(A, b)[i, i0, ..., l] = sum(A[i, :] * b[i0, ..., :, l])],
    of shape [(m,) + b.shape[:-2] + b.shape[-1:]]. *)
Definition dot m c (A : 'M[R]_(m, c)) (b : narray R c) : M (narray R m) :=
  let tr := trailing b in
  if (size tr <= 1)%N then ret (NArray tr (A *m entries b))
  else if nth 0%N tr (size tr - 2) != c then raise (ValueError SHAPES_MSG [::])
  else
    let lead := take (size tr - 2) tr in
    let tr' := c :: rcons lead (last 0%N tr) in
    ret (NArray tr'
           (\matrix_(i, j)
              let idx := unravel tr' j in
              \sum_(t < c)
                A i t * item b (rcons (rcons (take (size lead).+1 idx) t)
                                      (last 0%N idx)))).

(** Broadcasting, on the shapes read from their last axis: two lengths go
    together when they are equal or one of them is [1]. *)
Fixpoint broadcast_rev (r1 r2 : seq nat) : option (seq nat) :=
  match r1, r2 with
  | [::], r => Some r
  | r, [::] => Some r
  | d1 :: r1', d2 :: r2' =>
      if (d1 == d2) || (d2 == 1)%N then omap (cons d1) (broadcast_rev r1' r2')
      else if (d1 == 1)%N then omap (cons d2) (broadcast_rev r1' r2')
      else None
  end.

Definition broadcast_shapes (s1 s2 : seq nat) : option (seq nat) :=
  omap rev (broadcast_rev (rev s1) (rev s2)).

(** The index of the entry of an array of shape [s] that is paired with
    the entry [idx] of the broadcast result. *)
Definition broadcast_index (s idx : seq nat) : seq nat :=
  [seq (if di.1 == 1 then 0 else di.2)%N
  | di <- zip s (drop (size idx - size s) idx)].

(** [x op y] for two arrays with first axes of one length: entry by entry
    when they have one shape, broadcast otherwise. *)
Definition elementwise (op : R -> R -> R) n (x y : narray R n) : M (narray R n) :=
  if trailing x == trailing y then
    ret (NArray (trailing x)
           (\matrix_(i, j) op (entries x i j) (mx_nth (entries y) i j)))
  else
    match broadcast_shapes (narray_shape x) (narray_shape y) with
    | Some (_ :: tr) =>
        ret (NArray tr
               (\matrix_(i, j)
                  let idx := (i : nat) :: unravel tr j in
                  op (item x (broadcast_index (narray_shape x) idx))
                     (item y (broadcast_index (narray_shape y) idx))))
    | _ => raise (ValueError BROADCAST_MSG [::])
    end.

Definition np_add n (x y : narray R n) : M (narray R n) := elementwise +%R x y.

Definition np_subtract n (x y : narray R n) : M (narray R n) :=
  elementwise (fun u v => u - v) x y.

(** [x += y]: the sum must have the shape of [x]. *)
Definition np_iadd n (x y : narray R n) : M (narray R n) :=
  r <- np_add x y ;;
  if trailing r == trailing x then ret r else raise (ValueError OUTPUT_MSG [::]).

(** [-x] *)
Definition np_negative n (x : narray R n) : narray R n :=
  NArray (trailing x) (- entries x).

(** [np.zeros((p,) + tr)] *)
Definition np_zeros p (tr : seq nat) : narray R p := NArray tr 0.

(** [np.concatenate((a, b), axis=0)]: the other axes must be the same. *)
Definition concatenate n p (a : narray R n) (b : narray R p) :
    M (narray R (n + p)) :=
  if trailing a == trailing b then
    ret (NArray (trailing a) (col_mx (entries a) (recast _ _ (entries b))))
  else if size (trailing a) != size (trailing b) then
    raise (ValueError NDIMS_MSG [::])
  else raise (ValueError CONCATENATE_MSG [::]).

(** [xy[:n]] and [xy[n:]] *)
Definition rows_to n p (xy : narray R (n + p)) : narray R n :=
  NArray (trailing xy) (usubmx (entries xy)).

Definition rows_from n p (xy : narray R (n + p)) : narray R p :=
  NArray (trailing xy) (dsubmx (entries xy)).

End Numpy.

(** ** The module *)

Section Linalg.

Variable R : realFieldType.
Variable be : backend R.

(** [HAS_CHOLMOD]: whether [from sksparse import cholmod] succeeded. *)
Variable HAS_CHOLMOD : bool.

Local Notation M := (M R).

(** *** Wrappers for the LAPACK functions *)

Definition _lu n (A : 'M[R]_n) : M ('M[R]_n * seq nat) :=
  if n == 0%N then ret (0, [::])
  else
    r <- lapack Dgetrf (dgetrf be A) ;;
    let: (fac, piv, info) := r in
    if info < 0 then
      raise (ValueError "the %s-th argument had an illegal value" [:: - info])
    else if 0 < info then raise (LinAlgError "Singular matrix")
    else ret (fac, piv).

Definition _cholesky n (A : 'M[R]_n) (lower : bool) : M 'M[R]_n :=
  if n == 0%N then ret 0
  else
    r <- lapack Dpotrf (dpotrf be A lower) ;;
    let: (L, info) := r in
    if info < 0 then
      raise (ValueError "The %s-th argument has an illegal value." [:: - info])
    else if 0 < info then raise (LinAlgError "Matrix not positive definite")
    else ret L.

Definition _solve_lu n k (fac : 'M[R]_n) (piv : seq nat) (b : 'M[R]_(n, k)) :
    M 'M[R]_(n, k) :=
  if (n == 0%N) || (k == 0%N) then ret 0
  else
    r <- lapack Dgetrs (dgetrs be fac piv b) ;;
    let: (x, info) := r in
    if info < 0 then
      raise (ValueError "the %s-th argument had an illegal value" [:: - info])
    else ret x.

Definition _solve_cholesky n k (L : 'M[R]_n) (b : 'M[R]_(n, k)) (lower : bool) :
    M 'M[R]_(n, k) :=
  if (n == 0%N) || (k == 0%N) then ret 0
  else
    r <- lapack Dpotrs (dpotrs be L b lower) ;;
    let: (x, info) := r in
    if info < 0 then
      raise (ValueError "The %s-th argument has an illegal value." [:: - info])
    else ret x.

(** [_solve_lu] and [_solve_cholesky] on a right-hand side of any number
    of dimensions.  The test [any(i == 0 for i in b.shape)] is the one
    above on the flattened entries.  The wrappers of [dgetrs] and [dpotrs]
    take an array of more than two dimensions with its axes of length one
    left out: the first axis that is left must have the length [n], and
    the others are taken together as the columns of the system, so that
    the solution, which has the shape of [b], is found along the first
    axis.  When [n] is [1] and another axis is longer, that axis is found
    where the rows were expected and the wrapper raises a [ValueError]. *)
Definition wrapper_refuses (n : nat) (tr : seq nat) : bool :=
  [&& (1 < size tr)%N, n == 1%N, has (leq 2) tr & 0%N \notin tr].

Definition _solve_lu_nd n (fac : 'M[R]_n) (piv : seq nat) (b : narray R n) :
    M (narray R n) :=
  if wrapper_refuses n (trailing b) then
    call Dgetrs (inl (LibValueError DIMENSION_MSG))
  else x <- _solve_lu fac piv (entries b) ;; ret (NArray (trailing b) x).

Definition _solve_cholesky_nd n (L : 'M[R]_n) (b : narray R n) (lower : bool) :
    M (narray R n) :=
  if wrapper_refuses n (trailing b) then
    call Dpotrs (inl (LibValueError DIMENSION_MSG))
  else x <- _solve_cholesky L (entries b) lower ;; ret (NArray (trailing b) x).

Definition _solve_triangular n (L : 'M[R]_n) (b : ndarray R n) (lower : bool) :
    M (ndarray R n) :=
  if has (fun i => i == 0%N) (shape b) then ret (zeros_like b)
  else
    r <- call Dtrtrs (dtrtrs be L b lower) ;;
    let: (x, info) := r in
    if info < 0 then
      raise (ValueError "The %s-th argument had an illegal value" [:: - info])
    else if 0 < info then raise (LinAlgError "Singular matrix")
    else ret x.

(** [100*A.nnz/(A.shape[0]*A.shape[1])], a quotient of Python integers. *)
Definition percent_nonzeros m n (A : spmatrix R m n) : M R :=
  if (m * n == 0)%N then raise ZeroDivisionError
  else ret ((100 * (nnz A))%:R / (m * n)%:R).

(** *** class _SparseSolver *)

Definition _SparseSolver_init n (A : spmatrix R n n) : M (SuperLU be n) :=
  pct <- percent_nonzeros A ;;
  debug "Computing the LU decomposition with %.2f%% nonzeros" [:: LNum pct] ;;;
  call Splu (splu be A).

Definition _SparseSolver_solve n k (factor : SuperLU be n) (b : 'M[R]_(n, k)) :
    M 'M[R]_(n, k) :=
  call SuperLU_solve (superlu_solve factor b).

(** [SuperLU.solve] takes one or two dimensions as they are; what it does
    with more is the library's. *)
Definition _SparseSolver_solve_nd n (factor : SuperLU be n) (b : narray R n) :
    M (narray R n) :=
  if (size (trailing b) <= 1)%N then
    x <- _SparseSolver_solve factor (entries b) ;; ret (NArray (trailing b) x)
  else call SuperLU_solve (superlu_solve_nd factor b).

(** *** class _DenseSolver *)

Definition _DenseSolver_init n (A : 'M[R]_n) : M ('M[R]_n * seq nat) := _lu A.

Definition _DenseSolver_solve n k (self : 'M[R]_n * seq nat) (b : 'M[R]_(n, k)) :
    M 'M[R]_(n, k) :=
  _solve_lu self.1 self.2 b.

Definition _DenseSolver_solve_nd n (self : 'M[R]_n * seq nat) (b : narray R n) :
    M (narray R n) :=
  _solve_lu_nd self.1 self.2 b.

(** *** class Solver *)

Inductive lu_solver (n : nat) : Type :=
| SparseSolver of SuperLU be n
| DenseSolver of 'M[R]_n * seq nat.

Record Solver (n : nat) : Type :=
  MkSolver { Solver_solver : lu_solver n; Solver_inverse : option 'M[R]_n }.

Definition lu_solver_solve n k (s : lu_solver n) (b : 'M[R]_(n, k)) :
    M 'M[R]_(n, k) :=
  match s with
  | SparseSolver f => _SparseSolver_solve f b
  | DenseSolver f => _DenseSolver_solve f b
  end.

Definition Solver_init n (A : matrix_like R n n) (build_inverse : bool) :
    M (Solver n) :=
  let A := as_sparse_or_array A in
  s <- match A with
       | Sparse a => f <- _SparseSolver_init a ;; ret (SparseSolver f)
       | Array a => f <- _DenseSolver_init a ;; ret (DenseSolver f)
       end ;;
  inv <- (if build_inverse then
            X <- lu_solver_solve s (1%:M : 'M[R]_n) ;; ret (Some X)
          else ret None) ;;
  ret (MkSolver s inv).

Definition lu_solver_solve_nd n (s : lu_solver n) (b : narray R n) :
    M (narray R n) :=
  match s with
  | SparseSolver f => _SparseSolver_solve_nd f b
  | DenseSolver f => _DenseSolver_solve_nd f b
  end.

Definition Solver_solve n (self : Solver n) (b : array_like R n) :
    M (narray R n) :=
  let b := as_narray b in
  match Solver_inverse self with
  | Some inverse => dot inverse b
  | None => lu_solver_solve_nd (Solver_solver self) b
  end.

(** *** class _SparsePosDefSolver *)

Record _SparsePosDefSolver (n : nat) : Type :=
  Mk_SparsePosDefSolver {
    sp_factor : Factor be n;
    sp_d : 'cV[R]_n;      (* squared diagonal of the factorization *)
    sp_p : 'S_n           (* fill-reducing permutation *)
  }.

Definition _SparsePosDefSolver_init n (A : spmatrix R n n) :
    M (_SparsePosDefSolver n) :=
  pct <- percent_nonzeros A ;;
  debug "Computing the Cholesky decomposition with %.2f%% nonzeros"
        [:: LNum pct] ;;;
  factor <- call Cholmod_cholesky (cholmod_cholesky be A) ;;
  ret (Mk_SparsePosDefSolver factor (factor_D factor) (factor_P factor)).

Definition _SparsePosDefSolver_solve n k (self : _SparsePosDefSolver n)
    (b : 'M[R]_(n, k)) : M 'M[R]_(n, k) :=
  call Cholmod_solve_A (factor_solve_A (sp_factor self) b).

(** [Factor.solve_A] takes one or two dimensions as they are; what it does
    with more is the library's. *)
Definition _SparsePosDefSolver_solve_nd n (self : _SparsePosDefSolver n)
    (b : narray R n) : M (narray R n) :=
  if (size (trailing b) <= 1)%N then
    x <- _SparsePosDefSolver_solve self (entries b) ;;
    ret (NArray (trailing b) x)
  else call Cholmod_solve_A (factor_solve_A_nd (sp_factor self) b).

(** [s_inv*X], the rows of [X] multiplied by the entries of [s_inv] (which
    is [s_inv[:, None]] when [X] has two dimensions). *)
Definition scale_rows n k (s : 'cV[R]_n) (X : 'M[R]_(n, k)) : 'M[R]_(n, k) :=
  \matrix_(i, j) (s i 0 * X i j).

Definition _SparsePosDefSolver_solve_L n (self : _SparsePosDefSolver n)
    (b : ndarray R n) : M (ndarray R n) :=
  let s_inv : 'cV[R]_n := \col_i (np_sqrt be (sp_d self i 0))^-1 in
  match b with
  | Arr2 k b2 =>                                  (* b.ndim == 2 *)
      x <- call Cholmod_solve_L
             (factor_solve_L (sp_factor self) (row_perm (sp_p self) b2)) ;;
      ret (Arr2 (scale_rows s_inv x))
  | Arr1 b1 =>                                    (* b.ndim == 1 *)
      x <- call Cholmod_solve_L
             (factor_solve_L (sp_factor self) (row_perm (sp_p self) b1)) ;;
      ret (Arr1 (scale_rows s_inv x))
  | Arr0 _ | ArrN _ _ _ _ => raise (ValueError NDIM_MSG [::])
  end.

Definition _SparsePosDefSolver_L n (self : _SparsePosDefSolver n) :
    M (spmatrix R n n) :=
  L <- call Cholmod_L (factor_L (sp_factor self)) ;;
  let p_inv := ((sp_p self)^-1)%g in
  ret (SpMatrix (row_perm p_inv (toarray L)) (nnz L)).

Definition _SparsePosDefSolver_log_det n (self : _SparsePosDefSolver n) : R :=
  \sum_i np_log be (sp_d self i 0).

(** *** class _DensePosDefSolver *)

Definition _DensePosDefSolver_init n (A : 'M[R]_n) : M 'M[R]_n :=
  _cholesky A true.

Definition _DensePosDefSolver_solve n k (chol : 'M[R]_n) (b : 'M[R]_(n, k)) :
    M 'M[R]_(n, k) :=
  _solve_cholesky chol b true.

Definition _DensePosDefSolver_solve_nd n (chol : 'M[R]_n) (b : narray R n) :
    M (narray R n) :=
  _solve_cholesky_nd chol b true.

Definition _DensePosDefSolver_solve_L n (chol : 'M[R]_n) (b : ndarray R n) :
    M (ndarray R n) :=
  _solve_triangular chol b true.

Definition _DensePosDefSolver_L n (chol : 'M[R]_n) : 'M[R]_n := chol.

Definition _DensePosDefSolver_log_det n (chol : 'M[R]_n) : R :=
  2 * \sum_i np_log be (chol i i).

(** *** class PosDefSolver *)

Inductive chol_solver (n : nat) : Type :=
| SparsePosDefSolver of _SparsePosDefSolver n
| DensePosDefSolver of 'M[R]_n.

Record PosDefSolver (n : nat) : Type :=
  MkPosDefSolver {
    PosDefSolver_solver : chol_solver n;
    PosDefSolver_inverse : option 'M[R]_n
  }.

Definition chol_solver_solve n k (s : chol_solver n) (b : 'M[R]_(n, k)) :
    M 'M[R]_(n, k) :=
  match s with
  | SparsePosDefSolver f => _SparsePosDefSolver_solve f b
  | DensePosDefSolver c => _DensePosDefSolver_solve c b
  end.

(** The choice of the Cholesky backend, shared by [PosDefSolver.__init__]
    and [PartitionedPosDefSolver.__init__]. *)
Definition chol_solver_init n (A : matrix_like R n n) : M (chol_solver n) :=
  match A with
  | Sparse a =>
      if ~~ HAS_CHOLMOD then
        warn CHOLMOD_MSG ;;;
        c <- _DensePosDefSolver_init (toarray a) ;; ret (DensePosDefSolver c)
      else
        f <- _SparsePosDefSolver_init a ;; ret (SparsePosDefSolver f)
  | Array a =>
      c <- _DensePosDefSolver_init a ;; ret (DensePosDefSolver c)
  end.

Definition PosDefSolver_init n (A : matrix_like R n n) (build_inverse : bool) :
    M (PosDefSolver n) :=
  let A := as_sparse_or_array A in
  s <- chol_solver_init A ;;
  inv <- (if build_inverse then
            X <- chol_solver_solve s (1%:M : 'M[R]_n) ;; ret (Some X)
          else ret None) ;;
  ret (MkPosDefSolver s inv).

Definition chol_solver_solve_nd n (s : chol_solver n) (b : narray R n) :
    M (narray R n) :=
  match s with
  | SparsePosDefSolver f => _SparsePosDefSolver_solve_nd f b
  | DensePosDefSolver c => _DensePosDefSolver_solve_nd c b
  end.

Definition PosDefSolver_solve n (self : PosDefSolver n) (b : array_like R n) :
    M (narray R n) :=
  let b := as_narray b in
  match PosDefSolver_inverse self with
  | Some inverse => dot inverse b
  | None => chol_solver_solve_nd (PosDefSolver_solver self) b
  end.

(** [as_array] leaves the number of dimensions of [b] as it is. *)
Definition PosDefSolver_solve_L n (self : PosDefSolver n) (b : ndarray R n) :
    M (ndarray R n) :=
  match PosDefSolver_solver self with
  | SparsePosDefSolver f => _SparsePosDefSolver_solve_L f b
  | DensePosDefSolver c => _DensePosDefSolver_solve_L c b
  end.

Definition PosDefSolver_L n (self : PosDefSolver n) : M (matrix_like R n n) :=
  match PosDefSolver_solver self with
  | SparsePosDefSolver f => L <- _SparsePosDefSolver_L f ;; ret (Sparse L)
  | DensePosDefSolver c => ret (Array (_DensePosDefSolver_L c))
  end.

Definition PosDefSolver_log_det n (self : PosDefSolver n) : R :=
  match PosDefSolver_solver self with
  | SparsePosDefSolver f => _SparsePosDefSolver_log_det f
  | DensePosDefSolver c => _DensePosDefSolver_log_det c
  end.

(** *** is_positive_definite *)

(** [try: body except classes: handler]: the tuple of classes is evaluated
    only once an exception reaches the clause. *)
Definition try_except {T} (body : M T) (handler : exn -> M T) : M T :=
  match body with
  | (t, Ok x) => (t, Ok x)
  | (t, Err e) => let: (t', r) := handler e in (t ++ t', r)
  end.

(** [(np.linalg.LinAlgError, cholmod.CholmodNotPositiveDefiniteError)]:
    the name [cholmod] is bound only when its import succeeded. *)
Definition is_positive_definite_except (e : exn) : M bool :=
  if HAS_CHOLMOD then
    match e with
    | LinAlgError _ => ret false
    | LibError CholmodNotPositiveDefiniteError => ret false
    | _ => raise e
    end
  else raise (NameError "name 'cholmod' is not defined").

(** [return True] follows the [try] statement; it cannot raise, and is
    written here as the end of the body. *)
Definition is_positive_definite n (A : matrix_like R n n) : M bool :=
  try_except
    (s <- PosDefSolver_init A false ;; _ <- PosDefSolver_L s ;; ret true)
    is_positive_definite_except.

(** *** class PartitionedSolver *)

Definition count_nonzero m n (B : 'M[R]_(m, n)) : nat :=
  #|[set ij : 'I_m * 'I_n | B ij.1 ij.2 != 0]|.

(** [sp.bmat([[A, B], [B.T, None]], format='csc')] *)
Definition bmat n p (A : spmatrix R n n) (B : 'M[R]_(n, p)) :
    spmatrix R (n + p) (n + p) :=
  SpMatrix (block_mx (toarray A) B B^T 0) (nnz A + 2 * count_nonzero B).

Record PartitionedSolver (n p : nat) : Type :=
  MkPartitionedSolver {
    PartitionedSolver_solver : lu_solver (n + p);
    PartitionedSolver_inverse : option 'M[R]_(n + p)
  }.

Definition PartitionedSolver_init n p (A : matrix_like R n n)
    (B : matrix_like R n p) (build_inverse : bool) : M (PartitionedSolver n p) :=
  let A := as_sparse_or_array A in
  let B := as_array B in
  if (n < p)%N then raise (LinAlgError BLOCK_MSG)
  else
    s <- match A with
         | Sparse a =>
             let C := bmat a B in
             f <- _SparseSolver_init C ;; ret (SparseSolver f)
         | Array a =>
             let Z : 'M[R]_p := 0 in
             let C := block_mx a B B^T Z in
             f <- _DenseSolver_init C ;; ret (DenseSolver f)
         end ;;
    inv <- (if build_inverse then
              X <- lu_solver_solve s (1%:M : 'M[R]_(n + p)) ;; ret (Some X)
            else ret None) ;;
    ret (MkPartitionedSolver s inv).

Definition PartitionedSolver_solve n p (self : PartitionedSolver n p)
    (a : array_like R n) (b : option (array_like R p)) :
    M (narray R n * narray R p) :=
  let a := as_narray a in
  xy <- match PartitionedSolver_inverse self with
        | Some inverse =>
            xy <- dot (lsubmx inverse) a ;;
            match b with
            | Some b =>
                let b := as_narray b in
                t <- dot (rsubmx inverse) b ;; np_iadd xy t
            | None => ret xy
            end
        | None =>
            let b := match b with
                     | None => np_zeros R p (trailing a)
                     | Some b => as_narray b
                     end in
            c <- concatenate a b ;;
            lu_solver_solve_nd (PartitionedSolver_solver self) c
        end ;;
  ret (rows_to xy, rows_from xy).

(** *** class PartitionedPosDefSolver *)

Record PartitionedPosDefSolver (n p : nat) : Type :=
  MkPartitionedPosDefSolver {
    _A_solver : chol_solver n;
    _AiB : 'M[R]_(n, p);
    _BtAiB_solver : 'M[R]_p;     (* a _DensePosDefSolver *)
    PartitionedPosDefSolver_inverse : option 'M[R]_(n + p)
  }.

Definition PartitionedPosDefSolver_init n p (A : matrix_like R n n)
    (B : matrix_like R n p) (build_inverse : bool) :
    M (PartitionedPosDefSolver n p) :=
  let A := as_sparse_or_array A in
  let B := as_array B in
  if (n < p)%N then raise (LinAlgError BLOCK_MSG)
  else
    A_solver <- chol_solver_init A ;;
    AiB <- chol_solver_solve A_solver B ;;
    BtAiB_solver <- _DensePosDefSolver_init (B^T *m AiB) ;;
    inv <- (if build_inverse then
              let Ia : 'M[R]_n := 1%:M in
              let Ib : 'M[R]_p := 1%:M in
              SiI <- _DensePosDefSolver_solve BtAiB_solver Ib ;;
              let E := - SiI in
              let D := AiB *m (- E) in
              AiI <- chol_solver_solve A_solver Ia ;;
              let C := AiI - D *m AiB^T in
              ret (Some (block_mx C D D^T E))
            else ret None) ;;
    ret (MkPartitionedPosDefSolver A_solver AiB BtAiB_solver inv).

Definition PartitionedPosDefSolver_solve n p
    (self : PartitionedPosDefSolver n p)
    (a : array_like R n) (b : option (array_like R p)) :
    M (narray R n * narray R p) :=
  let a := as_narray a in
  match PartitionedPosDefSolver_inverse self with
  | Some inverse =>
      xy <- dot (lsubmx inverse) a ;;
      xy <- match b with
            | Some b =>
                let b := as_narray b in
                t <- dot (rsubmx inverse) b ;; np_iadd xy t
            | None => ret xy
            end ;;
      ret (rows_to xy, rows_from xy)
  | None =>
      t <- dot (_AiB self)^T a ;;
      Dta <- _DensePosDefSolver_solve_nd (_BtAiB_solver self) t ;;
      Aia <- chol_solver_solve_nd (_A_solver self) a ;;
      u <- dot (_AiB self) Dta ;;
      Ca <- np_subtract Aia u ;;
      match b with
      | None => ret (Ca, Dta)
      | Some b =>
          let b := as_narray b in
          Sib <- _DensePosDefSolver_solve_nd (_BtAiB_solver self) b ;;
          let Eb := np_negative Sib in
          v <- dot (_AiB self) Eb ;;
          let Db := np_negative v in
          x <- np_add Ca Db ;;
          y <- np_add Dta Eb ;;
          ret (x, y)
      end
  end.

(** *** class GMRESSolver *)

(** Modelled from the spec: [rbf.sputils.row_norms], the Euclidean norm of
    each row of the matrix; the source of [rbf.sputils] is not available. *)
Definition row_norms n (A : spmatrix R n n) : 'cV[R]_n :=
  \col_i np_sqrt be (\sum_j (toarray A i j) ^+ 2).

(** Modelled from the spec: [rbf.sputils.divide_rows], which divides each
    row of the matrix by the matching entry of [x]; the source of
    [rbf.sputils] is not available.  Whether the result is written into the
    argument or into a copy is the matter of the store model below. *)
Definition divide_rows n (A : spmatrix R n n) (x : 'cV[R]_n) : spmatrix R n n :=
  SpMatrix (\matrix_(i, j) (toarray A i j / x i 0)) (nnz A).

Record GMRESSolver (n : nat) : Type :=
  MkGMRESSolver {
    GMRESSolver_A : spmatrix R n n;
    GMRESSolver_M : ILU be n;
    GMRESSolver_n : 'cV[R]_n
  }.

Definition GMRESSolver_init n (A : matrix_like R n n) (drop_tol fill_factor : R)
    (normalize_inplace : bool) : M (GMRESSolver n) :=
  let A := csc_matrix A in
  let nrm := row_norms A in
  let A := if normalize_inplace then divide_rows A nrm   (* inplace=True *)
           else divide_rows A nrm in                     (* a copy, .tocsc() *)
  debug "computing the ILU decomposition of a %s by %s sparse matrix with %s nonzeros "
        [:: LNat n; LNat n; LNat (nnz A)] ;;;
  ilu <- call Spilu (spilu be A drop_tol fill_factor) ;;
  debug "done" [::] ;;;
  ret (MkGMRESSolver A ilu nrm).

(** The callback of [solve]: one debug record for each iteration, numbered
    from [0] by the counter [_itr]. *)
Fixpoint gmres_callbacks (itr : nat) (l2s : seq R) : M unit :=
  match l2s with
  | [::] => ret tt
  | l2 :: l2s =>
      debug "GMRES error on iteration %s: %s" [:: LNat itr; LNum l2] ;;;
      gmres_callbacks itr.+1 l2s
  end.

Definition GMRESSolver_solve n (self : GMRESSolver n) (b : 'cV[R]_n) (tol : R) :
    M 'cV[R]_n :=
  debug "solving the system with GMRES" [::] ;;;
  let rhs : 'cV[R]_n := \col_i (b i 0 / GMRESSolver_n self i 0) in
  r <- call Gmres (gmres (GMRESSolver_A self) rhs tol (GMRESSolver_M self)) ;;
  let: (l2s, x, info) := r in
  gmres_callbacks 0 l2s ;;;
  debug "finished GMRES with info %s" [:: LInt info] ;;;
  ret x.

End Linalg.


(** ** Exact arithmetic

    What the libraries compute when no rounding takes place: a
    factorization succeeds on every matrix of its class, and the solve that
    goes with it returns the solution of the system. *)

Section Exact.

Variable R : realFieldType.
Variable be : backend R.

Definition posdef n (A : 'M[R]_n) : Prop :=
  A^T = A /\ forall x : 'cV[R]_n, x != 0 -> 0 < (x^T *m A *m x) 0 0.

Definition lapack_lu_exact : Prop :=
  forall n (A : 'M[R]_n), A \in unitmx ->
    (dgetrf be A).2 = 0 /\
    forall k (b : 'M[R]_(n, k)),
      let r := dgetrs be (dgetrf be A).1.1 (dgetrf be A).1.2 b in
      r.2 = 0 /\ A *m r.1 = b.

Definition lapack_cholesky_exact : Prop :=
  forall n (A : 'M[R]_n), posdef A ->
    (dpotrf be A true).2 = 0 /\
    forall k (b : 'M[R]_(n, k)),
      let r := dpotrs be (dpotrf be A true).1 b true in
      r.2 = 0 /\ A *m r.1 = b.

Definition superlu_exact : Prop :=
  forall n (A : spmatrix R n n), toarray A \in unitmx ->
    exists2 f, splu be A = inr f &
      forall k (b : 'M[R]_(n, k)),
        exists2 x, superlu_solve f b = inr x & toarray A *m x = b.

Definition cholmod_exact : Prop :=
  forall n (A : spmatrix R n n), posdef (toarray A) ->
    exists2 f, cholmod_cholesky be A = inr f &
      forall k (b : 'M[R]_(n, k)),
        exists2 x, factor_solve_A f b = inr x & toarray A *m x = b.

Record exact_arithmetic : Prop :=
  ExactArithmetic {
    exact_lu : lapack_lu_exact;
    exact_cholesky : lapack_cholesky_exact;
    exact_superlu : superlu_exact;
    exact_cholmod : cholmod_exact
  }.

End Exact.

(** ** A reference backend

    An instance of the libraries over the rationals, used to run the module
    on concrete inputs.  Every solve is exact; a factor object is the matrix
    itself; [dgetrf] and [splu] fail on singular matrices, [dpotrf] and
    [cholmod.cholesky] on singular matrices and on those with a diagonal
    entry that is not positive.  The sparse libraries refuse a right-hand
    side of more than two dimensions.  [gmres] starts from the zero vector:
    it returns it when the tolerance is [1] or more, which the residual of
    the zero vector meets, and the solution otherwise, and reports
    convergence.  The rationals are not closed under square roots and
    logarithms: [np_sqrt] is the square root on the squares of rationals
    (the quotient of the integer square roots of numerator and denominator
    in general), and [np_log] is the logarithm to the base two on the
    powers of two (the exponent of two in the numerator minus the one in
    the denominator in general). *)

Section Reference.

Local Notation Q := rat.

Definition ref_lu_info n (A : 'M[Q]_n) : int :=
  if A \in unitmx then 0 else 1.

Definition ref_chol_info n (A : 'M[Q]_n) : int :=
  if (A \in unitmx) && [forall i, 0 < A i i] then 0 else 1.

Definition ref_trsolve n (L : 'M[Q]_n) (b : ndarray Q n) : ndarray Q n :=
  match b with
  | Arr0 c => Arr0 c
  | Arr1 c => Arr1 (invmx L *m c)
  | Arr2 _ c => Arr2 (invmx L *m c)
  | ArrN _ _ _ c => ArrN (invmx L *m c)
  end.

Definition ref_sqrt (x : Q) : Q :=
  (Nat.sqrt `|numq x|)%:R / (Nat.sqrt `|denq x|)%:R.

Definition ref_log2 (x : Q) : Q :=
  (logn 2 `|numq x|)%:R - (logn 2 `|denq x|)%:R.

Definition ref_backend : backend Q :=
  {| np_sqrt := ref_sqrt;
     np_log := ref_log2;
     dgetrf := fun n A => (A, [::], ref_lu_info A);
     dgetrs := fun n k fac piv b => (invmx fac *m b, 0);
     dpotrf := fun n A lower => (A, ref_chol_info A);
     dpotrs := fun n k L b lower => (invmx L *m b, 0);
     dtrtrs := fun n L b lower => inr (ref_trsolve L b, 0);
     SuperLU := fun n => 'M[Q]_n;
     splu := fun n A =>
       if toarray A \in unitmx then inr (toarray A)
       else inl (RuntimeError "Factor is exactly singular");
     superlu_solve := fun n k f b => inr (invmx f *m b);
     superlu_solve_nd := fun n f b =>
       inl (LibValueError "object too deep for desired array");
     Factor := fun n => 'M[Q]_n;
     cholmod_cholesky := fun n A =>
       if ref_chol_info (toarray A) == 0 then inr (toarray A)
       else inl CholmodNotPositiveDefiniteError;
     factor_D := fun n f => \col_i f i i;
     factor_P := fun n f => 1%g;
     factor_solve_A := fun n k f b => inr (invmx f *m b);
     factor_solve_A_nd := fun n f b =>
       inl (CholmodError "b must be a 1 or 2 dimensional array");
     factor_solve_L := fun n k f b => inr (invmx f *m b);
     factor_L := fun n f => inr (SpMatrix f (count_nonzero f));
     ILU := fun n => unit;
     spilu := fun n A drop_tol fill_factor => inr tt;
     gmres := fun n A b tol M =>
       inr ([::], if 1 <= tol then 0 else invmx (toarray A) *m b, 0)
  |}.

End Reference.

(** ** CHOLMOD on diagonal matrices

    The factorization [A[P][:, P] = L D L^T] of a diagonal matrix with a
    positive diagonal, for the ordering [P] that takes the rows in reverse:
    [L] is the identity, [D] is the diagonal of [A] in that order, and the
    factor of [A[P][:, P] = L L^T] is the diagonal matrix of the square
    roots of [D].  The factor object holds [D] and [P].  This backend
    stands for CHOLMOD on diagonal matrices only: it refuses the others.
    The other libraries are those of the reference backend. *)

Section DiagonalCholmod.

Local Notation Q := rat.

Definition rev_perm n : 'S_n := perm (@rev_ord_inj n).

Record diag_factor (n : nat) : Type :=
  DiagFactor { diag_factor_D : 'cV[Q]_n; diag_factor_P : 'S_n }.

Definition diag_cholesky n (A : spmatrix Q n n) : lib_exn + diag_factor n :=
  if ~~ is_diag_mx (toarray A) then inl (CholmodError "not a diagonal matrix")
  else if [forall i, 0 < toarray A i i] then
    inr (DiagFactor (\col_i toarray A (rev_perm n i) (rev_perm n i))
                    (rev_perm n))
  else inl CholmodNotPositiveDefiniteError.

Definition diag_backend : backend Q :=
  {| np_sqrt := np_sqrt ref_backend;
     np_log := np_log ref_backend;
     dgetrf := dgetrf ref_backend;
     dgetrs := dgetrs ref_backend;
     dpotrf := dpotrf ref_backend;
     dpotrs := dpotrs ref_backend;
     dtrtrs := dtrtrs ref_backend;
     SuperLU := SuperLU ref_backend;
     splu := splu ref_backend;
     superlu_solve := @superlu_solve _ ref_backend;
     superlu_solve_nd := @superlu_solve_nd _ ref_backend;
     Factor := diag_factor;
     cholmod_cholesky := diag_cholesky;
     factor_D := diag_factor_D;
     factor_P := diag_factor_P;
     factor_solve_A := fun n k f b =>
       inr (\matrix_(i, j)
              (b i j / diag_factor_D f ((diag_factor_P f)^-1%g i) 0));
     factor_solve_A_nd := fun n f b =>
       inl (CholmodError "b must be a 1 or 2 dimensional array");
     factor_solve_L := fun n k f b => inr b;
     factor_L := fun n f =>
       inr (SpMatrix (\matrix_(i, j)
                        (if i == j then ref_sqrt (diag_factor_D f i 0) else 0))
                     n);
     ILU := ILU ref_backend;
     spilu := spilu ref_backend;
     gmres := @gmres _ ref_backend
  |}.

End DiagonalCholmod.

(** ** The store: which buffers each method reads, allocates or writes

    The model above treats arrays as values.  To say that a caller's array
    is not changed, the methods are also given as programs over a store of
    buffers: a Python array or sparse matrix is an object that points to the
    buffer holding its entries, several objects may point to one buffer
    (views, [np.array(..., copy=False)], [sp.csc_matrix] of a csc matrix),
    and every statement of a method either leaves the store alone, adds a
    buffer, or writes into one.  What the new contents are is left to
    [eval].  Logging, shape tests and errors are left out: they do not touch
    the store, and a method that raises stops on the way.  The LAPACK
    wrappers are called without their [overwrite_*] flags, so they read
    their arguments and return new arrays, as the sparse libraries do. *)

Module Store.

Section Programs.

(** Contents of a buffer, and the operations that compute new contents. *)
Variable V : Type.
Variable v0 : V.

Inductive op : Type :=
| Convert | ToArray | Eye | Zeros | Block | Concatenate | Dot | Add | Sub
| Neg | Divide | Factorize | Solve | RowNorms | DivideRows | Spilu | GmresRun.

Variable eval : op -> seq V -> V.

Definition loc : Type := nat.
Definition heap : Type := seq V.
Definition St (T : Type) : Type := heap -> T * heap.

Definition unit_st {T} (x : T) : St T := fun h => (x, h).

Definition bind_st {T U} (m : St T) (f : T -> St U) : St U :=
  fun h => let: (x, h') := m h in f x h'.

Local Notation "x <~ m ;; k" := (bind_st m (fun x => k))
  (at level 100, m at next level, right associativity).
Local Notation "m ~;; k" := (bind_st m (fun _ => k))
  (at level 100, right associativity).

Definition read (h : heap) (l : loc) : V := nth v0 h l.

(** A new buffer, computed from the buffers [args]. *)
Definition alloc (o : op) (args : seq loc) : St loc :=
  fun h => (size h, rcons h (eval o [seq read h l | l <- args])).

(** An update in place of the buffer [target]. *)
Definition write (o : op) (target : loc) (args : seq loc) : St unit :=
  fun h => (tt, set_nth v0 h target
                  (eval o [seq read h l | l <- target :: args])).

(** A Python object handed to the module: an array or a sparse matrix,
    with the buffer of its entries, whether its dtype is [float], and for a
    sparse matrix whether its format is csc. *)
Inductive pyobj : Type :=
| NdArray (buf : loc) (is_float : bool)
| SpMatrixObj (buf : loc) (is_csc : bool) (is_float : bool).

Definition buffer_of (A : pyobj) : loc :=
  match A with
  | NdArray buf _ => buf
  | SpMatrixObj buf _ _ => buf
  end.

Definition issparse (A : pyobj) : bool :=
  if A is SpMatrixObj _ _ _ then true else false.

(** [np.array(A, dtype=float, copy=False)] returns [A] when it is already
    an array of that dtype. *)
Definition np_array (A : pyobj) : St pyobj :=
  match A with
  | NdArray buf true => unit_st (NdArray buf true)
  | _ => l <~ alloc Convert [:: buffer_of A] ;; unit_st (NdArray l true)
  end.

(** [sp.csc_matrix(A, dtype=dtype, copy=False)]: a csc matrix of the same
    dtype gives a matrix on the same buffers. *)
Definition sp_csc_matrix (A : pyobj) (dtype_float : bool) : St pyobj :=
  match A with
  | SpMatrixObj buf true is_float =>
      if dtype_float && ~~ is_float then
        l <~ alloc Convert [:: buf] ;; unit_st (SpMatrixObj l true true)
      else unit_st (SpMatrixObj buf true is_float)
  | _ => l <~ alloc Convert [:: buffer_of A] ;;
         unit_st (SpMatrixObj l true true)
  end.

Definition as_sparse_or_array (A : pyobj) : St pyobj :=
  if issparse A then sp_csc_matrix A true else np_array A.

Definition as_array (A : pyobj) : St pyobj :=
  A <~ (if A is SpMatrixObj buf _ is_float then
          l <~ alloc ToArray [:: buf] ;; unit_st (NdArray l is_float)
        else unit_st A) ;;
  np_array A.

(** The solvers: the buffer of the factorization and of the inverse. *)
Record solver : Type := MkSolver { factor : loc; inverse : option loc }.

(** [I = np.eye(n); self._inverse = self._solver.solve(I)] *)
Definition build (f : loc) (build_inverse : bool) : St (option loc) :=
  if build_inverse then
    I <~ alloc Eye [::] ;; X <~ alloc Solve [:: f; I] ;; unit_st (Some X)
  else unit_st None.

(** [Solver.__init__]: [splu(A)] and [dgetrf(A)] read [A]. *)
Definition Solver_init (A : pyobj) (build_inverse : bool) : St solver :=
  A <~ as_sparse_or_array A ;;
  f <~ alloc Factorize [:: buffer_of A] ;;  (* _SparseSolver(A), _DenseSolver(A) *)
  inv <~ build f build_inverse ;;
  unit_st (MkSolver f inv).

Definition Solver_solve (self : solver) (b : pyobj) : St loc :=
  b <~ as_array b ;;
  match inverse self with
  | Some inv => alloc Dot [:: inv; buffer_of b]        (* self._inverse.dot(b) *)
  | None => alloc Solve [:: factor self; buffer_of b]  (* self._solver.solve(b) *)
  end.

(** [PosDefSolver.__init__]: without CHOLMOD a sparse [A] is factored from
    [A.toarray()]. *)
Definition PosDefSolver_init (HAS_CHOLMOD : bool) (A : pyobj)
    (build_inverse : bool) : St solver :=
  A <~ as_sparse_or_array A ;;
  f <~ (if issparse A && ~~ HAS_CHOLMOD then
          d <~ alloc ToArray [:: buffer_of A] ;; alloc Factorize [:: d]
        else alloc Factorize [:: buffer_of A]) ;;
  inv <~ build f build_inverse ;;
  unit_st (MkSolver f inv).

Definition PosDefSolver_solve (self : solver) (b : pyobj) : St loc :=
  b <~ as_array b ;;
  match inverse self with
  | Some inv => alloc Dot [:: inv; buffer_of b]
  | None => alloc Solve [:: factor self; buffer_of b]
  end.

(** [PartitionedSolver.__init__]: [B.T] is a view of [B]; [np.block] and
    [sp.bmat] build the block matrix in a new buffer. *)
Definition PartitionedSolver_init (A B : pyobj) (build_inverse : bool) :
    St solver :=
  A <~ as_sparse_or_array A ;;
  B <~ as_array B ;;
  Z <~ (if issparse A then unit_st [::]
        else l <~ alloc Zeros [::] ;; unit_st [:: l]) ;;   (* Z = np.zeros((p, p)) *)
  C <~ alloc Block ([:: buffer_of A; buffer_of B; buffer_of B] ++ Z) ;;
  f <~ alloc Factorize [:: C] ;;
  inv <~ build f build_inverse ;;
  unit_st (MkSolver f inv).

(** [PartitionedSolver.solve]: the slices of [self._inverse] and of [xy] are
    views; [xy += ...] writes into the buffer of [xy]. *)
Definition PartitionedSolver_solve (self : solver) (a : pyobj)
    (b : option pyobj) : St (loc * loc) :=
  a <~ as_array a ;;
  xy <~ match inverse self with
        | Some inv =>
            xy <~ alloc Dot [:: inv; buffer_of a] ;;
            match b with
            | Some b =>
                b <~ as_array b ;;
                t <~ alloc Dot [:: inv; buffer_of b] ;;
                write Add xy [:: t] ~;; unit_st xy
            | None => unit_st xy
            end
        | None =>
            b <~ match b with
                 | None => alloc Zeros [::]
                 | Some b => b <~ as_array b ;; unit_st (buffer_of b)
                 end ;;
            c <~ alloc Concatenate [:: buffer_of a; b] ;;
            alloc Solve [:: factor self; c]
        end ;;
  unit_st (xy, xy).                         (* x, y = xy[:self.n], xy[self.n:] *)

(** [PartitionedPosDefSolver]: the buffers of the factorization of [A], of
    [A^-1 B], of the factorization of [B^T A^-1 B], and of the inverse. *)
Record partitioned_posdef_solver : Type :=
  MkPartitionedPosDefSolver {
    A_solver : loc; AiB : loc; BtAiB_solver : loc; pinverse : option loc
  }.

Definition PartitionedPosDefSolver_init (HAS_CHOLMOD : bool) (A B : pyobj)
    (build_inverse : bool) : St partitioned_posdef_solver :=
  A <~ as_sparse_or_array A ;;
  B <~ as_array B ;;
  fA <~ (if issparse A && ~~ HAS_CHOLMOD then
           d <~ alloc ToArray [:: buffer_of A] ;; alloc Factorize [:: d]
         else alloc Factorize [:: buffer_of A]) ;;
  AiB <~ alloc Solve [:: fA; buffer_of B] ;;
  S <~ alloc Dot [:: buffer_of B; AiB] ;;                (* B.T.dot(self._AiB) *)
  fS <~ alloc Factorize [:: S] ;;
  inv <~ (if build_inverse then
            Ia <~ alloc Eye [::] ;;
            Ib <~ alloc Eye [::] ;;
            SiI <~ alloc Solve [:: fS; Ib] ;;
            E <~ alloc Neg [:: SiI] ;;
            mE <~ alloc Neg [:: E] ;;
            D <~ alloc Dot [:: AiB; mE] ;;
            AiI <~ alloc Solve [:: fA; Ia] ;;
            DAiBt <~ alloc Dot [:: D; AiB] ;;            (* D.dot(self._AiB.T) *)
            C <~ alloc Sub [:: AiI; DAiBt] ;;
            inv <~ alloc Block [:: C; D; D; E] ;;        (* [[C, D], [D.T, E]] *)
            unit_st (Some inv)
          else unit_st None) ;;
  unit_st (MkPartitionedPosDefSolver fA AiB fS inv).

Definition PartitionedPosDefSolver_solve (self : partitioned_posdef_solver)
    (a : pyobj) (b : option pyobj) : St (loc * loc) :=
  a <~ as_array a ;;
  match pinverse self with
  | Some inv =>
      xy <~ alloc Dot [:: inv; buffer_of a] ;;
      match b with
      | Some b =>
          b <~ as_array b ;;
          t <~ alloc Dot [:: inv; buffer_of b] ;;
          write Add xy [:: t] ~;; unit_st (xy, xy)
      | None => unit_st (xy, xy)
      end
  | None =>
      AiBta <~ alloc Dot [:: AiB self; buffer_of a] ;;
      Dta <~ alloc Solve [:: BtAiB_solver self; AiBta] ;;
      Aia <~ alloc Solve [:: A_solver self; buffer_of a] ;;
      AiBDta <~ alloc Dot [:: AiB self; Dta] ;;
      Ca <~ alloc Sub [:: Aia; AiBDta] ;;
      match b with
      | None => unit_st (Ca, Dta)
      | Some b =>
          b <~ as_array b ;;
          Sib <~ alloc Solve [:: BtAiB_solver self; buffer_of b] ;;
          Eb <~ alloc Neg [:: Sib] ;;
          AiBEb <~ alloc Dot [:: AiB self; Eb] ;;
          Db <~ alloc Neg [:: AiBEb] ;;
          x <~ alloc Add [:: Ca; Db] ;;
          y <~ alloc Add [:: Dta; Eb] ;;
          unit_st (x, y)
      end
  end.

(** Modelled from the spec: [rbf.sputils.divide_rows(A, x, inplace)], which
    normalizes the rows "in place or on a copy"; the source of [rbf.sputils]
    is not available.  In place it writes into the buffer of [A] and
    returns [A]; otherwise it returns a new matrix. *)
Definition divide_rows (A : pyobj) (x : loc) (inplace : bool) : St pyobj :=
  if inplace then write DivideRows (buffer_of A) [:: x] ~;; unit_st A
  else l <~ alloc DivideRows [:: buffer_of A; x] ;;
       unit_st (SpMatrixObj l true true).

(** Modelled from the spec: [rbf.sputils.row_norms(A)] computes the norms
    of the rows in a new array; the source of [rbf.sputils] is not
    available. *)
Definition row_norms (A : pyobj) : St loc := alloc RowNorms [:: buffer_of A].

Record gmres_solver : Type :=
  MkGMRESSolver { gA : pyobj; gM : loc; gn : loc }.

(** [GMRESSolver.__init__]: [sp.csc_matrix(A)] of a csc matrix is a matrix on
    the buffers of [A] ("if the matrix is already csc then this will do
    nothing"). *)
Definition GMRESSolver_init (A : pyobj) (normalize_inplace : bool) :
    St gmres_solver :=
  A <~ sp_csc_matrix A false ;;
  n <~ row_norms A ;;
  A <~ (if normalize_inplace then divide_rows A n true
        else divide_rows A n false) ;;
  ilu <~ alloc Spilu [:: buffer_of A] ;;
  unit_st (MkGMRESSolver A ilu n).

Definition GMRESSolver_solve (self : gmres_solver) (b : loc) : St loc :=
  rhs <~ alloc Divide [:: b; gn self] ;;                 (* b/self.n *)
  alloc GmresRun [:: buffer_of (gA self); rhs; gM self].

(** [frame h h']: the buffers of [h] are in [h'], with their contents. *)
Definition frame (h h' : heap) : Prop :=
  take (size h) h' = h /\ (size h <= size h')%N.

(** A method that changes no buffer that existed when it was called. *)
Definition preserves {T} (m : St T) : Prop := forall h, frame h (m h).2.

(** [run h0 m Q]: started from a store that holds the buffers of [h0], the
    program [m] ends in such a store, with a result that satisfies [Q]. *)
Definition run T (h0 : heap) (m : St T) (Q : T -> Prop) : Prop :=
  forall h, frame h0 h -> frame h0 (m h).2 /\ Q (m h).1.

(** A sparse matrix in csc format. *)
Definition is_csc_matrix (A : pyobj) : bool :=
  if A is SpMatrixObj _ true _ then true else false.

End Programs.

End Store.

(** ** Statements

    The notions the properties below are stated with. *)

Section Statements.

Variable R : realFieldType.
Variable be : backend R.

Local Notation M := (M R).

(** [never e m]: the computation [m] does not end with the exception [e]. *)
Definition never (e : exn) T (m : M T) : Prop := outcome m <> Err e.

(** A backend that solves exactly, as an assertion on its solve method. *)
Definition solves n T (A : 'M[R]_n) (s : T)
    (solve : forall k, T -> 'M[R]_(n, k) -> M 'M[R]_(n, k)) : Prop :=
  forall k (b : 'M[R]_(n, k)),
    exists2 x, outcome (solve k s b) = Ok x & A *m x = b.

(** The first statement of [Solver.__init__]: the choice of the backend. *)
Definition Solver_backend n (A : matrix_like R n n) : M (lu_solver be n) :=
  match as_sparse_or_array A with
  | Sparse a => f <- _SparseSolver_init be a ;; ret (SparseSolver f)
  | Array a => f <- _DenseSolver_init be a ;; ret (DenseSolver be f)
  end.

(** Both ways of solving, over a backend chosen at construction. *)
Definition run_with n k T (init : M T)
    (solve : forall k, T -> 'M[R]_(n, k) -> M 'M[R]_(n, k))
    (b : 'M[R]_(n, k)) (build_inverse : bool) : M 'M[R]_(n, k) :=
  s <- init ;;
  inv <- (if build_inverse then X <- solve n s 1%:M ;; ret (Some X)
          else ret None) ;;
  match inv with
  | Some inverse => ret (inverse *m b)
  | None => solve k s b
  end.

(** The combined solution [xy] of the block system for the stacked
    right-hand side [c], as the specification describes it: the cached
    inverse of the augmented system applied to [c], or the factorization
    solved for it. *)
Definition PartitionedSolver_spec_combined n p (self : PartitionedSolver be n p)
    (c : narray R (n + p)) : M (narray R (n + p)) :=
  match PartitionedSolver_inverse self with
  | Some inverse => ret (NArray (trailing c) (inverse *m entries c))
  | None => lu_solver_solve_nd (PartitionedSolver_solver self) c
  end.

(** The entries of the right-hand side [b] that is meant: zeros when it is
    omitted. *)
Definition b_or_zeros p k (b : option 'M[R]_(p, k)) : 'M[R]_(p, k) :=
  if b is Some b then b else 0.

(** The recipe of [solve], written with the inverses of [A] and of the
    Schur complement [S = B^T A^-1 B]. *)
Definition schur_recipe n p k (A : 'M[R]_n) (B : 'M[R]_(n, p))
    (a : 'M[R]_(n, k)) (b : option 'M[R]_(p, k)) :
    'M[R]_(n, k) * 'M[R]_(p, k) :=
  let AiB := invmx A *m B in
  let S := B^T *m AiB in
  let Dta := invmx S *m (AiB^T *m a) in
  let x := invmx A *m a - AiB *m Dta in
  match b with
  | None => (x, Dta)
  | Some b =>
      let Eb := - (invmx S *m b) in
      (x + - (AiB *m Eb), Dta + Eb)
  end.

End Statements.

(** [diag(1, -1)], which has a negative eigenvalue. *)
Definition diag_1_m1 : 'M[rat]_(1 + 1) := block_mx 1%:M 0 0 (- 1%:M).

(** ** Arrays of three dimensions *)


(** ** A diagonal system *)

(** [diag(4, 16)] and the vector [(2, 4)]. *)
Definition diag_4_16 : 'M[rat]_2 :=
  \matrix_(i, j) (if i == j then (if (i : nat) == 0%N then 4%:R else 16%:R) else 0).

Definition col_2_4 : 'cV[rat]_2 :=
  \col_i (if (i : nat) == 0%N then 2%:R else 4%:R).

(** [diag(2, 4)], the Cholesky factor of [diag(4, 16)]. *)
Definition diag_2_4 : 'M[rat]_2 :=
  \matrix_(i, j) (if i == j then (if (i : nat) == 0%N then 2%:R else 4%:R) else 0).

(** ** A block system

    [A] the identity of order two and [B] the column [(1, 0)]: the block
    matrix [[A, B], [B^T, 0]] is invertible. *)
Definition block_A : matrix_like rat 2 2 := Array 1%:M.

Definition block_B : matrix_like rat 2 1 := Array (delta_mx 0 0).


(** ** The block system of the partitioned solvers *)

Section Block.

Variable R : realFieldType.
Variable be : backend R.

(** The matrix [[A, B], [B^T, 0]] handed to the LU backend by
    [PartitionedSolver.__init__]: [sp.bmat] for a sparse [A], [np.vstack]
    of two [np.hstack] for a dense one. *)
Definition augmented n p (A : matrix_like R n n) (B : matrix_like R n p) :
    matrix_like R (n + p) (n + p) :=
  match as_sparse_or_array A with
  | Sparse a => Sparse (bmat a (as_array B))
  | Array a => Array (block_mx a (as_array B) (as_array B)^T 0)
  end.

(** The blocks [C], [D], [D^T], [E] that
    [PartitionedPosDefSolver.__init__] stacks when [build_inverse] is set,
    written with the inverses of [A] and of [S = B^T A^-1 B]. *)
Definition schur_inverse n p (A : 'M[R]_n) (B : 'M[R]_(n, p)) : 'M[R]_(n + p) :=
  let AiB := invmx A *m B in
  let E := - invmx (B^T *m AiB) in
  let D := AiB *m (- E) in
  let C := invmx A - D *m AiB^T in
  block_mx C D D^T E.

End Block.

(** * rbf.gpr

    The module does not use [rbf.linalg]; it has its own exceptions and
    its own arrays.  It is modelled in a module of its own. *)

Module Gpr.

(** The exceptions met in the module.  Those raised by Python's built-in
    containers carry no message here. *)
Inductive exn : Type :=
| KeyError
| TypeError
| IndexError
| RecursionError
| ValueError of string
| LinAlgError of string.

Inductive res (T : Type) : Type :=
| Val of T
| Exc of exn.

Arguments Val {T} _.
Arguments Exc {T} _.

Definition bind {T U} (m : res T) (f : T -> res U) : res U :=
  match m with
  | Val x => f x
  | Exc e => Exc e
  end.

(** ** class _Memoize *)

Section Memoize.

(** The tuple of arguments of the memoized function, the tuple of byte
    strings that is its key, and the contents of an array. *)
Variable args : Type.
Variable bytes : eqType.
Variable V : Type.

(** [tuple(a.tobytes() for a in args)] *)
Variable tobytes : args -> bytes.

(** An array, with its [flags['WRITEABLE']]. *)
Record ndarray : Type := NdArray { contents : V; WRITEABLE : bool }.

(** Instances are objects of a store, and [links] holds references. *)
Definition loc : Type := nat.

(** [cache] lists the items from the oldest to the newest; it starts as
    an [OrderedDict], and [clear_cache] replaces it by a plain [dict].
    [fin] is taken to be a function of its arguments. *)
Record _Memoize : Type :=
  Mk_Memoize {
    cache : seq (bytes * ndarray);
    cache_is_OrderedDict : bool;
    links : seq loc;
    fin : args -> res ndarray;
    cache_size : int
  }.

Definition _Memoize_init (fin : args -> res ndarray) : _Memoize :=
  Mk_Memoize [::] true [::] fin 1000%:Z.

Definition set_cache (self : _Memoize) (c : seq (bytes * ndarray)) : _Memoize :=
  Mk_Memoize c (cache_is_OrderedDict self) (links self) (fin self)
             (cache_size self).

(** [key in self.cache] *)
Definition contains (c : seq (bytes * ndarray)) (key : bytes) : bool :=
  key \in [seq kv.1 | kv <- c].

(** [self.cache[key]] *)
Definition getitem (c : seq (bytes * ndarray)) (key : bytes) : res ndarray :=
  if [seq kv <- c | kv.1 == key] is kv :: _ then Val kv.2 else Exc KeyError.

(** [self.cache.popitem(0)]: [OrderedDict.popitem(last=0)] removes the
    oldest item and raises [KeyError] on an empty dictionary;
    [dict.popitem] takes no argument. *)
Definition popitem0 (ordered : bool) (c : seq (bytes * ndarray)) :
    res (seq (bytes * ndarray)) :=
  if ordered then
    if c is _ :: c' then Val c' else Exc KeyError
  else Exc TypeError.

(** [__call__]: the result and the instance after the call. *)
Definition __call__ (self : _Memoize) (a : args) : res ndarray * _Memoize :=
  let key := tobytes a in
  if ~~ contains (cache self) key then
    match fin self a with
    | Exc e => (Exc e, self)
    | Val output =>
        let output := NdArray (contents output) false in
        if (size (cache self))%:Z == cache_size self then
          match popitem0 (cache_is_OrderedDict self) (cache self) with
          | Exc e => (Exc e, self)
          | Val c' => (Val output, set_cache self c')
          end
        else
          let self := set_cache self (rcons (cache self) (key, output)) in
          (getitem (cache self) key, self)
    end
  else (getitem (cache self) key, self).

(** The loop of [set_cache_size]: one item is popped for each turn. *)
Fixpoint pop_while (ordered : bool) (c : seq (bytes * ndarray)) (sz : int) :
    res unit * seq (bytes * ndarray) :=
  match c with
  | [::] =>
      if sz < 0 then
        (if ordered then Exc KeyError else Exc TypeError, [::])
      else (Val tt, [::])
  | kv :: c' =>
      if sz < (size (kv :: c'))%:Z then
        if ordered then pop_while ordered c' sz
        else (Exc TypeError, kv :: c')
      else (Val tt, kv :: c')
  end.

Definition set_cache_size (self : _Memoize) (val : int) : res unit * _Memoize :=
  let: (r, c) := pop_while (cache_is_OrderedDict self) (cache self) val in
  (r, Mk_Memoize c (cache_is_OrderedDict self) (links self) (fin self) val).

(** What [link_functions] is handed: a memoized function, or an object
    without a [clear_cache] method. *)
Inductive pyobject : Type :=
| Memoized of loc
| Plain.

Definition link_functions (self : _Memoize) (objs : seq pyobject) : _Memoize :=
  Mk_Memoize (cache self) (cache_is_OrderedDict self)
             (links self ++ pmap (fun a => if a is Memoized l then Some l
                                           else None) objs)
             (fin self) (cache_size self).

(** The store of the instances. *)
Definition heap : Type := seq _Memoize.

Definition lookup (h : heap) (l : loc) : option _Memoize :=
  nth None [seq Some s | s <- h] l.

(** [self.cache = {}] *)
Definition cleared (self : _Memoize) : _Memoize :=
  Mk_Memoize [::] false (links self) (fin self) (cache_size self).

(** [clear_cache], with the depth of recursion that the interpreter
    allows: a cycle of links ends in [RecursionError]. *)
Fixpoint clear_cache (depth : nat) (h : heap) (self : loc) : res heap :=
  match depth with
  | 0 => Exc RecursionError
  | depth'.+1 =>
      match lookup h self with
      | None => Val h
      | Some s =>
          foldl (fun acc a => bind acc (fun h' => clear_cache depth' h' a))
                (Val (set_nth s h self (cleared s))) (links s)
      end
  end.

(** A run of calls, with the result of each. *)
Fixpoint call_all (self : _Memoize) (xs : seq args) :
    seq (res ndarray) * _Memoize :=
  match xs with
  | [::] => ([::], self)
  | x :: xs' =>
      let: (r, self) := __call__ self x in
      let: (rs, self) := call_all self xs' in
      (r :: rs, self)
  end.

(** What a caller gets from [fin] through the cache: the array, made
    read-only. *)
Definition read_only (r : res ndarray) : res ndarray :=
  match r with
  | Val v => Val (NdArray (contents v) false)
  | Exc e => Exc e
  end.

(** The cache holds no more than [cache_size] items. *)
Definition bounded (self : _Memoize) : Prop :=
  cache_is_OrderedDict self /\ (size (cache self))%:Z <= cache_size self.

(** A property of every item of the cache. *)
Fixpoint all_items (P : bytes * ndarray -> Prop) (c : seq (bytes * ndarray)) :
    Prop :=
  if c is kv :: c' then P kv /\ all_items P c' else True.

(** Every item of the cache is what [fin] returns for the arguments with
    that key, made read-only. *)
Definition sound (self : _Memoize) : Prop :=
  all_items (fun kv => forall a, tobytes a = kv.1 ->
                         read_only (fin self a) = Val kv.2)
            (cache self).

End Memoize.

Notation "x <~ m ;; k" := (bind m (fun x => k))
  (at level 100, m at next level, right associativity).

(** ** class GaussianProcess *)

Section Process.

Variable R : realFieldType.

(** [x]: an [(N, D)] array of positions. *)
Record points : Type :=
  Points { npts : nat; ndims : nat; coords : 'M[R]_(npts, ndims) }.

(** [diff]: a [(D,)] array of integers, the order of the derivative along
    each dimension. *)
Definition diffspec : Type := seq int.

(** The hidden functions: the mean at [N] positions is an [(N,)] array,
    the covariance between [N1] and [N2] positions an [(N1, N2)] array.
    They are given as functions of their arguments, before memoization;
    what [_Memoize] makes of such a function is the matter of the section
    above. *)
Definition mean_function : Type :=
  forall x : points, diffspec -> res 'cV[R]_(npts x).

Definition covariance_function : Type :=
  forall x1 x2 : points, diffspec -> diffspec -> res 'M[R]_(npts x1, npts x2).

Record GaussianProcess : Type :=
  MkGaussianProcess {
    _mean : mean_function;
    _covariance : covariance_function;
    order : int;
    dim : option nat
  }.

(** *** The factories *)

Definition _add_factory (gp1 gp2 : GaussianProcess) :
    mean_function * covariance_function :=
  (fun x diff =>
     m1 <~ _mean gp1 x diff ;; m2 <~ _mean gp2 x diff ;; Val (m1 + m2),
   fun x1 x2 diff1 diff2 =>
     c1 <~ _covariance gp1 x1 x2 diff1 diff2 ;;
     c2 <~ _covariance gp2 x1 x2 diff1 diff2 ;;
     Val (c1 + c2)).

Definition _subtract_factory (gp1 gp2 : GaussianProcess) :
    mean_function * covariance_function :=
  (fun x diff =>
     m1 <~ _mean gp1 x diff ;; m2 <~ _mean gp2 x diff ;; Val (m1 - m2),
   fun x1 x2 diff1 diff2 =>
     c1 <~ _covariance gp1 x1 x2 diff1 diff2 ;;
     c2 <~ _covariance gp2 x1 x2 diff1 diff2 ;;
     Val (c1 + c2)).

Definition _scale_factory (gp : GaussianProcess) (c : R) :
    mean_function * covariance_function :=
  (fun x diff => m <~ _mean gp x diff ;; Val (c *: m),
   fun x1 x2 diff1 diff2 =>
     cov <~ _covariance gp x1 x2 diff1 diff2 ;; Val (c ^+ 2 *: cov)).

(** [rbf.poly] is not among the sources: the number of monomials
    [rbf.poly.powers(order, D).shape[0]] and the matrix
    [_mvmonos(x, rbf.poly.powers(order, D), diff)] are parameters.  So is
    [np.linalg.inv], which gives [None] when it raises [LinAlgError]. *)
Variable nmonos : int -> nat -> nat.
Variable _mvmonos :
  forall (order : int) (D : nat) (x : points),
    diffspec -> res 'M[R]_(npts x, nmonos order D).
Variable np_linalg_inv : forall n, 'M[R]_n -> option 'M[R]_n.

Definition _condition_factory (gp : GaussianProcess) (y : points)
    (d sigma : 'cV[R]_(npts y)) (obs_diff : diffspec) :
    res (mean_function * covariance_function) :=
  let D := ndims y in
  let Cd : 'M[R]_(npts y) := diag_mx (\row_i (sigma i 0) ^+ 2) in
  Cu_yy <~ _covariance gp y y obs_diff obs_diff ;;
  p_y <~ _mvmonos (order gp) D y obs_diff ;;
  let K_y := block_mx (Cu_yy + Cd) p_y p_y^T 0 in
  K_y_inv <~ (if np_linalg_inv K_y is Some K_y_inv then Val K_y_inv
              else Exc (LinAlgError "Failed to compute the inverse of K. This is likely because there is not enough data to constrain a null space in the prior")) ;;
  m_y <~ _mean gp y obs_diff ;;
  let r : 'cV[R]_(npts y + nmonos (order gp) D) := col_mx (d - m_y) 0 in
  Val (fun x diff =>
         Cu_xy <~ _covariance gp x y diff obs_diff ;;
         p_x <~ _mvmonos (order gp) D x diff ;;
         let k_xy := row_mx Cu_xy p_x in
         m_x <~ _mean gp x diff ;;
         Val (m_x + k_xy *m (K_y_inv *m r)),
       fun x1 x2 diff1 diff2 =>
         Cu_x1x2 <~ _covariance gp x1 x2 diff1 diff2 ;;
         Cu_x1y <~ _covariance gp x1 y diff1 obs_diff ;;
         Cu_x2y <~ _covariance gp x2 y diff2 obs_diff ;;
         p_x1 <~ _mvmonos (order gp) D x1 diff1 ;;
         p_x2 <~ _mvmonos (order gp) D x2 diff2 ;;
         let k_x1y := row_mx Cu_x1y p_x1 in
         let k_x2y := row_mx Cu_x2y p_x2 in
         Val (Cu_x1x2 - k_x1y *m K_y_inv *m k_x2y^T)).

Arguments _condition_factory : clear implicits.

(** *** The methods *)

(** [(self.dim is not None) & (other.dim is not None)] and
    [self.dim != other.dim] *)
Definition dims_conflict (d1 d2 : option nat) : bool :=
  match d1, d2 with
  | Some a, Some b => a != b
  | _, _ => false
  end.

Definition add (self other : GaussianProcess) : res GaussianProcess :=
  if dims_conflict (dim self) (dim other) then
    Exc (ValueError "The number of spatial dimensions for the GaussianProcesses are inconsistent")
  else
    let: (mean, covariance) := _add_factory self other in
    Val (MkGaussianProcess mean covariance
           (Num.max (order self) (order other)) None).

Definition subtract (self other : GaussianProcess) : res GaussianProcess :=
  if dims_conflict (dim self) (dim other) then
    Exc (ValueError "The number of spatial dimensions for the GaussianProcesses are inconsistent")
  else
    let: (mean, covariance) := _subtract_factory self other in
    Val (MkGaussianProcess mean covariance
           (Num.max (order self) (order other)) None).

Definition scale (self : GaussianProcess) (c : R) : GaussianProcess :=
  let: (mean, covariance) := _scale_factory self c in
  MkGaussianProcess mean covariance (if c != 0 then order self else - 1) None.

Definition condition (self : GaussianProcess) (y : points)
    (d : 'cV[R]_(npts y)) (sigma : option 'cV[R]_(npts y))
    (obs_diff : option diffspec) : res GaussianProcess :=
  let D := ndims y in
  if dims_conflict (dim self) (Some D) then
    Exc (ValueError "The number of spatial dimensions for *y* is inconsistent with the GaussianProcess.")
  else
    obs_diff <~ match obs_diff with
                | None => Val (nseq D 0)
                | Some obs_diff =>
                    if size obs_diff != D then
                      Exc (ValueError "The number of spatial dimensions for *obs_diff* is inconsistent with *y*")
                    else Val obs_diff
                end ;;
    let sigma := if sigma is Some sigma then sigma else 0 in
    mc <~ _condition_factory self y d sigma obs_diff ;;
    Val (MkGaussianProcess mc.1 mc.2 (- 1) (Some D)).

Arguments condition : clear implicits.

(** [np.zeros(x.shape[1], dtype=int)] when [diff] is omitted. *)
Definition diff_or_zeros (x : points) (diff : option diffspec) : diffspec :=
  if diff is Some diff then diff else nseq (ndims x) 0.

Definition mean (self : GaussianProcess) (x : points)
    (diff : option diffspec) : res 'cV[R]_(npts x) :=
  let diff := diff_or_zeros x diff in
  if dims_conflict (dim self) (Some (ndims x)) then
    Exc (ValueError "The number of spatial dimensions for *x* is inconsistent with the GaussianProcess.")
  else if dims_conflict (dim self) (Some (size diff)) then
    Exc (ValueError "The number of spatial dimensions for *diff* is inconsistent with the GaussianProcess.")
  else
    out <~ _mean self x diff ;; Val out.           (* a writeable copy *)

Definition covariance (self : GaussianProcess) (x1 x2 : points)
    (diff1 diff2 : option diffspec) : res 'M[R]_(npts x1, npts x2) :=
  let diff1 := diff_or_zeros x1 diff1 in
  let diff2 := diff_or_zeros x2 diff2 in
  if dims_conflict (dim self) (Some (ndims x1)) then
    Exc (ValueError "The number of spatial dimensions for *x1* is inconsistent with the GaussianProcess.")
  else if dims_conflict (dim self) (Some (ndims x2)) then
    Exc (ValueError "The number of spatial dimensions for *x2* is inconsistent with the GaussianProcess.")
  else if dims_conflict (dim self) (Some (size diff1)) then
    Exc (ValueError "The number of spatial dimensions for *diff1* is inconsistent with the GaussianProcess.")
  else if dims_conflict (dim self) (Some (size diff2)) then
    Exc (ValueError "The number of spatial dimensions for *diff2* is inconsistent with the GaussianProcess.")
  else
    out <~ _covariance self x1 x2 diff1 diff2 ;; Val out.

(** *** mean_and_uncertainty *)

Variable np_sqrt : R -> R.

(** [range(lo, hi)], a list. *)
Definition range (lo : nat) (hi : int) : seq nat :=
  if hi is Posz hi then iota lo (hi - lo) else [::].

(** [x[idx]] for a list of row numbers: a number that is not a row of [x]
    raises [IndexError]; otherwise the rows are taken in the order of the
    list. *)
Definition check_rows (x : points) (idx : seq nat) : res unit :=
  if all (fun i => i < npts x)%N idx then Val tt else Exc IndexError.

Definition getrows (x : points) (idx : seq nat) : points :=
  @Points (size idx) (ndims x)
    (\matrix_(i, j) (if insub (nth 0%N idx i) is Some k
                     then coords x k j else 0)).

(** The entries of an array of one dimension, in order. *)
Definition tolist n (v : 'cV[R]_n) : seq R := [seq v i 0 | i <- enum 'I_n].

(** [out[idx] = vals] on an array of one dimension: the entries of [vals]
    go, in order, to the places that [idx] lists. *)
Definition setitems (out : seq R) (idx : seq nat) (vals : 'cV[R]_(size idx)) :
    seq R :=
  foldl (fun out iv => set_nth 0 out iv.1 iv.2) out (zip idx (tolist vals)).

Arguments setitems : clear implicits.

(** [idx[-1]] *)
Definition last_index (idx : seq nat) : res nat :=
  if idx is i :: idx' then Val (last i idx') else Exc IndexError.

(** The [while] loop.  A turn that does not raise moves [count] forward,
    so the loop takes at most [q - count] turns; [turns] bounds them. *)
Fixpoint mean_and_uncertainty_loop (turns : nat) (self : GaussianProcess)
    (x : points) (max_chunk : int) (count : nat) (out_mean out_sigma : seq R) :
    res (seq R * seq R) :=
  let q := npts x in
  if (count < q)%N then
    match turns with
    | 0 => Exc RecursionError
    | turns'.+1 =>
        let idx := range count (Num.min (count%:Z + max_chunk) q%:Z) in
        _ <~ check_rows x idx ;;
        let xs := getrows x idx in
        m <~ mean self xs None ;;
        let out_mean := setitems out_mean idx m in
        cov <~ covariance self xs xs None None ;;
        let out_sigma := setitems out_sigma idx (\col_i np_sqrt (cov i i)) in
        count <~ last_index idx ;;
        mean_and_uncertainty_loop turns' self x max_chunk count.+1
                                  out_mean out_sigma
    end
  else Val (out_mean, out_sigma).

Definition mean_and_uncertainty (self : GaussianProcess) (x : points)
    (max_chunk : int) : res (seq R * seq R) :=
  let q := npts x in
  mean_and_uncertainty_loop q self x max_chunk 0 (nseq q 0) (nseq q 0).

(** [__call__], [__add__], [__sub__], [__mul__] and [__rmul__]. *)
Definition GaussianProcess_call := mean_and_uncertainty.
Definition __add__ := add.
Definition __sub__ := subtract.
Definition __mul__ := scale.
Definition __rmul__ := __mul__.

(** *** Statements *)

(** Two processes with the same order, the same [dim] and the same hidden
    functions. *)
Definition same_process (g g' : GaussianProcess) : Prop :=
  [/\ order g = order g', dim g = dim g',
      forall x diff, _mean g x diff = _mean g' x diff
    & forall x1 x2 diff1 diff2,
        _covariance g x1 x2 diff1 diff2 = _covariance g' x1 x2 diff1 diff2].

End Process.

Arguments _condition_factory {R nmonos} _mvmonos np_linalg_inv gp y d sigma
  obs_diff.
Arguments condition {R nmonos} _mvmonos np_linalg_inv self y d sigma obs_diff.
Arguments setitems {R} out idx vals.

End Gpr.

(** A memoized function on numbers, for the examples: the key is the
    number, or one key for all numbers. *)
Definition example_fin (n : nat) : Gpr.res (Gpr.ndarray nat) :=
  Gpr.Val (Gpr.NdArray n true).

Definition example_memoize (cache_size : int) : Gpr._Memoize nat nat nat :=
  Gpr.Mk_Memoize [::] true [::] example_fin cache_size.

(** The store with one memoized function, linked to itself. *)
Definition example_self_linked : Gpr.heap nat nat nat :=
  [:: Gpr.link_functions (example_memoize 1000) [:: Gpr.Memoized 0%N; Gpr.Plain]].

(** A process over the rationals, for the examples: a constant mean [b],
    and for the covariance between the [i]-th of the first positions and the
    [j]-th of the second ones, [1] when [i = j] and [0] otherwise.  There
    are no monomials, and [np.linalg.inv] inverts exactly. *)
Definition example_gp (b : rat) (dim : option nat) : Gpr.GaussianProcess rat :=
  Gpr.MkGaussianProcess
    (fun x diff => Gpr.Val (const_mx b))
    (fun x1 x2 diff1 diff2 =>
       Gpr.Val (\matrix_(i, j) ((i : nat) == (j : nat))%:R))
    (- 1) dim.

Definition example_nmonos (order : int) (D : nat) : nat := 0.

Definition example_mvmonos (order : int) (D : nat) (x : Gpr.points rat)
    (diff : Gpr.diffspec) :
    Gpr.res 'M[rat]_(Gpr.npts x, example_nmonos order D) :=
  Gpr.Val 0.

Definition example_inv n (A : 'M[rat]_n) : option 'M[rat]_n :=
  if A \in unitmx then Some (invmx A) else None.

(** One position and two positions on the line, at the origin. *)
Definition example_point : Gpr.points rat := @Gpr.Points rat 1 1 0.

Definition example_points : Gpr.points rat := @Gpr.Points rat 2 1 0.
(** * Properties *)

(** ** The monad *)

Section MonadLemmas.

Variable R : Type.
Local Notation M := (M R).

Lemma bind_ret_l T U (x : T) (f : T -> M U) : bind (ret x) f = f x.
Proof. by rewrite /bind /ret; case: (f x). Qed.

Lemma bind_raise T U (e : exn) (f : T -> M U) : bind (raise e) f = raise e.
Proof. by []. Qed.

Lemma bind_assoc T U V (m : M T) (f : T -> M U) (g : U -> M V) :
  bind (bind m f) g = bind m (fun x => bind (f x) g).
Proof.
case: m => t [x|e] //=.
case: (f x) => t1 [y|e] //=.
by case: (g y) => t2 r; rewrite catA.
Qed.

Lemma bind_ext T U (m : M T) (f g : T -> M U) :
  (forall x, f x = g x) -> bind m f = bind m g.
Proof. by case: m => t [x|e] //= ->. Qed.

Lemma trace_bind_ok T U (m : M T) (f : T -> M U) x :
  outcome m = Ok x -> trace (bind m f) = trace m ++ trace (f x).
Proof. by case: m => t r /= ->; case: (f x). Qed.

Lemma outcome_bind_ok T U (m : M T) (f : T -> M U) x :
  outcome m = Ok x -> outcome (bind m f) = outcome (f x).
Proof. by case: m => t r /= ->; case: (f x). Qed.

Lemma outcome_bind_err T U (m : M T) (f : T -> M U) e :
  outcome m = Err e -> outcome (bind m f) = Err e.
Proof. by case: m => t r /= ->. Qed.

Lemma bind_err T U (m : M T) (f : T -> M U) e :
  outcome m = Err e -> bind m f = (trace m, Err e).
Proof. by case: m => t r /= ->. Qed.

(** An exception of [bind m f] comes from [m] or from [f]. *)
Lemma outcome_bind_inv T U (m : M T) (f : T -> M U) e :
  outcome (bind m f) = Err e ->
  outcome m = Err e \/ exists2 x, outcome m = Ok x & outcome (f x) = Err e.
Proof.
rewrite /outcome; case: m => t [x|e'] /=; last by case=> ->; left.
case E: (f x) => [t' r] /= Hr; right.
by exists x => //; rewrite E.
Qed.

(** A value of [bind m f] comes from a value of [m]. *)
Lemma outcome_bind_ok_inv T U (m : M T) (f : T -> M U) y :
  outcome (bind m f) = Ok y ->
  exists2 x, outcome m = Ok x & outcome (f x) = Ok y.
Proof.
rewrite /outcome; case: m => t [x|e] //=.
by case E: (f x) => [t' r] /= Hr; exists x; rewrite ?E.
Qed.

Lemma calls_bind_ok T U (m : M T) (f : T -> M U) x :
  outcome m = Ok x -> calls (bind m f) = calls m ++ calls (f x).
Proof. by move=> Hm; rewrite /calls (trace_bind_ok f Hm) filter_cat. Qed.

Lemma ohead_trace_bind T U (m : M T) (f : T -> M U) ev :
  ohead (trace m) = Some ev -> ohead (trace (bind m f)) = Some ev.
Proof. by case: m => [[|e t] [x|err]] //=; case: (f x). Qed.

End MonadLemmas.
(** ** Arrays of one shape *)

Section NumpyLemmas.

Variable R : realFieldType.

Local Notation M := (M R).

Lemma mx_nth_ord m n (A : 'M[R]_(m, n)) (i : 'I_m) (j : 'I_n) :
  mx_nth A i j = A i j.
Proof.
rewrite /mx_nth; case: insubP => [i' _ /val_inj ->|]; last by rewrite ltn_ord.
by case: insubP => [j' _ /val_inj ->|]; last by rewrite ltn_ord.
Qed.

Lemma recast_id m n (A : 'M[R]_(m, n)) : recast m n A = A.
Proof. by apply/matrixP => i j; rewrite mxE mx_nth_ord. Qed.

(** For a right-hand side of one or two dimensions, [dot] is the product
    of matrices. *)
Lemma dot_matrix m c (A : 'M[R]_(m, c)) tr (b : 'M[R]_(c, size_of tr)) :
  (size tr <= 1)%N -> dot A (NArray tr b) = ret (NArray tr (A *m b)).
Proof. by rewrite /dot /= => ->. Qed.

Lemma np_add_same n tr (x y : 'M[R]_(n, size_of tr)) :
  np_add (NArray tr x) (NArray tr y) = ret (NArray tr (x + y)).
Proof.
rewrite /np_add /elementwise /= eqxx; congr (ret (NArray _ _)).
by apply/matrixP => i j; rewrite !mxE mx_nth_ord.
Qed.

Lemma np_subtract_same n tr (x y : 'M[R]_(n, size_of tr)) :
  np_subtract (NArray tr x) (NArray tr y) = ret (NArray tr (x - y)).
Proof.
rewrite /np_subtract /elementwise /= eqxx; congr (ret (NArray _ _)).
by apply/matrixP => i j; rewrite !mxE mx_nth_ord.
Qed.

Lemma np_iadd_same n tr (x y : 'M[R]_(n, size_of tr)) :
  np_iadd (NArray tr x) (NArray tr y) = ret (NArray tr (x + y)).
Proof. by rewrite /np_iadd np_add_same bind_ret_l /= eqxx. Qed.

Lemma concatenate_same n p tr (a : 'M[R]_(n, size_of tr))
    (b : 'M[R]_(p, size_of tr)) :
  concatenate (NArray tr a) (NArray tr b) = ret (NArray tr (col_mx a b)).
Proof. by rewrite /concatenate /= eqxx recast_id. Qed.

(** An array has an axis of length zero when it has no entry. *)
Lemma size_of_eq0 tr : (size_of tr == 0)%N = (0%N \in tr).
Proof.
elim: tr => [|k [|k' tr] IH] //; first by rewrite mem_seq1 eq_sym.
by rewrite [size_of _]/= muln_eq0 IH [in RHS]in_cons [0%N == k]eq_sym.
Qed.

(** The LAPACK wrappers take every right-hand side of one or two
    dimensions, and are not reached by one with an axis of length zero. *)
Lemma wrapper_refuses_low n tr : (size tr <= 1)%N -> wrapper_refuses n tr = false.
Proof. by rewrite /wrapper_refuses ltnNge => ->. Qed.

Lemma wrapper_refuses_empty n tr :
  (n == 0%N) || (0%N \in tr) -> wrapper_refuses n tr = false.
Proof.
rewrite /wrapper_refuses; case/orP=> [/eqP ->|->]; first by rewrite andbF.
by rewrite !andbF.
Qed.


End NumpyLemmas.


Section ExactLemmas.

Variable R : realFieldType.

(** A positive definite matrix is invertible and has a positive diagonal. *)
Lemma posdef_unitmx n (A : 'M[R]_n) : posdef A -> A \in unitmx.
Proof.
case=> _ Hpos; rewrite -row_free_unit -kermx_eq0.
apply/negPn/negP => /rowV0Pn [v /sub_kermxP Hv nz_v].
have nz_vT : v^T != 0 by rewrite trmx_eq0.
by have := Hpos _ nz_vT; rewrite trmxK Hv mul0mx mxE ltxx.
Qed.

Lemma posdef_diag n (A : 'M[R]_n) i : posdef A -> 0 < A i i.
Proof.
case=> _ /(_ (delta_mx i 0)).
have nz : delta_mx i 0 != 0 :> 'cV[R]_n.
  by apply/eqP => /matrixP /(_ i 0); rewrite !mxE !eqxx => /eqP; rewrite oner_eq0.
by move=> /(_ nz); rewrite trmx_delta -rowE -colE !mxE.
Qed.

(** The solution of an invertible system is unique. *)
Lemma solve_unique n k (A X : 'M[R]_n) (x b : 'M[R]_(n, k)) :
  A *m X = 1%:M -> A *m x = b -> X *m b = x.
Proof.
by move=> /mulmx1C AX <-; rewrite mulmxA AX mul1mx.
Qed.

End ExactLemmas.

(** The reference backend computes in exact arithmetic. *)

Lemma ref_chol_info_posdef n (A : 'M[rat]_n) :
  posdef A -> ref_chol_info A = 0.
Proof.
move=> pdA; rewrite /ref_chol_info (posdef_unitmx pdA) /=.
by have -> : [forall i, 0 < A i i] by apply/forallP => i; apply: posdef_diag.
Qed.

Lemma ref_backend_exact : exact_arithmetic ref_backend.
Proof.
split.
- move=> n A unitA /=; rewrite /ref_lu_info unitA; split=> // k b.
  by rewrite /= mulKVmx.
- move=> n A pdA /=; rewrite ref_chol_info_posdef //; split=> // k b.
  by rewrite /= mulKVmx // posdef_unitmx.
- move=> n A unitA /=; rewrite unitA; exists (toarray A) => // k b.
  by exists (invmx (toarray A) *m b); rewrite // mulKVmx.
- move=> n A pdA /=; rewrite ref_chol_info_posdef //=.
  exists (toarray A) => // k b.
  by exists (invmx (toarray A) *m b); rewrite // mulKVmx // posdef_unitmx.
Qed.

(** The identity matrix is positive definite. *)
Lemma posdef1 (F : realFieldType) n : posdef (1%:M : 'M[F]_n).
Proof.
split=> [|x nz_x]; first by rewrite tr_scalar_mx.
rewrite mulmx1 mxE lt0r; apply/andP; split; last first.
  by apply: sumr_ge0 => j _; rewrite mxE -expr2 sqr_ge0.
apply: contraNneq nz_x => /eqP; rewrite psumr_eq0.
  by move=> j _; rewrite mxE -expr2 sqr_ge0.
move=> /allP H; apply/eqP/matrixP => j i; rewrite ord1 [RHS]mxE.
have := H j; rewrite mem_index_enum mxE -expr2 sqrf_eq0 => /(_ isT).
by move/implyP/(_ isT)/eqP.
Qed.

(** ** The shape check of the partitioned solvers *)

Section ShapeCheck.

Variable R : realFieldType.
Variable be : backend R.
Variable HAS_CHOLMOD : bool.

Local Notation M := (M R).

Lemma never_bind e T U (m : M T) (f : T -> M U) :
  never e m -> (forall x, never e (f x)) -> never e (bind m f).
Proof.
move=> Hm Hf /outcome_bind_inv [H|[x _ H]]; first exact: Hm.
exact: (Hf x).
Qed.

Lemma never_ret e T (x : T) : never e (ret x : M T).
Proof. by []. Qed.

Lemma never_raise e e' T : e' <> e -> never e (raise e' : M T).
Proof. by move=> He [H]; apply: He. Qed.

Lemma never_call e T c (r : lib_exn + T) :
  (forall l, e <> LibError l) -> never e (call c r : M T).
Proof. by case: r => [l|x] He //= [H]; apply: (He l). Qed.

Lemma never_lapack e T c (r : T) : never e (lapack c r : M T).
Proof. by []. Qed.

Lemma never_emit e (ev : event R) : never e (emit ev).
Proof. by []. Qed.

Local Notation block_error := (LinAlgError BLOCK_MSG).

Local Ltac never_step :=
  repeat first
    [ exact: never_ret | exact: never_lapack | exact: never_emit
    | by apply: never_call
    | by apply: never_raise
    | apply: never_bind => [|?] ].

Lemma _lu_never_block n (A : 'M[R]_n) : never block_error (_lu be A).
Proof.
rewrite /_lu; case: ifP => _; first exact: never_ret.
apply: never_bind => [|[[fac piv] info]]; first exact: never_lapack.
by do 2![case: ifP => _; first exact: never_raise]; exact: never_ret.
Qed.

Lemma _cholesky_never_block n (A : 'M[R]_n) lower :
  never block_error (_cholesky be A lower).
Proof.
rewrite /_cholesky; case: ifP => _; first exact: never_ret.
apply: never_bind => [|[L info]]; first exact: never_lapack.
by do 2![case: ifP => _; first exact: never_raise]; exact: never_ret.
Qed.

Lemma _solve_lu_never_block n k fac piv (b : 'M[R]_(n, k)) :
  never block_error (_solve_lu be fac piv b).
Proof.
rewrite /_solve_lu; case: ifP => _; first exact: never_ret.
apply: never_bind => [|[x info]]; first exact: never_lapack.
by case: ifP => _; [exact: never_raise | exact: never_ret].
Qed.

Lemma _solve_cholesky_never_block n k L (b : 'M[R]_(n, k)) lower :
  never block_error (_solve_cholesky be L b lower).
Proof.
rewrite /_solve_cholesky; case: ifP => _; first exact: never_ret.
apply: never_bind => [|[x info]]; first exact: never_lapack.
by case: ifP => _; [exact: never_raise | exact: never_ret].
Qed.

Lemma percent_nonzeros_never_block m n (A : spmatrix R m n) :
  never block_error (percent_nonzeros A).
Proof.
by rewrite /percent_nonzeros; case: ifP => _;
  [exact: never_raise | exact: never_ret].
Qed.

Lemma _SparseSolver_init_never_block n (A : spmatrix R n n) :
  never block_error (_SparseSolver_init be A).
Proof.
apply: never_bind => [|pct]; first exact: percent_nonzeros_never_block.
by never_step.
Qed.

Lemma lu_solver_solve_never_block n k (s : lu_solver be n) (b : 'M[R]_(n, k)) :
  never block_error (lu_solver_solve s b).
Proof.
case: s => [f|f] /=; first exact: never_call.
exact: _solve_lu_never_block.
Qed.

Lemma chol_solver_init_never_block n (A : matrix_like R n n) :
  never block_error (chol_solver_init be HAS_CHOLMOD A).
Proof.
case: A => [a|a]; rewrite /chol_solver_init.
  by apply: never_bind => [|c]; [exact: _cholesky_never_block | exact: never_ret].
case: HAS_CHOLMOD; cbn [negb].
  apply: never_bind => [|f]; last exact: never_ret.
  apply: never_bind => [|pct]; first exact: percent_nonzeros_never_block.
  by never_step.
apply: never_bind => [|_]; first exact: never_emit.
by apply: never_bind => [|c]; [exact: _cholesky_never_block | exact: never_ret].
Qed.

Lemma chol_solver_solve_never_block n k (s : chol_solver be n)
    (b : 'M[R]_(n, k)) :
  never block_error (chol_solver_solve s b).
Proof.
case: s => [f|c] /=; first exact: never_call.
exact: _solve_cholesky_never_block.
Qed.

Lemma PartitionedSolver_init_proceeds n p (A : matrix_like R n n)
    (B : matrix_like R n p) build_inverse :
  (p <= n)%N -> never block_error (PartitionedSolver_init be A B build_inverse).
Proof.
rewrite /PartitionedSolver_init ltnNge => -> /=.
apply: never_bind => [|s].
  case: A => [a|a] /=.
    by apply: never_bind => [|f]; [exact: _lu_never_block | exact: never_ret].
  by apply: never_bind => [|f];
    [exact: _SparseSolver_init_never_block | exact: never_ret].
apply: never_bind => [|inv]; last exact: never_ret.
case: build_inverse; last exact: never_ret.
by apply: never_bind => [|X];
  [exact: lu_solver_solve_never_block | exact: never_ret].
Qed.

Lemma PartitionedPosDefSolver_init_proceeds n p (A : matrix_like R n n)
    (B : matrix_like R n p) build_inverse :
  (p <= n)%N ->
  never block_error (PartitionedPosDefSolver_init be HAS_CHOLMOD A B build_inverse).
Proof.
rewrite /PartitionedPosDefSolver_init ltnNge => -> /=.
apply: never_bind => [|s].
  by case: A => [a|a]; exact: chol_solver_init_never_block.
apply: never_bind => [|AiB]; first exact: chol_solver_solve_never_block.
apply: never_bind => [|S]; first exact: _cholesky_never_block.
apply: never_bind => [|inv]; last exact: never_ret.
case: build_inverse; last exact: never_ret.
apply: never_bind => [|SiI]; first exact: _solve_cholesky_never_block.
by apply: never_bind => [|AiI];
  [exact: chol_solver_solve_never_block | exact: never_ret].
Qed.

(** C3. The partitioned solvers refuse an off-diagonal block with more
    columns than rows, and nothing else: construction ends with the error
    of the singular block matrix exactly when [n < p]; it then has called
    no library; and with [p <= n] and a dense [A] of positive size it goes
    on to the factorization, whose LAPACK call is the first event. *)
Theorem partitioned_shape_check n p (A : matrix_like R n n)
    (B : matrix_like R n p) (build_inverse : bool) :
  let PS := PartitionedSolver_init be A B build_inverse in
  let PPDS := PartitionedPosDefSolver_init be HAS_CHOLMOD A B build_inverse in
  [/\ outcome PS = Err block_error <-> (n < p)%N,
      outcome PPDS = Err block_error <-> (n < p)%N,
      (n < p)%N -> trace PS = [::] /\ trace PPDS = [::]
    & (p <= n)%N -> (0 < n)%N -> ~~ issparse A ->
      ohead (trace PS) = Some (Call Dgetrf) /\
      ohead (trace PPDS) = Some (Call Dpotrf)].
Proof.
cbv zeta; split.
- split=> [H|]; last by rewrite /PartitionedSolver_init => ->.
  rewrite ltnNge; apply/negP => le_pn.
  exact: (PartitionedSolver_init_proceeds le_pn H).
- split=> [H|]; last by rewrite /PartitionedPosDefSolver_init => ->.
  rewrite ltnNge; apply/negP => le_pn.
  exact: (PartitionedPosDefSolver_init_proceeds le_pn H).
- by rewrite /PartitionedSolver_init /PartitionedPosDefSolver_init => ->.
- rewrite /PartitionedSolver_init /PartitionedPosDefSolver_init.
  move=> le_pn n_gt0; rewrite [(n < p)%N]ltnNge le_pn /=.
  case: A => [a|a] //= _.
  have np_gt0 : (n + p == 0)%N = false by rewrite addn_eq0; case: (n) n_gt0.
  have n_neq0 : (n == 0)%N = false by case: (n) n_gt0.
  split; do 2![apply: ohead_trace_bind].
    by rewrite /_DenseSolver_init /_lu np_gt0; apply: ohead_trace_bind.
  by rewrite /_DensePosDefSolver_init /_cholesky n_neq0; apply: ohead_trace_bind.
Qed.

End ShapeCheck.

(** ** Cached inverse against cached factorization *)

Section BuildInverse.

Variable R : realFieldType.
Variable be : backend R.
Variable HAS_CHOLMOD : bool.

Local Notation M := (M R).

Hypothesis exact : exact_arithmetic be.

Lemma _DenseSolver_exact n (A : 'M[R]_n) :
  A \in unitmx ->
  exists2 f, outcome (_DenseSolver_init be A) = Ok f
           & solves A f (fun k => @_DenseSolver_solve R be n k).
Proof.
case: n A => [|n] A unitA.
  exists (0, [::]) => // k b; exists 0 => //.
  by rewrite mulmx0 [b]flatmx0.
have [info0 Hsolve] := exact_lu exact unitA.
exists ((dgetrf be A).1.1, (dgetrf be A).1.2).
  rewrite /_DenseSolver_init /_lu /lapack /bind /=.
  by case: (dgetrf be A) info0 => [[fac piv] info] /= ->.
case=> [|k] b; first by exists 0; rewrite // mulmx0 [b]thinmx0.
have [info0' Hx] := Hsolve _ b.
exists (dgetrs be (dgetrf be A).1.1 (dgetrf be A).1.2 b).1 => //.
rewrite /_DenseSolver_solve /_solve_lu /lapack /bind /=.
by case: (dgetrs _ _ _ _) info0' => [x info] /= ->.
Qed.

Lemma _SparseSolver_exact n (A : spmatrix R n n) :
  toarray A \in unitmx -> (0 < n)%N ->
  exists2 f, outcome (_SparseSolver_init be A) = Ok f
           & solves (toarray A) f (fun k => @_SparseSolver_solve R be n k).
Proof.
case: n A => [|n] A // unitA _; have [f Hf Hsolve] := exact_superlu exact unitA.
exists f; first by rewrite /_SparseSolver_init /percent_nonzeros /= Hf.
move=> k b; have [x Hx Ax] := Hsolve _ b; exists x => //.
by rewrite /_SparseSolver_solve Hx.
Qed.

Lemma _DensePosDefSolver_exact n (A : 'M[R]_n) :
  posdef A ->
  exists2 c, outcome (_DensePosDefSolver_init be A) = Ok c
           & solves A c (fun k => @_DensePosDefSolver_solve R be n k).
Proof.
case: n A => [|n] A pdA.
  exists 0 => // k b; exists 0 => //.
  by rewrite mulmx0 [b]flatmx0.
have [info0 Hsolve] := exact_cholesky exact pdA.
exists (dpotrf be A true).1.
  rewrite /_DensePosDefSolver_init /_cholesky /lapack /bind /=.
  by case: (dpotrf be A true) info0 => [L info] /= ->.
case=> [|k] b; first by exists 0; rewrite // mulmx0 [b]thinmx0.
have [info0' Hx] := Hsolve _ b.
exists (dpotrs be (dpotrf be A true).1 b true).1 => //.
rewrite /_DensePosDefSolver_solve /_solve_cholesky /lapack /bind /=.
by case: (dpotrs _ _ _ _) info0' => [x info] /= ->.
Qed.

Lemma _SparsePosDefSolver_exact n (A : spmatrix R n n) :
  posdef (toarray A) -> (0 < n)%N ->
  exists2 f, outcome (_SparsePosDefSolver_init be A) = Ok f
           & solves (toarray A) f (fun k => @_SparsePosDefSolver_solve R be n k).
Proof.
case: n A => [|n] A // pdA _; have [f Hf Hsolve] := exact_cholmod exact pdA.
exists (Mk_SparsePosDefSolver f (factor_D f) (factor_P f)).
  by rewrite /_SparsePosDefSolver_init /percent_nonzeros /= Hf.
move=> k b; have [x Hx Ax] := Hsolve _ b; exists x => //.
by rewrite /_SparsePosDefSolver_solve /= Hx.
Qed.

(** With a solver that solves exactly, the product by the inverse it
    built is the solution it computes. *)
Lemma cached_inverse_agrees n k T (A : 'M[R]_n) (s : T) solve
    (b : 'M[R]_(n, k)) :
  solves A s solve ->
  outcome (inv <- (X <- solve n s 1%:M ;; ret (Some X)) ;;
           match inv with
           | Some inverse => ret (inverse *m b)
           | None => solve k s b
           end)
  = outcome (solve k s b).
Proof.
move=> Hs; have [X HX AX] := Hs _ 1%:M; have [x Hx Ax] := Hs _ b.
rewrite bind_assoc (outcome_bind_ok _ HX) bind_ret_l Hx /=.
by rewrite (solve_unique AX Ax).
Qed.

Lemma percent_nonzeros_empty m n (A : spmatrix R m n) :
  (m * n == 0)%N -> percent_nonzeros A = raise ZeroDivisionError.
Proof. by rewrite /percent_nonzeros => ->. Qed.

Lemma _SparseSolver_init_empty n (A : spmatrix R n n) :
  n = 0%N -> _SparseSolver_init be A = raise ZeroDivisionError.
Proof.
by move=> n0; rewrite /_SparseSolver_init percent_nonzeros_empty // n0.
Qed.

Lemma _SparsePosDefSolver_init_empty n (A : spmatrix R n n) :
  n = 0%N -> _SparsePosDefSolver_init be A = raise ZeroDivisionError.
Proof.
by move=> n0; rewrite /_SparsePosDefSolver_init percent_nonzeros_empty // n0.
Qed.

Lemma Solver_backend_exact n (A : matrix_like R n n) :
  as_array A \in unitmx ->
  (exists e, outcome (Solver_backend be A) = Err e) \/
  (exists2 s, outcome (Solver_backend be A) = Ok s
            & solves (as_array A) s (@lu_solver_solve R be n)).
Proof.
case: A => [a|a] /= unitA; rewrite /Solver_backend /=.
  have [f Hf Hs] := _DenseSolver_exact unitA; right.
  by exists (DenseSolver be f); rewrite ?(outcome_bind_ok _ Hf).
case: (posnP n) => [n0|n_gt0].
  by left; exists ZeroDivisionError; rewrite _SparseSolver_init_empty.
have [f Hf Hs] := _SparseSolver_exact unitA n_gt0; right.
by exists (SparseSolver f); rewrite ?(outcome_bind_ok _ Hf).
Qed.

Lemma chol_solver_init_exact n (A : matrix_like R n n) :
  posdef (as_array A) ->
  (exists e, outcome (chol_solver_init be HAS_CHOLMOD A) = Err e) \/
  (exists2 s, outcome (chol_solver_init be HAS_CHOLMOD A) = Ok s
            & solves (as_array A) s (@chol_solver_solve R be n)).
Proof.
case: A => [a|a] /= pdA.
  have [c Hc Hs] := _DensePosDefSolver_exact pdA; right.
  by exists (DensePosDefSolver be c); rewrite ?(outcome_bind_ok _ Hc).
case: HAS_CHOLMOD; cbn [negb]; last first.
  have [c Hc Hs] := _DensePosDefSolver_exact pdA; right.
  exists (DensePosDefSolver be c) => //.
  by rewrite /warn /emit /bind /=; case: (_DensePosDefSolver_init _ _) Hc => t r /= ->.
case: (posnP n) => [n0|n_gt0].
  by left; exists ZeroDivisionError; rewrite _SparsePosDefSolver_init_empty.
have [f Hf Hs] := _SparsePosDefSolver_exact pdA n_gt0; right.
by exists (SparsePosDefSolver f); rewrite ?(outcome_bind_ok _ Hf).
Qed.

(** Construction of the LU backend succeeds, but for the empty sparse
    matrix. *)
Lemma Solver_backend_succeeds n (A : matrix_like R n n) :
  as_array A \in unitmx -> (0 < n)%N || ~~ issparse A ->
  exists2 s, outcome (Solver_backend be A) = Ok s
           & solves (as_array A) s (@lu_solver_solve R be n).
Proof.
move=> unitA ok; have [[e He]|//] := Solver_backend_exact unitA.
case: A unitA ok He => [a|a] /= unitA; rewrite /Solver_backend /=.
  by have [f Hf _] := _DenseSolver_exact unitA; rewrite (outcome_bind_ok _ Hf).
rewrite orbF => n_gt0.
by have [f Hf _] := _SparseSolver_exact unitA n_gt0; rewrite (outcome_bind_ok _ Hf).
Qed.

(** Construction of the Cholesky backend succeeds, but for the empty sparse
    matrix given to CHOLMOD. *)
Lemma chol_solver_init_succeeds n (A : matrix_like R n n) :
  posdef (as_array A) -> (0 < n)%N || ~~ (issparse A && HAS_CHOLMOD) ->
  exists2 s, outcome (chol_solver_init be HAS_CHOLMOD A) = Ok s
           & solves (as_array A) s (@chol_solver_solve R be n).
Proof.
move=> pdA ok; have [[e He]|//] := chol_solver_init_exact pdA.
case: A pdA ok He => [a|a] /= pdA.
  by have [c Hc _] := _DensePosDefSolver_exact pdA; rewrite (outcome_bind_ok _ Hc).
case: HAS_CHOLMOD; cbn [negb]; last first.
  have [c Hc _] := _DensePosDefSolver_exact pdA => _.
  by rewrite /warn /emit /bind /=; case: (_DensePosDefSolver_init _ _) Hc => t r /= ->.
rewrite orbF => n_gt0.
by have [f Hf _] := _SparsePosDefSolver_exact pdA n_gt0; rewrite (outcome_bind_ok _ Hf).
Qed.

(** On a right-hand side of one or two dimensions the backends work on
    its entries. *)
Lemma lu_solver_solve_ndE n (s : lu_solver be n) (b : narray R n) :
  (size (trailing b) <= 1)%N ->
  lu_solver_solve_nd s b
  = (x <- lu_solver_solve s (entries b) ;; ret (NArray (trailing b) x)).
Proof.
case: s => f le1 /=; first by rewrite /_SparseSolver_solve_nd le1.
by rewrite /_DenseSolver_solve_nd /_solve_lu_nd wrapper_refuses_low.
Qed.

Lemma chol_solver_solve_ndE n (s : chol_solver be n) (b : narray R n) :
  (size (trailing b) <= 1)%N ->
  chol_solver_solve_nd s b
  = (x <- chol_solver_solve s (entries b) ;; ret (NArray (trailing b) x)).
Proof.
case: s => f le1 /=; first by rewrite /_SparsePosDefSolver_solve_nd le1.
by rewrite /_DensePosDefSolver_solve_nd /_solve_cholesky_nd wrapper_refuses_low.
Qed.



Lemma run_agrees n k T (A : 'M[R]_n) (init : M T) solve (b : 'M[R]_(n, k)) :
  (exists e, outcome init = Err e) \/
  (exists2 s, outcome init = Ok s & solves A s solve) ->
  outcome (run_with init solve b true) = outcome (run_with init solve b false).
Proof.
rewrite /run_with; case=> [[e He]|[s Hs Hsolve]].
  by rewrite !(outcome_bind_err _ He).
rewrite !(outcome_bind_ok _ Hs) bind_ret_l.
by rewrite (cached_inverse_agrees _ Hsolve).
Qed.

Lemma run_solves n k T (A : 'M[R]_n) (init : M T) solve (b : 'M[R]_(n, k)) :
  (exists2 s, outcome init = Ok s & solves A s solve) ->
  exists2 x, outcome (run_with init solve b false) = Ok x & A *m x = b.
Proof.
rewrite /run_with => -[s Hs Hsolve].
by rewrite (outcome_bind_ok _ Hs) bind_ret_l; apply: Hsolve.
Qed.



End BuildInverse.


(** ** The cached inverse on arrays of three dimensions *)





(** ** PartitionedSolver.solve *)

Section PartitionedSolve.

Variable R : realFieldType.
Variable be : backend R.

Local Notation M := (M R).

Lemma PartitionedSolver_solveE n p (self : PartitionedSolver be n p)
    (a : array_like R n) (b : option (array_like R p)) tr
    (a0 : 'M[R]_(n, size_of tr)) (b0 : option 'M[R]_(p, size_of tr)) :
  as_narray a = NArray tr a0 -> omap (@as_narray R p) b = omap (NArray tr) b0 ->
  ~~ PartitionedSolver_inverse self || (size tr <= 1)%N ->
  PartitionedSolver_solve self a b =
  (xy <- PartitionedSolver_spec_combined self
           (NArray tr (col_mx a0 (b_or_zeros b0))) ;;
   ret (NArray (trailing xy) (usubmx (entries xy)),
        NArray (trailing xy) (dsubmx (entries xy)))).
Proof.
rewrite /PartitionedSolver_solve /PartitionedSolver_spec_combined => -> Hb.
case: (PartitionedSolver_inverse self) => [inverse|] /= le1.
  rewrite dot_matrix // bind_ret_l -[in RHS](hsubmxK inverse) mul_row_col.
  case: b b0 Hb => [b|] [b0|] //= => [[->]|_]; last by rewrite mulmx0 addr0.
  by rewrite dot_matrix // bind_ret_l np_iadd_same.
case: b b0 Hb => [b|] [b0|] //= => [[->]|_]; first by rewrite concatenate_same bind_ret_l.
by rewrite /np_zeros concatenate_same bind_ret_l.
Qed.


End PartitionedSolve.


(** ** Empty right-hand sides and empty systems *)

Section Empty.

Variable R : realFieldType.
Variable be : backend R.
Variable HAS_CHOLMOD : bool.

Local Notation M := (M R).

(** An array with an axis of length zero has no entries. *)
Lemma empty_mx n k (x : 'M[R]_(n, k)) : (n == 0%N) || (k == 0%N) -> x = 0.
Proof.
case: n x => [|n] x; first by rewrite [x]flatmx0.
by case: k x => [|k] x //; rewrite [x]thinmx0.
Qed.

(** What construction returns when the dense backend is chosen. *)
Lemma Solver_init_dense n (A : 'M[R]_n) bi s :
  outcome (Solver_init be (Array A) bi) = Ok s ->
  exists f inv, s = MkSolver (DenseSolver be f) inv.
Proof.
rewrite /Solver_init; cbv beta zeta iota delta [as_sparse_or_array].
move=> H; have [s1 H1 H2] := outcome_bind_ok_inv H.
have [f _ [Hf]] := outcome_bind_ok_inv H1.
have [inv _ [Hinv]] := outcome_bind_ok_inv H2.
by exists f, inv; rewrite -Hinv -Hf.
Qed.

Lemma PosDefSolver_init_dense n (A : matrix_like R n n) bi s :
  issparse A ==> ~~ HAS_CHOLMOD ->
  outcome (PosDefSolver_init be HAS_CHOLMOD A bi) = Ok s ->
  exists c inv, s = MkPosDefSolver (DensePosDefSolver be c) inv.
Proof.
move=> dense; rewrite /PosDefSolver_init => H.
have [s1 Hs1 H2] := outcome_bind_ok_inv H.
have [inv _ [<-]] := outcome_bind_ok_inv H2.
suff [c ->] : exists c, s1 = DensePosDefSolver be c by exists c, inv.
case: A dense Hs1 {H H2} => [a|a]; rewrite /chol_solver_init;
  cbv beta zeta iota delta [as_sparse_or_array issparse].
  by move=> _ H; have [c _ [<-]] := outcome_bind_ok_inv H; exists c.
rewrite implyTb => ->; cbn [negb] => H.
have [_ _ H1] := outcome_bind_ok_inv H.
by have [c _ [<-]] := outcome_bind_ok_inv H1; exists c.
Qed.

(** [any(i == 0 for i in b.shape)] *)
Lemma empty_narray n (b : narray R n) :
  (n == 0%N) || (0%N \in trailing b) = (n == 0%N) || (size_of (trailing b) == 0%N).
Proof. by rewrite size_of_eq0. Qed.

(** C8, as the code has it.  On the dense backends (a dense matrix, or a
    sparse one given to [PosDefSolver] when CHOLMOD is missing) a solve
    whose right-hand side, of shape [(n, ...)], has an axis of length zero
    returns the array of zeros of that shape without any event, and so
    without any library call: for every number of dimensions when there is
    no cached inverse, and for one or two dimensions when there is one.  An
    empty dense system is also constructed, and solved, without any library
    call.  On the sparse backends without a cached inverse, [solve] hands
    every right-hand side to [SuperLU.solve] or to CHOLMOD's [solve_A]. *)
Theorem empty_solve_short_circuit n (A : 'M[R]_n) (P : matrix_like R n n)
    (b : array_like R n) (bi : bool) :
  let empty := (n == 0%N) || (0%N \in trailing (as_narray b)) in
  let zeros := NArray (trailing (as_narray b)) 0 in
  [/\ forall s, empty ->
        ~~ Solver_inverse s || (size (trailing (as_narray b)) <= 1)%N ->
        outcome (Solver_init be (Array A) bi) = Ok s ->
        Solver_solve s b = ret zeros,
      forall s, empty ->
        ~~ PosDefSolver_inverse s || (size (trailing (as_narray b)) <= 1)%N ->
        issparse P ==> ~~ HAS_CHOLMOD ->
        outcome (PosDefSolver_init be HAS_CHOLMOD P bi) = Ok s ->
        PosDefSolver_solve s b = ret zeros,
      n = 0%N -> issparse P ==> ~~ HAS_CHOLMOD ->
        calls (s <- Solver_init be (Array A) bi ;; Solver_solve s b) = [::] /\
        calls (s <- PosDefSolver_init be HAS_CHOLMOD P bi ;;
               PosDefSolver_solve s b) = [::]
    & forall (f : SuperLU be n) (c : _SparsePosDefSolver be n),
        calls (Solver_solve (MkSolver (SparseSolver f) None) b)
          = [:: Call SuperLU_solve] /\
        calls (PosDefSolver_solve (MkPosDefSolver (SparsePosDefSolver c) None) b)
          = [:: Call Cholmod_solve_A]].
Proof.
cbv zeta; rewrite empty_narray.
case Eb: (as_narray b) => [tr b0] /=.
split.
- move=> s Hempty ok /Solver_init_dense [f [inv Es]]; move: ok.
  rewrite Es /Solver_solve Eb /=; case: inv {Es} => [X|] /=.
    by move=> le1; rewrite dot_matrix // [X *m _]empty_mx.
  rewrite /_DenseSolver_solve_nd /_solve_lu_nd /= wrapper_refuses_empty -?size_of_eq0 //.
  by rewrite /_solve_lu Hempty bind_ret_l.
- move=> s Hempty ok dense /(PosDefSolver_init_dense dense) [c [inv Es]].
  move: ok; rewrite Es /PosDefSolver_solve Eb /=; case: inv {Es} => [X|] /=.
    by move=> le1; rewrite dot_matrix // [X *m _]empty_mx.
  rewrite /_DensePosDefSolver_solve_nd /_solve_cholesky_nd /=.
  rewrite wrapper_refuses_empty -?size_of_eq0 //.
  by rewrite /_solve_cholesky Hempty bind_ret_l.
- move=> n0 dense; move: A P b b0 Eb dense; rewrite n0 => A0 P0 b1 b0 Eb dense.
  have Hdot (X : 'M[R]_0) : calls (dot X (NArray tr b0)) = [::].
    by rewrite /dot /=; case: ifP => // _; case: ifP.
  have Hw : wrapper_refuses 0 tr = false by rewrite wrapper_refuses_empty.
  have Hlu : calls (s <- Solver_init be (Array A0) bi ;; Solver_solve s b1) = [::].
    rewrite /Solver_init /=; case: bi; rewrite /= /Solver_solve /= Eb /=.
      by rewrite /calls /=; case: (dot _ _) (Hdot 0) => t r.
    by rewrite /_DenseSolver_solve_nd /_solve_lu_nd /= Hw.
  have Hchol inv :
    calls (PosDefSolver_solve (MkPosDefSolver (DensePosDefSolver be 0) inv) b1)
    = [::].
    rewrite /PosDefSolver_solve /= Eb; case: inv => [X|] /=; first exact: Hdot.
    by rewrite /_DensePosDefSolver_solve_nd /_solve_cholesky_nd /= Hw.
  split=> // {Hlu}.
  rewrite /PosDefSolver_init; case: P0 dense => [a|a] /=.
    by case: bi; rewrite /=; [have := Hchol (Some 0)|have := Hchol None];
       rewrite /calls /=; case: (PosDefSolver_solve _ _).
  move=> ->; rewrite /=.
  by case: bi; rewrite /=; [have := Hchol (Some 0)|have := Hchol None];
     rewrite /calls /=; case: (PosDefSolver_solve _ _).
- move=> f c; split.
    rewrite /Solver_solve Eb /= /_SparseSolver_solve_nd /=; case: ifP => _.
      by rewrite /_SparseSolver_solve; case: (superlu_solve _ _).
    by case: (superlu_solve_nd _ _).
  rewrite /PosDefSolver_solve Eb /= /_SparsePosDefSolver_solve_nd /=.
  case: ifP => _; first by rewrite /_SparsePosDefSolver_solve; case: (factor_solve_A _ _).
  by case: (factor_solve_A_nd _ _).
Qed.

End Empty.

(** The reference backend on identity matrices. *)
Lemma ref_Solver_init_dense1 n :
  Solver_init ref_backend (Array (1%:M : 'M[rat]_n.+1)) false
  = ([:: Call Dgetrf], Ok (MkSolver (DenseSolver ref_backend (1%:M, [::])) None)).
Proof.
by rewrite /Solver_init /= /_DenseSolver_init /_lu /= /ref_lu_info unitmx1.
Qed.

Lemma ref_Solver_init_sparse1 n nz :
  outcome (Solver_init ref_backend (Sparse (SpMatrix (1%:M : 'M[rat]_n.+1) nz)) false)
  = Ok (MkSolver (@SparseSolver _ ref_backend n.+1 1%:M) None).
Proof.
by rewrite /Solver_init /= /_SparseSolver_init /percent_nonzeros /= unitmx1.
Qed.

Lemma empty_solve_short_circuit_witness :
  Solver_solve (MkSolver (DenseSolver ref_backend (1%:M : 'M[rat]_2, [::])) None)
    (NdArray (np_zeros rat 2 [:: 3; 0]%N))
  = ret (np_zeros rat 2 [:: 3; 0]%N).
Proof.
have [H _ _ _] := @empty_solve_short_circuit rat ref_backend false 2
                    1%:M (Array 1%:M) (NdArray (np_zeros rat 2 [:: 3; 0]%N))
                    false.
by apply: H; rewrite ?ref_Solver_init_dense1.
Defined.

(** C8 fails on the sparse backend: a [Solver] built from a sparse 1 x 1
    matrix, asked to solve for a right-hand side with no columns, calls
    [SuperLU.solve]. *)
Lemma sparse_empty_solve_calls_superlu :
  let A : matrix_like rat 1 1 := Sparse (SpMatrix 1%:M 1) in
  let b : array_like rat 1 := NdArray (np_zeros rat 1 [:: 0%N]) in
  exists2 s, outcome (Solver_init ref_backend A false) = Ok s
           & calls (Solver_solve s b) = [:: Call SuperLU_solve].
Proof.
move=> A b; exists (MkSolver (@SparseSolver _ ref_backend 1 1%:M) None) => //.
exact: ref_Solver_init_sparse1.
Qed.

(** ** PartitionedPosDefSolver: the Schur complement *)

Section Schur.

Variable R : realFieldType.
Variable be : backend R.
Variable HAS_CHOLMOD : bool.

Local Notation M := (M R).

Hypothesis exact : exact_arithmetic be.

(** The solution of an exact solve is the product by the inverse. *)
Lemma solves_invmx n k T (A : 'M[R]_n) (s : T) solve (b : 'M[R]_(n, k)) :
  A \in unitmx -> solves A s solve ->
  outcome (solve k s b) = Ok (invmx A *m b).
Proof.
move=> unitA Hs; have [x -> Ax] := Hs _ b.
by rewrite -Ax mulKmx.
Qed.

(** The recipe gives the solution of the block system
    [A x + B y = a], [B^T x = b]. *)
Lemma schur_recipe_solves n p k (A : 'M[R]_n) (B : 'M[R]_(n, p))
    (a : 'M[R]_(n, k)) (b : 'M[R]_(p, k)) :
  posdef A -> posdef (B^T *m (invmx A *m B)) ->
  let xy := schur_recipe A B a (Some b) in
  A *m xy.1 + B *m xy.2 = a /\ B^T *m xy.1 = b.
Proof.
move=> pdA pdS; have unitA := posdef_unitmx pdA; have unitS := posdef_unitmx pdS.
have symA : A^T = A by case: pdA.
have AiBT : (invmx A *m B)^T = B^T *m invmx A by rewrite trmx_mul trmx_inv symA.
have SE : B^T *m invmx A *m B = B^T *m (invmx A *m B) by rewrite mulmxA.
rewrite /schur_recipe /= AiBT; split.
  rewrite !mulmxDr !mulmxN !mulmxA !(mulmxV unitA) !mul1mx.
  by rewrite opprK addrACA subrK subrr addr0.
rewrite !mulmxBr !mulmxN !mulmxA SE !(mulmxV unitS) !mul1mx.
by rewrite subrr sub0r opprK.
Qed.

(** What construction stores, when it succeeds. *)
Lemma PartitionedPosDefSolver_init_fields n p (A : matrix_like R n n)
    (B : matrix_like R n p) (self : PartitionedPosDefSolver be n p) :
  posdef (as_array A) ->
  posdef ((as_array B)^T *m (invmx (as_array A) *m as_array B)) ->
  outcome (PartitionedPosDefSolver_init be HAS_CHOLMOD A B false) = Ok self ->
  [/\ solves (as_array A) (_A_solver self) (@chol_solver_solve R be n),
      _AiB self = invmx (as_array A) *m as_array B,
      solves ((as_array B)^T *m _AiB self) (_BtAiB_solver self)
             (fun k => @_DensePosDefSolver_solve R be p k)
    & PartitionedPosDefSolver_inverse self = None].
Proof.
move=> pdA pdS; rewrite /PartitionedPosDefSolver_init.
have -> : as_sparse_or_array A = A by case: A {pdA pdS}.
case: ifP => // _ H.
have [As HAs H1] := outcome_bind_ok_inv H.
have [AiB HAiB H2] := outcome_bind_ok_inv H1.
have [c Hc H3] := outcome_bind_ok_inv H2.
move: H3; rewrite bind_ret_l => -[<-] /=.
have [[e He]|[As' HAs' HsolveA]] := chol_solver_init_exact HAS_CHOLMOD exact pdA.
  by rewrite He in HAs.
move: HAs'; rewrite HAs => -[EAs]; rewrite -{As'}EAs in HsolveA.
have unitA := posdef_unitmx pdA.
have EAiB : AiB = invmx (as_array A) *m as_array B.
  by move: HAiB; rewrite (solves_invmx _ unitA HsolveA) => -[].
rewrite EAiB; split=> //.
have [c' Hc' Hsolve] := _DensePosDefSolver_exact exact pdS.
by move: Hc; rewrite EAiB Hc' => -[<-].
Qed.

(** The solves of [PartitionedPosDefSolver.solve] on the entries of an
    array. *)
Lemma outcome_solve_nd n T (A : 'M[R]_n) (s : T) solve tr
    (b : 'M[R]_(n, size_of tr)) U (f : narray R n -> M U) :
  A \in unitmx -> solves A s solve ->
  outcome (y <- (x <- solve (size_of tr) s b ;; ret (NArray tr x)) ;; f y)
  = outcome (f (NArray tr (invmx A *m b))).
Proof.
move=> unitA Hs; rewrite bind_assoc.
by rewrite (outcome_bind_ok _ (solves_invmx _ unitA Hs)) bind_ret_l.
Qed.

Lemma _DensePosDefSolver_solve_ndE n (c : 'M[R]_n) tr
    (b : 'M[R]_(n, size_of tr)) :
  (size tr <= 1)%N ->
  _DensePosDefSolver_solve_nd be c (NArray tr b)
  = (x <- _DensePosDefSolver_solve be c b ;; ret (NArray tr x)).
Proof.
move=> le1.
by rewrite /_DensePosDefSolver_solve_nd /_solve_cholesky_nd wrapper_refuses_low.
Qed.

(** [solve] without the cached inverse, on right-hand sides of one or two
    dimensions and of one shape. *)
Lemma PartitionedPosDefSolver_solve_recipe n p (A : 'M[R]_n) (B : 'M[R]_(n, p))
    (self : PartitionedPosDefSolver be n p)
    (a : array_like R n) (b : option (array_like R p)) tr
    (a0 : 'M[R]_(n, size_of tr)) (b0 : option 'M[R]_(p, size_of tr)) :
  A \in unitmx -> B^T *m (invmx A *m B) \in unitmx ->
  solves A (_A_solver self) (@chol_solver_solve R be n) ->
  _AiB self = invmx A *m B ->
  solves (B^T *m (invmx A *m B)) (_BtAiB_solver self)
         (fun k => @_DensePosDefSolver_solve R be p k) ->
  PartitionedPosDefSolver_inverse self = None ->
  (size tr <= 1)%N ->
  as_narray a = NArray tr a0 -> omap (@as_narray R p) b = omap (NArray tr) b0 ->
  outcome (PartitionedPosDefSolver_solve self a b)
  = Ok (NArray tr (schur_recipe A B a0 b0).1,
        NArray tr (schur_recipe A B a0 b0).2).
Proof.
move=> unitA unitS HA EAiB HS Hinv le1 Ha Hb.
rewrite /PartitionedPosDefSolver_solve Hinv Ha EAiB dot_matrix // bind_ret_l.
rewrite _DensePosDefSolver_solve_ndE // (outcome_solve_nd _ _ unitS HS).
rewrite chol_solver_solve_ndE //= (outcome_solve_nd _ _ unitA HA).
rewrite dot_matrix // bind_ret_l np_subtract_same bind_ret_l.
case: b b0 Hb => [b|] [b0|] //= [->] /=.
rewrite _DensePosDefSolver_solve_ndE // (outcome_solve_nd _ _ unitS HS).
rewrite /np_negative /= dot_matrix // bind_ret_l.
by rewrite /= !np_add_same !bind_ret_l.
Qed.

(** C1, as the code has it.  Over exact arithmetic, for a positive
    definite [A], a [B] with [p <= n] whose Schur complement
    [S = B^T A^-1 B] is positive definite, and right-hand sides of one or
    two dimensions ([b], when given, of the shape of [a] after the first
    axis), a [PartitionedPosDefSolver] that was built without
    [build_inverse] solves by the recipe [Dta = S^-1 (AiB^T a)],
    [x = A^-1 a - AiB Dta], and with [b] given [Eb = - S^-1 b],
    [x += - AiB Eb], [y = Dta + Eb]; and construction succeeds, but for the
    empty sparse matrix given to CHOLMOD. *)
Theorem schur_complement_recipe n p (A : matrix_like R n n)
    (B : matrix_like R n p) (a : array_like R n) (b : option (array_like R p))
    tr (a0 : 'M[R]_(n, size_of tr)) (b0 : option 'M[R]_(p, size_of tr)) :
  (p <= n)%N ->
  posdef (as_array A) ->
  posdef ((as_array B)^T *m (invmx (as_array A) *m as_array B)) ->
  (size tr <= 1)%N ->
  as_narray a = NArray tr a0 -> omap (@as_narray R p) b = omap (NArray tr) b0 ->
  (forall self,
     outcome (PartitionedPosDefSolver_init be HAS_CHOLMOD A B false) = Ok self ->
     outcome (PartitionedPosDefSolver_solve self a b)
     = Ok (NArray tr (schur_recipe (as_array A) (as_array B) a0 b0).1,
           NArray tr (schur_recipe (as_array A) (as_array B) a0 b0).2))
  /\ ((0 < n)%N || ~~ (issparse A && HAS_CHOLMOD) ->
      exists self,
        outcome (PartitionedPosDefSolver_init be HAS_CHOLMOD A B false) = Ok self).
Proof.
move=> le_pn pdA pdS le1 Ha Hb; split=> [self Hself|].
  have [HA EAiB HS Hinv] := PartitionedPosDefSolver_init_fields pdA pdS Hself.
  have unitA := posdef_unitmx pdA; have unitS := posdef_unitmx pdS.
  rewrite EAiB in HS.
  exact: (PartitionedPosDefSolver_solve_recipe unitA unitS HA EAiB HS Hinv).
move=> ok; have [s Hs HsA] := chol_solver_init_succeeds exact pdA ok.
have [c' Hc' HsS] := _DensePosDefSolver_exact exact pdS.
have unitA := posdef_unitmx pdA.
rewrite /PartitionedPosDefSolver_init ltnNge le_pn.
have -> : as_sparse_or_array A = A by case: (A).
cbv beta zeta iota delta [negb].
eexists; rewrite (outcome_bind_ok _ Hs).
rewrite (outcome_bind_ok _ (solves_invmx _ unitA HsA)).
by rewrite (outcome_bind_ok _ Hc') bind_ret_l.
Qed.

End Schur.

(** The Schur complement of the block system with [A] the identity of
    order two and [B] the column [(1, 0)]. *)
Lemma block_schur_posdef :
  posdef ((as_array block_B)^T *m (invmx (as_array block_A) *m as_array block_B)).
Proof.
rewrite /= invmx1 mul1mx trmx_delta mul_delta_mx.
suff -> : delta_mx 0 0 = 1%:M :> 'M[rat]_1 by apply: posdef1.
by apply/matrixP => i j; rewrite !mxE !ord1.
Qed.

Lemma schur_complement_recipe_witness :
  let a : array_like rat 2 := NdArray (NArray [::] col_2_4) in
  let b : array_like rat 1 := NdArray (NArray [::] (const_mx 1)) in
  exists2 self : PartitionedPosDefSolver ref_backend 2 1,
    outcome (PartitionedPosDefSolver_init ref_backend true block_A block_B false)
    = Ok self
    & outcome (PartitionedPosDefSolver_solve self a (Some b))
      = Ok (NArray [::]
              (schur_recipe (as_array block_A) (as_array block_B) col_2_4
                 (Some (const_mx 1))).1,
            NArray [::]
              (schur_recipe (as_array block_A) (as_array block_B) col_2_4
                 (Some (const_mx 1))).2).
Proof.
move=> a b.
have [Hsolve Hinit] :=
  @schur_complement_recipe rat ref_backend true ref_backend_exact
    2 1 block_A block_B a (Some b) [::] col_2_4 (Some (const_mx 1))
    isT (posdef1 _ _) block_schur_posdef isT erefl erefl.
by have [self Hself] := Hinit isT; exists self => //; apply: Hsolve.
Defined.

(** C1 fails for a [B] that is not of full column rank: with [A = (1)] and
    [B = (0)], which satisfy [p <= n] and the positive definiteness of [A],
    the Schur complement is [(0)], its Cholesky factorization fails, and
    construction ends with that error; there is no solver to solve with. *)
Lemma schur_complement_singular :
  let A : matrix_like rat 1 1 := Array 1%:M in
  let B : matrix_like rat 1 1 := Array 0 in
  [/\ exact_arithmetic ref_backend, posdef (as_array A), (1 <= 1)%N
    & outcome (PartitionedPosDefSolver_init ref_backend true A B false)
      = Err (LinAlgError "Matrix not positive definite")].
Proof.
split=> //; first exact: ref_backend_exact.
  exact: posdef1.
rewrite /PartitionedPosDefSolver_init /= /_DensePosDefSolver_init /_cholesky /=.
rewrite (ref_chol_info_posdef (posdef1 _ _)) /=.
rewrite /_solve_cholesky /= /_cholesky /= mulmx0 mulmx0.
by rewrite /ref_chol_info unitmxE det0 unitr0.
Qed.

(** ** PosDefSolver without CHOLMOD *)

Section Fallback.

Variable R : realFieldType.
Variable be : backend R.

Local Notation M := (M R).







End Fallback.


(** ** PosDefSolver.solve_L *)

Section SolveL.

Variable R : realFieldType.
Variable be : backend R.

Local Notation M := (M R).

Lemma ndim_Arr1 n (b : ndarray R n) :
  ndim b = 1%N -> exists b1, b = Arr1 b1.
Proof. by case: b => [b0|b1|k b2|k1 k2 rest bN] //; exists b1. Qed.

Lemma ndim_Arr2 n (b : ndarray R n) :
  ndim b = 2%N -> exists k (b2 : 'M[R]_(n, k)), b = Arr2 b2.
Proof. by case: b => [b0|b1|k b2|k1 k2 rest bN] //; exists k, b2. Qed.

(** What construction returns when the sparse backend is chosen. *)
Lemma PosDefSolver_init_sparse n (a : spmatrix R n n) bi s :
  outcome (PosDefSolver_init be true (Sparse a) bi) = Ok s ->
  exists2 factor, cholmod_cholesky be a = inr factor
    & exists inv,
        s = MkPosDefSolver
              (SparsePosDefSolver
                 (Mk_SparsePosDefSolver factor (factor_D factor) (factor_P factor)))
              inv.
Proof.
rewrite /PosDefSolver_init.
cbv beta zeta iota delta [as_sparse_or_array chol_solver_init negb].
move=> H; have [s1 H1 H2] := outcome_bind_ok_inv H.
have [inv _ [<-]] := outcome_bind_ok_inv H2.
have [f Hf [<-]] := outcome_bind_ok_inv H1.
have [pct _ H3] := outcome_bind_ok_inv Hf.
have [_ _ H4] := outcome_bind_ok_inv H3.
have [factor H5 [<-]] := outcome_bind_ok_inv H4.
exists factor; last by exists inv.
by move: H5; rewrite /call; case: (cholmod_cholesky be a) => [e|f'] // [->].
Qed.

(** C10. On the sparse Cholesky backend, [solve_L(b)] raises the
    [ValueError] of a wrong number of dimensions, before any library call,
    for every [b] whose [ndim] is neither 1 nor 2; for a [b] of one or two
    dimensions it makes one call of CHOLMOD's [solve_L], on the rows of [b]
    taken in the order [P], and returns the result with each row [i]
    divided by [sqrt(D[i])].  On the dense backend no [b] raises that
    error, and a [b] of any number of dimensions with an axis of length
    zero gets zeros. *)
Theorem solve_L_dimension_check n (a : spmatrix R n n) (bi : bool)
    (s : PosDefSolver be n) (chol : 'M[R]_n) (inv : option 'M[R]_n)
    (b : ndarray R n) :
  outcome (PosDefSolver_init be true (Sparse a) bi) = Ok s ->
  exists2 factor, cholmod_cholesky be a = inr factor &
    let D := factor_D factor in
    let P := factor_P factor in
    let dense := MkPosDefSolver (DensePosDefSolver be chol) inv in
    [/\ ndim b != 1%N -> ndim b != 2%N ->
          PosDefSolver_solve_L s b = raise (ValueError NDIM_MSG [::]),
        forall b1 x : 'cV[R]_n, b = Arr1 b1 ->
          factor_solve_L factor (\col_i b1 (P i) 0) = inr x ->
          PosDefSolver_solve_L s b
          = ([:: Call Cholmod_solve_L],
             Ok (Arr1 (\col_i (x i 0 / np_sqrt be (D i 0))))),
        forall k (b2 x : 'M[R]_(n, k)), b = Arr2 b2 ->
          factor_solve_L factor (\matrix_(i, j) b2 (P i) j) = inr x ->
          PosDefSolver_solve_L s b
          = ([:: Call Cholmod_solve_L],
             Ok (Arr2 (\matrix_(i, j) (x i j / np_sqrt be (D i 0))))),
        (ndim b == 1%N) || (ndim b == 2%N) ->
          (exists b1, b = Arr1 b1) \/ (exists k (b2 : 'M[R]_(n, k)), b = Arr2 b2)
      & outcome (PosDefSolver_solve_L dense b) <> Err (ValueError NDIM_MSG [::])
        /\ (has (fun i => i == 0%N) (shape b) ->
            PosDefSolver_solve_L dense b = ret (zeros_like b))].
Proof.
move=> /PosDefSolver_init_sparse [factor Hfactor [inv' ->]].
exists factor => //; cbv zeta; split.
- by case: b => [b0|b1|k b2|k1 k2 rest bN].
- move=> b1 x -> Hx; rewrite /PosDefSolver_solve_L /= /_SparsePosDefSolver_solve_L /=.
  have -> : row_perm (factor_P factor) b1 = \col_i b1 (factor_P factor i) 0.
    by apply/matrixP => i j; rewrite !mxE ord1.
  rewrite Hx /=; congr (_, Ok (Arr1 _)).
  by apply/matrixP => i j; rewrite !mxE ord1 mulrC.
- move=> k b2 x -> Hx; rewrite /PosDefSolver_solve_L /= /_SparsePosDefSolver_solve_L /=.
  have -> : row_perm (factor_P factor) b2 = \matrix_(i, j) b2 (factor_P factor i) j.
    by apply/matrixP => i j; rewrite !mxE.
  rewrite Hx /=; congr (_, Ok (Arr2 _)).
  by apply/matrixP => i j; rewrite !mxE mulrC.
- case/orP=> /eqP.
    by move=> /ndim_Arr1 H; left.
  by move=> /ndim_Arr2 H; right.
- rewrite /PosDefSolver_solve_L /= /_DensePosDefSolver_solve_L /_solve_triangular.
  split; last by move=> ->.
  case: ifP => _ //.
  rewrite /call; case: (dtrtrs _ _ _ _) => [e|[x info]] //=.
  by do 2![case: ifP => _ //].
Qed.

End SolveL.

Lemma ref_PosDefSolver_init_sparse1 n nz :
  outcome (PosDefSolver_init ref_backend true
             (Sparse (SpMatrix (1%:M : 'M[rat]_n.+1) nz)) false)
  = Ok (MkPosDefSolver
          (SparsePosDefSolver
             (@Mk_SparsePosDefSolver _ ref_backend n.+1 1%:M
                (factor_D (1%:M : Factor ref_backend n.+1))
                (factor_P (1%:M : Factor ref_backend n.+1))))
          None).
Proof.
rewrite /PosDefSolver_init /= /_SparsePosDefSolver_init /percent_nonzeros /=.
by rewrite (ref_chol_info_posdef (posdef1 _ _)).
Qed.

(** The factorization of [diag(4, 16)] on the diagonal backend. *)
Lemma diag_cholesky_4_16 nz :
  diag_cholesky (SpMatrix diag_4_16 nz)
  = inr (DiagFactor (\col_i diag_4_16 (rev_perm 2 i) (rev_perm 2 i))
                    (rev_perm 2)).
Proof.
rewrite /diag_cholesky /=.
have -> /= : is_diag_mx diag_4_16.
  by apply/is_diag_mxP => i j neq_ij; rewrite mxE -val_eqE (negbTE neq_ij).
have -> // : [forall i, 0 < diag_4_16 i i].
by apply/forallP => i; rewrite mxE eqxx; case: ifP.
Qed.

Lemma diag_PosDefSolver_init_4_16 nz :
  let f := DiagFactor (\col_i diag_4_16 (rev_perm 2 i) (rev_perm 2 i))
                      (rev_perm 2) in
  outcome (PosDefSolver_init diag_backend true
             (Sparse (SpMatrix diag_4_16 nz)) false)
  = Ok (MkPosDefSolver
          (SparsePosDefSolver
             (@Mk_SparsePosDefSolver _ diag_backend 2 f
                (diag_factor_D f) (diag_factor_P f)))
          None).
Proof.
rewrite /PosDefSolver_init /= /_SparsePosDefSolver_init /percent_nonzeros /=.
by rewrite diag_cholesky_4_16.
Qed.

Lemma rev_perm_2 (i : 'I_2) : (rev_perm 2 i : nat) = (1 - i)%N.
Proof. by rewrite permE. Qed.

Lemma solve_L_dimension_check_witness :
  exists2 s, outcome (PosDefSolver_init diag_backend true
                        (Sparse (SpMatrix diag_4_16 2)) false) = Ok s
    & PosDefSolver_solve_L s (Arr1 col_2_4)
      = ([:: Call Cholmod_solve_L], Ok (Arr1 (const_mx 1))).
Proof.
have Hs := diag_PosDefSolver_init_4_16 2; eexists; first exact: Hs.
have [factor Hfactor [_ H _ _ _]] :=
  @solve_L_dimension_check rat diag_backend 2 (SpMatrix diag_4_16 2) false _
    1%:M None (Arr1 col_2_4) Hs.
move: Hfactor H; rewrite [cholmod_cholesky _ _]diag_cholesky_4_16 => -[<-] H.
rewrite (H col_2_4 _ (erefl _) (erefl _)); congr (_, Ok (Arr1 _)).
apply/matrixP => i j; rewrite !mxE /= eqxx !rev_perm_2.
by case: i => [[|[|i]] Hi] //=; apply/eqP; vm_compute.
Defined.

(** ** GMRESSolver.solve *)

Section GmresSolve.

Variable R : realFieldType.
Variable be : backend R.

Local Notation M := (M R).

Lemma outcome_gmres_callbacks itr (l2s : seq R) :
  outcome (gmres_callbacks itr l2s) = Ok tt.
Proof.
elim: l2s itr => [|l2 l2s IH] itr //=.
by rewrite /debug /emit /bind /=; case: (gmres_callbacks _ _) (IH itr.+1) => t r /= ->.
Qed.

(** C4, as the code has it.  [GMRESSolver.solve] does not raise when the
    iteration has not converged: whatever [info] GMRES reports, the solution
    vector is returned, alone; [info] goes to the debug log, in the last
    record of the call. *)
Theorem gmres_solve_returns_x n (self : GMRESSolver be n) (b : 'cV[R]_n)
    (tol : R) (l2s : seq R) (x : 'cV[R]_n) (info : int) :
  gmres (GMRESSolver_A self) (\col_i (b i 0 / GMRESSolver_n self i 0)) tol
        (GMRESSolver_M self) = inr (l2s, x, info) ->
  outcome (GMRESSolver_solve self b tol) = Ok x
  /\ trace (GMRESSolver_solve self b tol)
     = [:: Debug "solving the system with GMRES" [::]; Call Gmres]
       ++ trace (gmres_callbacks 0 l2s)
       ++ [:: Debug "finished GMRES with info %s" [:: LInt info]].
Proof.
move=> Hg; rewrite /GMRESSolver_solve Hg /= /debug /emit /bind /=.
by case: (gmres_callbacks 0 l2s) (outcome_gmres_callbacks 0 l2s) => t r /= ->.
Qed.

End GmresSolve.

Lemma gmres_solve_returns_x_witness :
  outcome (GMRESSolver_solve
             (@MkGMRESSolver _ ref_backend 1 (SpMatrix 1%:M 1) tt (const_mx 1))
             (const_mx 1) 0)
  = Ok (invmx 1%:M *m (\col_i ((const_mx 1 : 'cV[rat]_1) i 0
                               / (const_mx 1 : 'cV[rat]_1) i 0))).
Proof.
by have [] := @gmres_solve_returns_x rat ref_backend 1
                (@MkGMRESSolver _ ref_backend 1 (SpMatrix 1%:M 1) tt (const_mx 1))
                (const_mx 1) 0 _ _ _ (erefl _).
Defined.

(** C4 fails in its second half: the status code is not in what [solve]
    returns.  For the 1 x 1 identity matrix, the right-hand side [(1)] and
    the tolerance [0], GMRES reports [info = 0]; [solve] returns the
    solution [(1)], an array with the one entry of the solution, and the
    status code is found only in the last debug record. *)
Lemma gmres_info_not_returned :
  let self := @MkGMRESSolver _ ref_backend 1 (SpMatrix 1%:M 1) tt (const_mx 1) in
  let b : 'cV[rat]_1 := const_mx 1 in
  outcome (GMRESSolver_solve self b 0) = Ok (const_mx 1)
  /\ last (Call Gmres) (trace (GMRESSolver_solve self b 0))
     = Debug "finished GMRES with info %s" [:: LInt 0].
Proof.
split=> //; rewrite /GMRESSolver_solve /=.
congr (Ok _); apply/matrixP => i j.
by rewrite invmx1 mul1mx !mxE divr1.
Qed.

(** ** is_positive_definite *)

Section IsPositiveDefinite.

Variable R : realFieldType.
Variable be : backend R.

Local Notation M := (M R).

(** The dense Cholesky factorization of a matrix LAPACK rejects. *)
Lemma _cholesky_not_posdef n (A : 'M[R]_n) :
  (0 < n)%N -> 0 < (dpotrf be A true).2 ->
  _cholesky be A true
  = ([:: Call Dpotrf], Err (LinAlgError "Matrix not positive definite")).
Proof.
case: n A => [|n] A // _; rewrite /_cholesky /lapack /bind /=.
case: (dpotrf be A true) => [L info] /= info_gt0.
by rewrite ltNge (ltW info_gt0) /= info_gt0.
Qed.

Lemma outcome_try_except T (body : M T) handler :
  outcome (try_except body handler)
  = match outcome body with
    | Ok x => Ok x
    | Err e => outcome (handler e)
    end.
Proof. by case: body => t [x|e] //=; case: (handler e). Qed.

(** Dense or sparse, the matrix goes to the dense factorization when
    CHOLMOD is missing. *)
Lemma PosDefSolver_init_not_posdef n (A : matrix_like R n n) HAS_CHOLMOD :
  (0 < n)%N -> 0 < (dpotrf be (as_array A) true).2 ->
  issparse A ==> ~~ HAS_CHOLMOD ->
  outcome (PosDefSolver_init be HAS_CHOLMOD A false)
  = Err (LinAlgError "Matrix not positive definite").
Proof.
move=> n_gt0 info_gt0 dense; apply: outcome_bind_err.
case: A info_gt0 dense => [a|a] /= info_gt0.
  by move=> _; rewrite /_DensePosDefSolver_init _cholesky_not_posdef.
by move=> ->; rewrite /= /_DensePosDefSolver_init _cholesky_not_posdef.
Qed.

(** With CHOLMOD installed the failure of the factorization is caught. *)
Lemma is_positive_definite_with_cholmod n (A : 'M[R]_n) :
  (0 < n)%N -> 0 < (dpotrf be A true).2 ->
  outcome (is_positive_definite be true (Array A)) = Ok false.
Proof.
move=> n_gt0 info_gt0; rewrite /is_positive_definite outcome_try_except.
by rewrite (outcome_bind_err _ (PosDefSolver_init_not_posdef _ _ _)).
Qed.

(** C5 is what the code is meant to do and does not: when CHOLMOD is
    missing, the failure of the dense factorization, of a dense matrix or of
    the dense copy of a sparse one, is not turned into [False].  The
    [except] clause names [cholmod], which is unbound, and
    [is_positive_definite] ends with a [NameError]. *)
Theorem is_positive_definite_without_cholmod n (A : matrix_like R n n) :
  (0 < n)%N -> 0 < (dpotrf be (as_array A) true).2 ->
  outcome (is_positive_definite be false A)
  = Err (NameError "name 'cholmod' is not defined").
Proof.
move=> n_gt0 info_gt0; rewrite /is_positive_definite outcome_try_except.
have dense : issparse A ==> ~~ false by rewrite implybT.
by rewrite (outcome_bind_err _ (PosDefSolver_init_not_posdef _ _ dense)).
Qed.

End IsPositiveDefinite.

Lemma ref_chol_info_diag_1_m1 : 0 < (dpotrf ref_backend diag_1_m1 true).2.
Proof.
rewrite /= /ref_chol_info.
have -> : [forall i, 0 < diag_1_m1 i i] = false.
  apply/negbTE/forallPn; exists (rshift 1 0).
  by rewrite /diag_1_m1 block_mxEdr !mxE.
by rewrite andbF.
Qed.

Lemma is_positive_definite_without_cholmod_witness :
  outcome (is_positive_definite ref_backend false (Sparse (SpMatrix diag_1_m1 2)))
  = Err (NameError "name 'cholmod' is not defined").
Proof.
exact: (@is_positive_definite_without_cholmod rat ref_backend 2
          (Sparse (SpMatrix diag_1_m1 2)) isT ref_chol_info_diag_1_m1).
Defined.

(** ** The caller's arrays *)

Section Frame.

Variable V : Type.
Variable v0 : V.
Variable eval : Store.op -> seq V -> V.

Local Notation heap := (Store.heap V).
Local Notation St := (Store.St V).
Local Notation frame := (@Store.frame V).
Local Notation preserves := (@Store.preserves V).
Local Notation alloc := (Store.alloc v0 eval).
Local Notation write := (Store.write v0 eval).
Local Notation run := (Store.run (V:=V)).

Lemma frame_refl (h : heap) : frame h h.
Proof. by split; rewrite ?take_size. Qed.

Lemma frame_trans (h1 h2 h3 : heap) : frame h1 h2 -> frame h2 h3 -> frame h1 h3.
Proof.
move=> [E12 le12] [E23 le23]; split; last exact: leq_trans le23.
by rewrite -(take_takel _ le12) E23 E12.
Qed.

Lemma frame_rcons (h : heap) v : frame h (rcons h v).
Proof. by split; rewrite ?size_rcons // -cats1 take_size_cat. Qed.

(** A write above the buffers of [h0] leaves them alone. *)
Lemma frame_set_nth (h0 h : heap) t v :
  frame h0 h -> (size h0 <= t)%N -> frame h0 (set_nth v0 h t v).
Proof.
move=> [E le0] le_t.
have le0' : (size h0 <= size (set_nth v0 h t v))%N.
  by rewrite size_set_nth (leq_trans le0) // leq_maxr.
split=> //; apply: (@eq_from_nth _ v0) => [|i]; rewrite size_takel //.
move=> lt_i; rewrite nth_take // nth_set_nth /= -[in RHS]E nth_take //.
by case: eqP => // Ei; move: lt_i; rewrite Ei ltnNge le_t.
Qed.

Lemma run_unit T h0 (x : T) (Q : T -> Prop) : Q x -> run h0 (Store.unit_st x) Q.
Proof. by move=> Qx h. Qed.

Lemma run_bind T U h0 (m : St T) (f : T -> St U) Q Q' :
  run h0 m Q -> (forall x, Q x -> run h0 (f x) Q') ->
  run h0 (Store.bind_st m f) Q'.
Proof.
move=> Hm Hf h Fh; rewrite /Store.bind_st.
case E: (m h) => [x h1]; have [F1 Qx] := Hm h Fh.
by apply: Hf; rewrite E in F1 Qx.
Qed.

Lemma run_weaken T h0 (m : St T) (Q Q' : T -> Prop) :
  (forall x, Q x -> Q' x) -> run h0 m Q -> run h0 m Q'.
Proof. by move=> HQ Hm h Fh; have [F /HQ] := Hm h Fh. Qed.

(** The buffer [alloc] returns is a new one. *)
Lemma run_alloc h0 o args : run h0 (alloc o args) (fun l => size h0 <= l)%N.
Proof.
move=> h Fh; split; last by case: Fh.
exact: frame_trans Fh (frame_rcons _ _).
Qed.

Lemma run_write h0 o t args :
  (size h0 <= t)%N -> run h0 (write o t args) (fun _ => True).
Proof. by move=> le_t h Fh; split=> //; apply: frame_set_nth. Qed.

Lemma run_preserves T (m : St T) Q : (forall h0, run h0 m Q) -> preserves m.
Proof. by move=> Hm h; have [] := Hm h h (frame_refl h). Qed.

Local Notation any := (fun _ => True).

Local Ltac run_alloc_any :=
  by apply: run_weaken; [|exact: run_alloc].

Lemma run_np_array h0 A : run h0 (Store.np_array v0 eval A) any.
Proof.
case: A => [buf [|]|buf c f] /=; first exact: run_unit.
  by apply: run_bind; [exact: run_alloc | move=> l _; exact: run_unit].
by apply: run_bind; [exact: run_alloc | move=> l _; exact: run_unit].
Qed.

Lemma run_sp_csc_matrix h0 A dt : run h0 (Store.sp_csc_matrix v0 eval A dt) any.
Proof.
case: A => [buf f|buf [|] f] /=.
- by apply: run_bind; [exact: run_alloc | move=> l _; exact: run_unit].
- case: ifP => _; last exact: run_unit.
  by apply: run_bind; [exact: run_alloc | move=> l _; exact: run_unit].
- by apply: run_bind; [exact: run_alloc | move=> l _; exact: run_unit].
Qed.

Lemma run_as_sparse_or_array h0 A :
  run h0 (Store.as_sparse_or_array v0 eval A) any.
Proof.
rewrite /Store.as_sparse_or_array; case: ifP => _.
  exact: run_sp_csc_matrix.
exact: run_np_array.
Qed.

Lemma run_as_array h0 A : run h0 (Store.as_array v0 eval A) any.
Proof.
apply: (@run_bind _ _ _ _ _ any) => [|A' _]; last exact: run_np_array.
case: A => [buf f|buf c f]; first exact: run_unit.
by apply: run_bind; [exact: run_alloc | move=> l _; exact: run_unit].
Qed.

Lemma run_build h0 f bi : run h0 (Store.build v0 eval f bi) any.
Proof.
case: bi => /=; last exact: run_unit.
apply: run_bind; [exact: run_alloc | move=> I _].
by apply: run_bind; [exact: run_alloc | move=> X _; exact: run_unit].
Qed.

(** One step of a program made of allocations. *)
Local Ltac step :=
  first
    [ exact: run_unit
    | exact: run_as_array | exact: run_as_sparse_or_array
    | exact: run_build | run_alloc_any
    | apply: (@run_bind _ _ _ _ _ any) => [|? _] ].

Lemma run_factorize h0 c (A : Store.pyobj) :
  run h0 (if c then
            Store.bind_st (alloc Store.ToArray [:: Store.buffer_of A])
              (fun d => alloc Store.Factorize [:: d])
          else alloc Store.Factorize [:: Store.buffer_of A]) any.
Proof. by case: c; do ![step]. Qed.

Lemma run_Solver_init h0 A bi : run h0 (Store.Solver_init v0 eval A bi) any.
Proof. by rewrite /Store.Solver_init; do ![step]. Qed.

Lemma run_Solver_solve h0 self b : run h0 (Store.Solver_solve v0 eval self b) any.
Proof.
by rewrite /Store.Solver_solve; step; first step; case: (Store.inverse self) => [inv|]; step.
Qed.

Lemma run_PosDefSolver_init h0 HAS A bi :
  run h0 (Store.PosDefSolver_init v0 eval HAS A bi) any.
Proof.
rewrite /Store.PosDefSolver_init; step; first step.
by step; [exact: run_factorize | do ![step]].
Qed.

Lemma run_PosDefSolver_solve h0 self b :
  run h0 (Store.PosDefSolver_solve v0 eval self b) any.
Proof.
by rewrite /Store.PosDefSolver_solve; step; first step;
   case: (Store.inverse self) => [inv|]; step.
Qed.

Lemma run_PartitionedSolver_init h0 A B bi :
  run h0 (Store.PartitionedSolver_init v0 eval A B bi) any.
Proof.
rewrite /Store.PartitionedSolver_init; step; first step.
step; first step.
step; first by case: ifP => _; do ![step].
by do ![step].
Qed.

(** [xy += ...] writes into the buffer allocated for [xy] two statements
    before. *)
Lemma run_dot_iadd h0 inv (a : Store.pyobj) (b : option Store.pyobj) T
    (k : Store.loc -> T) :
  run h0 (Store.bind_st (alloc Store.Dot [:: inv; Store.buffer_of a])
            (fun xy =>
               match b with
               | Some b =>
                   Store.bind_st (Store.as_array v0 eval b) (fun b =>
                   Store.bind_st (alloc Store.Dot [:: inv; Store.buffer_of b])
                     (fun t =>
                   Store.bind_st (write Store.Add xy [:: t])
                     (fun _ => Store.unit_st (k xy))))
               | None => Store.unit_st (k xy)
               end)) any.
Proof.
apply: run_bind; [exact: run_alloc | move=> xy fresh_xy].
case: b => [b|]; last exact: run_unit.
step; first step.
step; first step.
by step; [exact: run_write | exact: run_unit].
Qed.

Lemma run_PartitionedSolver_solve h0 self a b :
  run h0 (Store.PartitionedSolver_solve v0 eval self a b) any.
Proof.
rewrite /Store.PartitionedSolver_solve; step; first step.
step; last exact: run_unit.
case: (Store.inverse self) => [inv|]; first exact: (@run_dot_iadd h0 inv _ b _ (fun xy => xy)).
step; first by case: b => [b|]; do ![step].
by do ![step].
Qed.

Lemma run_PartitionedPosDefSolver_init h0 HAS A B bi :
  run h0 (Store.PartitionedPosDefSolver_init v0 eval HAS A B bi) any.
Proof.
rewrite /Store.PartitionedPosDefSolver_init; step; first step.
step; first step.
step; first exact: run_factorize.
by do 3![step; first step]; step; [case: bi; do ![step] | step].
Qed.

Lemma run_PartitionedPosDefSolver_solve h0 self a b :
  run h0 (Store.PartitionedPosDefSolver_solve v0 eval self a b) any.
Proof.
rewrite /Store.PartitionedPosDefSolver_solve; step; first step.
case: (Store.pinverse self) => [inv|].
  exact: (@run_dot_iadd h0 inv _ b _ (fun xy => (xy, xy))).
by do 5![step; first step]; case: b => [b|]; do ![step].
Qed.

Lemma run_GMRESSolver_solve h0 self b :
  run h0 (Store.GMRESSolver_solve v0 eval self b) any.
Proof. by rewrite /Store.GMRESSolver_solve; do ![step]. Qed.

Lemma run_GMRESSolver_init_copy h0 A :
  run h0 (Store.GMRESSolver_init v0 eval A false) any.
Proof.
rewrite /Store.GMRESSolver_init /Store.row_norms /Store.divide_rows.
step; first exact: run_sp_csc_matrix.
by do ![step].
Qed.

(** [sp.csc_matrix] of anything but a csc matrix has a buffer of its own. *)
Lemma run_sp_csc_matrix_fresh h0 A dt :
  ~~ Store.is_csc_matrix A ->
  run h0 (Store.sp_csc_matrix v0 eval A dt)
      (fun A' => size h0 <= Store.buffer_of A')%N.
Proof.
case: A => [buf f|buf [|] f] //= _.
  by apply: run_bind; [exact: run_alloc | move=> l le_l; exact: run_unit].
by apply: run_bind; [exact: run_alloc | move=> l le_l; exact: run_unit].
Qed.

Lemma run_GMRESSolver_init_inplace_copy h0 A :
  ~~ Store.is_csc_matrix A -> run h0 (Store.GMRESSolver_init v0 eval A true) any.
Proof.
move=> not_csc; rewrite /Store.GMRESSolver_init /Store.row_norms /Store.divide_rows.
apply: run_bind; first exact: run_sp_csc_matrix_fresh.
move=> A' fresh_A'; step; first step.
step; first by step; [exact: run_write | exact: run_unit].
by do ![step].
Qed.

(** The store after [GMRESSolver(A, normalize_inplace=True)] on a csc
    matrix: the norms, the rows divided in the buffer of [A], the ILU. *)
Lemma GMRESSolver_init_inplace_csc buf f (h : heap) :
  let norms := eval Store.RowNorms [:: Store.read v0 h buf] in
  let divided := eval Store.DivideRows [:: Store.read v0 h buf; norms] in
  (buf < size h)%N ->
  (Store.GMRESSolver_init v0 eval (Store.SpMatrixObj buf true f) true h).2
  = rcons (set_nth v0 (rcons h norms) buf divided)
          (eval Store.Spilu [:: divided]).
Proof.
move=> norms divided lt_buf.
rewrite /Store.GMRESSolver_init /Store.row_norms /Store.divide_rows /=.
rewrite /Store.bind_st /Store.alloc /Store.write /Store.read /=.
rewrite !nth_rcons lt_buf ltnn eqxx /= nth_set_nth /= eqxx.
by rewrite -/(Store.read v0 h buf).
Qed.

(** C9. Constructing a [Solver], [PosDefSolver], [PartitionedSolver] or
    [PartitionedPosDefSolver] and calling [solve] changes no buffer that
    existed before the call, so neither the caller's matrix nor the
    right-hand side; the same holds for [GMRESSolver] built with
    [normalize_inplace=False] and for its [solve].  With
    [normalize_inplace=True] the only buffer that can change is the one of
    the caller's matrix, and for a csc matrix it does: its rows are divided
    by their norms. *)
Theorem callers_arrays_not_mutated (A B a b : Store.pyobj)
    (ob : option Store.pyobj) (bi HAS_CHOLMOD : bool) (s : Store.solver)
    (ps : Store.partitioned_posdef_solver) (g : Store.gmres_solver)
    (rhs : Store.loc) :
  [/\ preserves (Store.Solver_init v0 eval A bi)
      /\ preserves (Store.Solver_solve v0 eval s b),
      preserves (Store.PosDefSolver_init v0 eval HAS_CHOLMOD A bi)
      /\ preserves (Store.PosDefSolver_solve v0 eval s b),
      preserves (Store.PartitionedSolver_init v0 eval A B bi)
      /\ preserves (Store.PartitionedSolver_solve v0 eval s a ob),
      preserves (Store.PartitionedPosDefSolver_init v0 eval HAS_CHOLMOD A B bi)
      /\ preserves (Store.PartitionedPosDefSolver_solve v0 eval ps a ob)
    & [/\ preserves (Store.GMRESSolver_init v0 eval A false),
          preserves (Store.GMRESSolver_solve v0 eval g rhs),
          forall h l, (l < size h)%N -> l != Store.buffer_of A ->
            Store.read v0 (Store.GMRESSolver_init v0 eval A true h).2 l
            = Store.read v0 h l
        & forall h, Store.is_csc_matrix A -> (Store.buffer_of A < size h)%N ->
            Store.read v0 (Store.GMRESSolver_init v0 eval A true h).2
              (Store.buffer_of A)
            = eval Store.DivideRows
                [:: Store.read v0 h (Store.buffer_of A);
                    eval Store.RowNorms [:: Store.read v0 h (Store.buffer_of A)]]]].
Proof.
split; try (split; apply: (@run_preserves _ _ any) => h0).
- exact: run_Solver_init.
- exact: run_Solver_solve.
- exact: run_PosDefSolver_init.
- exact: run_PosDefSolver_solve.
- exact: run_PartitionedSolver_init.
- exact: run_PartitionedSolver_solve.
- exact: run_PartitionedPosDefSolver_init.
- exact: run_PartitionedPosDefSolver_solve.
split.
- by apply: (@run_preserves _ _ any) => h0; exact: run_GMRESSolver_init_copy.
- by apply: (@run_preserves _ _ any) => h0; exact: run_GMRESSolver_solve.
- move=> h l lt_l neq_l; case csc: (Store.is_csc_matrix A); last first.
    have /(@run_preserves _ _ any) /(_ h) [E _] :=
      fun h0 => @run_GMRESSolver_init_inplace_copy h0 A (negbT csc).
    by rewrite /Store.read -[in RHS]E nth_take.
  case: A csc neq_l => [//|buf [|//] f] _ neq_l.
  have {}neq_l : l != buf by [].
  case: (ltnP buf (size h)) => [lt_buf|le_buf].
    rewrite GMRESSolver_init_inplace_csc // /Store.read.
    rewrite nth_rcons size_set_nth size_rcons.
    rewrite (leq_trans lt_l (leq_trans (leqnSn _) (leq_maxr _ _))).
    by rewrite nth_set_nth /= (negbTE neq_l) nth_rcons lt_l.
  rewrite /Store.GMRESSolver_init /Store.row_norms /Store.divide_rows /=.
  rewrite /Store.bind_st /Store.alloc /Store.write /Store.read /=.
  rewrite nth_rcons size_set_nth size_rcons.
  rewrite (leq_trans lt_l (leq_trans (leqnSn _) (leq_maxr _ _))).
  by rewrite nth_set_nth /= (negbTE neq_l) nth_rcons lt_l.
- move=> h; case: A => [//|buf [|//] f] _ lt_buf.
  have {}lt_buf : (buf < size h)%N by [].
  rewrite GMRESSolver_init_inplace_csc // /Store.read /Store.buffer_of.
  rewrite nth_rcons size_set_nth size_rcons.
  rewrite (leq_trans lt_buf (leq_trans (leqnSn _) (leq_maxr _ _))).
  by rewrite nth_set_nth /= eqxx.
Qed.

End Frame.

(** ** The partitioned solvers and the block system *)

Section BlockSystem.

Variable R : realFieldType.
Variable be : backend R.
Variable HAS_CHOLMOD : bool.

Local Notation M := (M R).

Hypothesis exact : exact_arithmetic be.

Lemma as_array_augmented n p (A : matrix_like R n n) (B : matrix_like R n p) :
  as_array (augmented A B) = block_mx (as_array A) (as_array B) (as_array B)^T 0.
Proof. by case: A. Qed.

Lemma issparse_augmented n p (A : matrix_like R n n) (B : matrix_like R n p) :
  issparse (augmented A B) = issparse A.
Proof. by case: A. Qed.

(** Construction followed by a solve, as a run of the LU backend on the
    augmented matrix, for right-hand sides of one or two dimensions and of
    one shape. *)
Lemma PartitionedSolver_runE n p (A : matrix_like R n n)
    (B : matrix_like R n p) (a : array_like R n)
    (b : option (array_like R p)) tr (a0 : 'M[R]_(n, size_of tr))
    (b0 : option 'M[R]_(p, size_of tr)) bi :
  (p <= n)%N -> (size tr <= 1)%N ->
  as_narray a = NArray tr a0 -> omap (@as_narray R p) b = omap (NArray tr) b0 ->
  (s <- PartitionedSolver_init be A B bi ;; PartitionedSolver_solve s a b) =
  (xy <- run_with (Solver_backend be (augmented A B))
           (@lu_solver_solve R be (n + p))
           (col_mx a0 (b_or_zeros b0)) bi ;;
   ret (NArray tr (usubmx xy), NArray tr (dsubmx xy))).
Proof.
move=> le_pn le1 Ha Hb; rewrite /PartitionedSolver_init ltnNge le_pn.
cbv beta zeta iota delta [negb]; rewrite /run_with !bind_assoc.
have -> : (match as_sparse_or_array A with
           | Sparse a0 => f <- _SparseSolver_init be (bmat a0 (as_array B)) ;;
                          ret (SparseSolver f)
           | Array a0 =>
               f <- _DenseSolver_init be
                      (block_mx a0 (as_array B) (as_array B)^T 0) ;;
               ret (DenseSolver be f)
           end) = Solver_backend be (augmented A B) by case: A.
apply: bind_ext => s; rewrite !bind_assoc; apply: bind_ext => inv.
rewrite bind_ret_l (PartitionedSolver_solveE Ha Hb) ?le1 ?orbT //.
rewrite /PartitionedSolver_spec_combined /=.
case: inv => [inverse|]; first by rewrite !bind_ret_l.
rewrite lu_solver_solve_ndE // !bind_assoc; apply: bind_ext => x.
by rewrite bind_ret_l.
Qed.

(** A run of [PartitionedSolver] on an invertible block matrix. *)
Lemma PartitionedSolver_run_solves n p (A : matrix_like R n n)
    (B : matrix_like R n p) (a : array_like R n)
    (b : option (array_like R p)) tr (a0 : 'M[R]_(n, size_of tr))
    (b0 : option 'M[R]_(p, size_of tr)) (bi : bool) :
  (p <= n)%N ->
  block_mx (as_array A) (as_array B) (as_array B)^T 0 \in unitmx ->
  (0 < n + p)%N || ~~ issparse A ->
  (size tr <= 1)%N ->
  as_narray a = NArray tr a0 -> omap (@as_narray R p) b = omap (NArray tr) b0 ->
  exists2 xy : 'M[R]_(n, size_of tr) * 'M[R]_(p, size_of tr),
    outcome (s <- PartitionedSolver_init be A B bi ;;
             PartitionedSolver_solve s a b)
    = Ok (NArray tr xy.1, NArray tr xy.2)
    & as_array A *m xy.1 + as_array B *m xy.2 = a0
      /\ (as_array B)^T *m xy.1 = b_or_zeros b0.
Proof.
move=> le_pn unitK ok le1 Ha Hb; rewrite (PartitionedSolver_runE A B bi le_pn le1 Ha Hb).
rewrite -as_array_augmented in unitK; rewrite -(issparse_augmented A B) in ok.
have Hinit := Solver_backend_succeeds exact unitK ok.
have [xy Hxy Kxy] := run_solves (col_mx a0 (b_or_zeros b0)) Hinit.
have Hbi : outcome (run_with (Solver_backend be (augmented A B))
                      (@lu_solver_solve R be (n + p))
                      (col_mx a0 (b_or_zeros b0)) bi) = Ok xy.
  have Hag := run_agrees (col_mx a0 (b_or_zeros b0))
                (Solver_backend_exact exact unitK).
  by case: bi; rewrite ?Hag.
exists (usubmx xy, dsubmx xy); first by rewrite (outcome_bind_ok _ Hbi).
move: Kxy; rewrite as_array_augmented -{1}[xy]vsubmxK mul_block_col /=.
by move=> /eq_col_mx []; rewrite mul0mx addr0.
Qed.

(** X1. Over exact arithmetic, when [p <= n] and the block matrix
    [[A, B], [B^T, 0]] is invertible, a [PartitionedSolver] returns, with
    the cached inverse and without, for right-hand sides of one or two
    dimensions and of one shape after the first axis, a pair [(x, y)] of
    arrays of that shape with [A x + B y = a] and [B^T x = b], where [b] is
    zeros when it is omitted; the system must not be the empty sparse one,
    whose construction fails. *)
Theorem partitioned_solver_solves_block_system n p (A : matrix_like R n n)
    (B : matrix_like R n p) (a : array_like R n)
    (b : option (array_like R p)) tr (a0 : 'M[R]_(n, size_of tr))
    (b0 : option 'M[R]_(p, size_of tr)) (bi : bool) :
  (p <= n)%N ->
  block_mx (as_array A) (as_array B) (as_array B)^T 0 \in unitmx ->
  (0 < n + p)%N || ~~ issparse A ->
  (size tr <= 1)%N ->
  as_narray a = NArray tr a0 -> omap (@as_narray R p) b = omap (NArray tr) b0 ->
  exists2 xy : 'M[R]_(n, size_of tr) * 'M[R]_(p, size_of tr),
    outcome (s <- PartitionedSolver_init be A B bi ;;
             PartitionedSolver_solve s a b)
    = Ok (NArray tr xy.1, NArray tr xy.2)
    & as_array A *m xy.1 + as_array B *m xy.2 = a0
      /\ (as_array B)^T *m xy.1 = b_or_zeros b0.
Proof. exact: PartitionedSolver_run_solves. Qed.

(** X2. Over exact arithmetic, for an invertible block matrix and
    right-hand sides of one or two dimensions and of one shape after the
    first axis, a [PartitionedSolver] built with [build_inverse] returns
    what one built without it returns, also when that is an exception. *)
Theorem partitioned_solver_build_inverse_agrees n p (A : matrix_like R n n)
    (B : matrix_like R n p) (a : array_like R n)
    (b : option (array_like R p)) tr (a0 : 'M[R]_(n, size_of tr))
    (b0 : option 'M[R]_(p, size_of tr)) :
  block_mx (as_array A) (as_array B) (as_array B)^T 0 \in unitmx ->
  (size tr <= 1)%N ->
  as_narray a = NArray tr a0 -> omap (@as_narray R p) b = omap (NArray tr) b0 ->
  outcome (s <- PartitionedSolver_init be A B true ;;
           PartitionedSolver_solve s a b)
  = outcome (s <- PartitionedSolver_init be A B false ;;
             PartitionedSolver_solve s a b).
Proof.
move=> unitK le1 Ha Hb; case: (leqP p n) => [le_pn|lt_np]; last first.
  by rewrite /PartitionedSolver_init lt_np.
rewrite !(PartitionedSolver_runE A B _ le_pn le1 Ha Hb).
rewrite -as_array_augmented in unitK.
have Hag := run_agrees (col_mx a0 (b_or_zeros b0))
              (Solver_backend_exact exact unitK).
case E: (outcome (run_with _ _ _ false)) Hag => [xy|e] Hag.
  by rewrite (outcome_bind_ok _ Hag) (outcome_bind_ok _ E).
by rewrite (outcome_bind_err _ Hag) (outcome_bind_err _ E).
Qed.

End BlockSystem.


(** ** PartitionedPosDefSolver: the cached block inverse *)

Section SchurInverse.

Variable R : realFieldType.
Variable be : backend R.
Variable HAS_CHOLMOD : bool.

Local Notation M := (M R).

Hypothesis exact : exact_arithmetic be.

(** The stacked blocks are a right inverse of the block matrix. *)
Lemma schur_inverseP n p (A : 'M[R]_n) (B : 'M[R]_(n, p)) :
  posdef A -> posdef (B^T *m (invmx A *m B)) ->
  block_mx A B B^T 0 *m schur_inverse A B = 1%:M.
Proof.
move=> pdA pdS; have unitA := posdef_unitmx pdA; have unitS := posdef_unitmx pdS.
have symA : A^T = A by case: pdA.
have symS : (B^T *m (invmx A *m B))^T = B^T *m (invmx A *m B) by case: pdS.
have AiBT : (invmx A *m B)^T = B^T *m invmx A by rewrite trmx_mul trmx_inv symA.
have SiT : (invmx (B^T *m (invmx A *m B)))^T = invmx (B^T *m (invmx A *m B)).
  by rewrite trmx_inv symS.
have SE : B^T *m invmx A *m B = B^T *m (invmx A *m B) by rewrite mulmxA.
rewrite /schur_inverse opprK mulmx_block !mul0mx !addr0.
rewrite AiBT [(_ *m invmx _)^T]trmx_mul SiT AiBT [RHS]scalar_mx_block.
congr block_mx.
- rewrite mulmxBr !mulmxA (mulmxV unitA) !mul1mx.
  by rewrite -!mulmxA subrK.
- by rewrite mulmxN !mulmxA (mulmxV unitA) mul1mx subrr.
- by rewrite mulmxBr !mulmxA SE (mulmxV unitS) mul1mx subrr.
- by rewrite !mulmxA SE (mulmxV unitS).
Qed.

Lemma schur_recipe_None n p k (A : 'M[R]_n) (B : 'M[R]_(n, p))
    (a : 'M[R]_(n, k)) :
  schur_recipe A B a None = schur_recipe A B a (Some 0).
Proof. by rewrite /schur_recipe /= !(mulmx0, oppr0, addr0). Qed.

(** The block system has one solution. *)
Lemma block_system_unique n p k (A : 'M[R]_n) (B : 'M[R]_(n, p))
    (a : 'M[R]_(n, k)) (b : 'M[R]_(p, k)) (u v : 'M[R]_(n, k) * 'M[R]_(p, k)) :
  block_mx A B B^T 0 \in unitmx ->
  A *m u.1 + B *m u.2 = a -> B^T *m u.1 = b ->
  A *m v.1 + B *m v.2 = a -> B^T *m v.1 = b ->
  u = v.
Proof.
case: u v => [x y] [x' y'] /= unitK Ha Hb Ha' Hb'.
have E : block_mx A B B^T 0 *m col_mx x y = block_mx A B B^T 0 *m col_mx x' y'.
  by rewrite !mul_block_col !mul0mx !addr0 Ha Hb Ha' Hb'.
have /eq_col_mx [-> ->] : col_mx x y = col_mx x' y'.
  by rewrite -[LHS](mulKmx unitK) E mulKmx.
by [].
Qed.

(** What [solve] computes from the stacked blocks is the recipe. *)
Lemma schur_inverse_recipe n p k (A : 'M[R]_n) (B : 'M[R]_(n, p))
    (a : 'M[R]_(n, k)) (b : option 'M[R]_(p, k)) :
  posdef A -> posdef (B^T *m (invmx A *m B)) ->
  let xy := lsubmx (schur_inverse A B) *m a in
  let xy := if b is Some b then xy + rsubmx (schur_inverse A B) *m b else xy in
  (usubmx xy, dsubmx xy) = schur_recipe A B a b.
Proof.
move=> pdA pdS.
have symS : (B^T *m (invmx A *m B))^T = B^T *m (invmx A *m B) by case: pdS.
have SiT : (invmx (B^T *m (invmx A *m B)))^T = invmx (B^T *m (invmx A *m B)).
  by rewrite trmx_inv symS.
rewrite /schur_inverse /schur_recipe opprK block_mxEh row_mxKl row_mxKr.
rewrite [(_ *m invmx _)^T]trmx_mul SiT.
case: b => [b|]; rewrite /= !mul_col_mx ?add_col_mx col_mxKu col_mxKd.
  by rewrite mulmxBl !mulNmx !mulmxN !mulmxA opprK.
by rewrite mulmxBl !mulmxA.
Qed.

(** Construction and a solve, once the Cholesky backend of [A] is there,
    for right-hand sides of one or two dimensions and of one shape. *)
Lemma PartitionedPosDefSolver_run_exact n p (A : matrix_like R n n)
    (B : matrix_like R n p) (a : array_like R n)
    (b : option (array_like R p)) tr (a0 : 'M[R]_(n, size_of tr))
    (b0 : option 'M[R]_(p, size_of tr)) (bi : bool) As :
  (p <= n)%N ->
  posdef (as_array A) ->
  posdef ((as_array B)^T *m (invmx (as_array A) *m as_array B)) ->
  outcome (chol_solver_init be HAS_CHOLMOD A) = Ok As ->
  solves (as_array A) As (@chol_solver_solve R be n) ->
  (size tr <= 1)%N ->
  as_narray a = NArray tr a0 -> omap (@as_narray R p) b = omap (NArray tr) b0 ->
  outcome (s <- PartitionedPosDefSolver_init be HAS_CHOLMOD A B bi ;;
           PartitionedPosDefSolver_solve s a b)
  = Ok (NArray tr (schur_recipe (as_array A) (as_array B) a0 b0).1,
        NArray tr (schur_recipe (as_array A) (as_array B) a0 b0).2).
Proof.
move=> le_pn pdA pdS HAs HsA le1 Ha Hb.
have [c Hc HsS] := _DensePosDefSolver_exact exact pdS.
have unitA := posdef_unitmx pdA; have unitS := posdef_unitmx pdS.
rewrite /PartitionedPosDefSolver_init ltnNge le_pn.
have -> : as_sparse_or_array A = A by case: (A).
cbv beta zeta iota delta [negb]; rewrite !bind_assoc.
rewrite (outcome_bind_ok _ HAs) !bind_assoc.
rewrite (outcome_bind_ok _ (solves_invmx _ unitA HsA)) !bind_assoc.
rewrite (outcome_bind_ok _ Hc) !bind_assoc.
case: bi.
  rewrite !bind_assoc (outcome_bind_ok _ (solves_invmx _ unitS HsS)) !bind_assoc.
  rewrite (outcome_bind_ok _ (solves_invmx _ unitA HsA)) !bind_ret_l.
  rewrite /PartitionedPosDefSolver_solve /= !mulmx1 Ha dot_matrix // bind_ret_l.
  rewrite -/(schur_inverse (as_array A) (as_array B)).
  rewrite -(schur_inverse_recipe a0 b0 pdA pdS).
  case: b b0 Hb => [b|] [b0|] //= [->].
  by rewrite dot_matrix // bind_ret_l np_iadd_same !bind_ret_l.
rewrite !bind_ret_l.
by apply: (PartitionedPosDefSolver_solve_recipe unitA unitS) Ha Hb.
Qed.

(** X3. Over exact arithmetic, for a positive definite [A] and a [B] with
    [p <= n] whose Schur complement [B^T A^-1 B] is positive definite,
    [PartitionedPosDefSolver(A, B, build_inverse=True)] is constructed (but
    for the empty sparse matrix given to CHOLMOD) and the matrix it caches
    is the inverse of the block matrix [[A, B], [B^T, 0]]. *)
Theorem partitioned_posdef_cached_inverse n p (A : matrix_like R n n)
    (B : matrix_like R n p) :
  (p <= n)%N ->
  posdef (as_array A) ->
  posdef ((as_array B)^T *m (invmx (as_array A) *m as_array B)) ->
  (0 < n)%N || ~~ (issparse A && HAS_CHOLMOD) ->
  exists2 self,
    outcome (PartitionedPosDefSolver_init be HAS_CHOLMOD A B true) = Ok self
    & exists2 inverse, PartitionedPosDefSolver_inverse self = Some inverse
      & block_mx (as_array A) (as_array B) (as_array B)^T 0 *m inverse = 1%:M.
Proof.
move=> le_pn pdA pdS ok.
have [As HAs HsA] := chol_solver_init_succeeds exact pdA ok.
have [c Hc HsS] := _DensePosDefSolver_exact exact pdS.
have unitA := posdef_unitmx pdA; have unitS := posdef_unitmx pdS.
rewrite /PartitionedPosDefSolver_init ltnNge le_pn.
have -> : as_sparse_or_array A = A by case: (A).
cbv beta zeta iota delta [negb].
eexists.
  rewrite (outcome_bind_ok _ HAs).
  rewrite (outcome_bind_ok _ (solves_invmx _ unitA HsA)).
  rewrite (outcome_bind_ok _ Hc) !bind_assoc.
  rewrite (outcome_bind_ok _ (solves_invmx _ unitS HsS)) !bind_assoc.
  by rewrite (outcome_bind_ok _ (solves_invmx _ unitA HsA)) !bind_ret_l.
eexists; first by [].
by rewrite !mulmx1 -/(schur_inverse (as_array A) (as_array B)) schur_inverseP.
Qed.

(** X4. Over exact arithmetic, for a positive definite [A], a positive
    definite Schur complement, and right-hand sides of one or two
    dimensions and of one shape after the first axis, a
    [PartitionedPosDefSolver] built with [build_inverse] returns what one
    built without it returns, also when that is an exception. *)
Theorem partitioned_posdef_build_inverse_agrees n p (A : matrix_like R n n)
    (B : matrix_like R n p) (a : array_like R n)
    (b : option (array_like R p)) tr (a0 : 'M[R]_(n, size_of tr))
    (b0 : option 'M[R]_(p, size_of tr)) :
  posdef (as_array A) ->
  posdef ((as_array B)^T *m (invmx (as_array A) *m as_array B)) ->
  (size tr <= 1)%N ->
  as_narray a = NArray tr a0 -> omap (@as_narray R p) b = omap (NArray tr) b0 ->
  outcome (s <- PartitionedPosDefSolver_init be HAS_CHOLMOD A B true ;;
           PartitionedPosDefSolver_solve s a b)
  = outcome (s <- PartitionedPosDefSolver_init be HAS_CHOLMOD A B false ;;
             PartitionedPosDefSolver_solve s a b).
Proof.
move=> pdA pdS le1 Ha Hb; case: (leqP p n) => [le_pn|lt_np]; last first.
  by rewrite /PartitionedPosDefSolver_init lt_np.
have [[e He]|[As HAs HsA]] := chol_solver_init_exact HAS_CHOLMOD exact pdA.
  rewrite /PartitionedPosDefSolver_init ltnNge le_pn.
  have -> : as_sparse_or_array A = A by case: (A).
  cbv beta zeta iota delta [negb]; rewrite !bind_assoc.
  by rewrite !(outcome_bind_err _ He).
by rewrite !(PartitionedPosDefSolver_run_exact _ le_pn pdA pdS HAs HsA le1 Ha Hb).
Qed.

(** X5. Over exact arithmetic, for a positive definite [A], a [B] with
    [p <= n] whose Schur complement is positive definite, and right-hand
    sides of one or two dimensions and of one shape after the first axis,
    [PartitionedSolver] and [PartitionedPosDefSolver] return the same pair
    [(x, y)], whatever [build_inverse] is for each; the system must not be
    the empty sparse one. *)
Theorem partitioned_solvers_agree n p (A : matrix_like R n n)
    (B : matrix_like R n p) (a : array_like R n)
    (b : option (array_like R p)) tr (a0 : 'M[R]_(n, size_of tr))
    (b0 : option 'M[R]_(p, size_of tr)) (bi bi' : bool) :
  (p <= n)%N ->
  posdef (as_array A) ->
  posdef ((as_array B)^T *m (invmx (as_array A) *m as_array B)) ->
  (0 < n)%N || ~~ issparse A ->
  (size tr <= 1)%N ->
  as_narray a = NArray tr a0 -> omap (@as_narray R p) b = omap (NArray tr) b0 ->
  exists2 xy,
    outcome (s <- PartitionedSolver_init be A B bi ;;
             PartitionedSolver_solve s a b) = Ok xy
    & outcome (s <- PartitionedPosDefSolver_init be HAS_CHOLMOD A B bi' ;;
               PartitionedPosDefSolver_solve s a b) = Ok xy.
Proof.
move=> le_pn pdA pdS ok le1 Ha Hb.
have unitK : block_mx (as_array A) (as_array B) (as_array B)^T 0 \in unitmx.
  by have /mulmx1_unit [] := schur_inverseP pdA pdS.
have ok1 : (0 < n + p)%N || ~~ issparse A.
  by case/orP: ok => [n_gt0|->]; rewrite ?orbT // addn_gt0 n_gt0.
have ok2 : (0 < n)%N || ~~ (issparse A && HAS_CHOLMOD).
  by case/orP: ok => [->|] //; rewrite negb_and => ->; rewrite orbT.
have [xy Hxy [HA HB]] :=
  PartitionedSolver_run_solves exact bi le_pn unitK ok1 le1 Ha Hb.
have [As HAs HsA] := chol_solver_init_succeeds exact pdA ok2.
exists (NArray tr xy.1, NArray tr xy.2) => //.
rewrite (PartitionedPosDefSolver_run_exact _ le_pn pdA pdS HAs HsA le1 Ha Hb).
suff -> : schur_recipe (as_array A) (as_array B) a0 b0 = xy by [].
apply: (block_system_unique unitK _ _ HA HB).
  case: b0 {Hb Hxy HB} => [b0|]; rewrite ?schur_recipe_None.
    by have [] := schur_recipe_solves a0 b0 pdA pdS.
  by have [] := schur_recipe_solves a0 0 pdA pdS.
case: b0 {Hb Hxy HB} => [b0|]; rewrite ?schur_recipe_None.
  by have [] := schur_recipe_solves a0 b0 pdA pdS.
by have [] := schur_recipe_solves a0 0 pdA pdS.
Qed.

End SchurInverse.

(** The block system with [A] the identity of order two and [B] the column
    [(1, 0)], on the reference backend. *)
Lemma block_unit :
  block_mx (as_array block_A) (as_array block_B) (as_array block_B)^T 0
    \in unitmx.
Proof.
by have /mulmx1_unit [] := schur_inverseP (posdef1 _ 2) block_schur_posdef.
Qed.

Lemma partitioned_solver_solves_block_system_witness :
  let a : 'M[rat]_(2, 1) := const_mx 1 in
  exists2 xy : 'M[rat]_(2, 1) * 'M[rat]_(1, 1),
    outcome (s <- PartitionedSolver_init ref_backend block_A block_B false ;;
             PartitionedSolver_solve s (NdArray (NArray [::] a)) None)
    = Ok (NArray [::] xy.1, NArray [::] xy.2)
    & as_array block_A *m xy.1 + as_array block_B *m xy.2 = a
      /\ (as_array block_B)^T *m xy.1 = 0.
Proof.
move=> a.
exact: (@partitioned_solver_solves_block_system rat ref_backend
          ref_backend_exact 2 1 block_A block_B (NdArray (NArray [::] a)) None
          [::] a None false isT block_unit isT isT erefl erefl).
Defined.

Lemma partitioned_solver_build_inverse_agrees_witness :
  let a : array_like rat 2 := NdArray (NArray [::] (const_mx 1)) in
  outcome (s <- PartitionedSolver_init ref_backend block_A block_B true ;;
           PartitionedSolver_solve s a None)
  = outcome (s <- PartitionedSolver_init ref_backend block_A block_B false ;;
             PartitionedSolver_solve s a None).
Proof.
move=> a.
exact: (@partitioned_solver_build_inverse_agrees rat ref_backend
          ref_backend_exact 2 1 block_A block_B a None [::] (const_mx 1) None
          block_unit isT erefl erefl).
Defined.

Lemma partitioned_posdef_cached_inverse_witness :
  exists2 self,
    outcome (PartitionedPosDefSolver_init ref_backend true block_A block_B true)
    = Ok self
    & exists2 inverse, PartitionedPosDefSolver_inverse self = Some inverse
      & block_mx (as_array block_A) (as_array block_B) (as_array block_B)^T 0
        *m inverse = 1%:M.
Proof.
exact: (@partitioned_posdef_cached_inverse rat ref_backend true
          ref_backend_exact 2 1 block_A block_B isT (posdef1 _ 2)
          block_schur_posdef isT).
Defined.

Lemma partitioned_posdef_build_inverse_agrees_witness :
  let a : array_like rat 2 := NdArray (NArray [::] (const_mx 1)) in
  outcome (s <- PartitionedPosDefSolver_init ref_backend true block_A block_B true ;;
           PartitionedPosDefSolver_solve s a None)
  = outcome (s <- PartitionedPosDefSolver_init ref_backend true block_A block_B false ;;
             PartitionedPosDefSolver_solve s a None).
Proof.
move=> a.
exact: (@partitioned_posdef_build_inverse_agrees rat ref_backend true
          ref_backend_exact 2 1 block_A block_B a None [::] (const_mx 1) None
          (posdef1 _ 2) block_schur_posdef isT erefl erefl).
Defined.

Lemma partitioned_solvers_agree_witness :
  let a : array_like rat 2 := NdArray (NArray [::] (const_mx 1)) in
  exists2 xy,
    outcome (s <- PartitionedSolver_init ref_backend block_A block_B false ;;
             PartitionedSolver_solve s a None) = Ok xy
    & outcome (s <- PartitionedPosDefSolver_init ref_backend true block_A block_B true ;;
               PartitionedPosDefSolver_solve s a None) = Ok xy.
Proof.
move=> a.
exact: (@partitioned_solvers_agree rat ref_backend true ref_backend_exact
          2 1 block_A block_B a None [::] (const_mx 1) None false true isT
          (posdef1 _ 2) block_schur_posdef isT isT erefl erefl).
Defined.

(** ** PartitionedSolver on arrays of three dimensions *)





(** ** is_positive_definite on positive definite matrices *)

Section PositiveDefiniteTrue.

Variable R : realFieldType.
Variable be : backend R.
Variable HAS_CHOLMOD : bool.

Local Notation M := (M R).

Hypothesis exact : exact_arithmetic be.

(** X6. Over exact arithmetic, [is_positive_definite] returns [True] for
    every positive definite matrix that goes to the dense factorization (a
    dense matrix, or a sparse one when CHOLMOD is missing), whether CHOLMOD
    is installed or not: the [except] clause is not reached. *)
Theorem is_positive_definite_posdef n (A : matrix_like R n n) :
  posdef (as_array A) -> issparse A ==> ~~ HAS_CHOLMOD ->
  outcome (is_positive_definite be HAS_CHOLMOD A) = Ok true.
Proof.
move=> pdA dense; rewrite /is_positive_definite outcome_try_except.
have ok : (0 < n)%N || ~~ (issparse A && HAS_CHOLMOD).
  by rewrite negb_and -implybE dense orbT.
have [s Hs] : exists s, outcome (PosDefSolver_init be HAS_CHOLMOD A false) = Ok s.
  have [c Hc _] := chol_solver_init_succeeds exact pdA ok.
  rewrite /PosDefSolver_init.
  have -> : as_sparse_or_array A = A by case: (A).
  by eexists; rewrite (outcome_bind_ok _ Hc) bind_ret_l.
have [c [inv Es]] := PosDefSolver_init_dense dense Hs.
by rewrite (outcome_bind_ok _ Hs) Es.
Qed.

End PositiveDefiniteTrue.

Lemma is_positive_definite_posdef_witness :
  outcome (is_positive_definite ref_backend false
             (Sparse (SpMatrix (1%:M : 'M[rat]_2) 2))) = Ok true.
Proof.
exact: (@is_positive_definite_posdef rat ref_backend false ref_backend_exact
          2 (Sparse (SpMatrix 1%:M 2)) (posdef1 _ 2) isT).
Defined.

(** ** The factor returned by the sparse PosDefSolver.L *)

Section SparseL.

Variable R : realFieldType.
Variable be : backend R.

Local Notation M := (M R).

(** Undoing the permutation of the rows of the factor of [A[p][:, p]]
    gives a factor of [A]. *)
Lemma row_perm_inv_factor n (p : 'S_n) (A L : 'M[R]_n) :
  L *m L^T = row_perm p (col_perm p A) ->
  row_perm (p^-1)%g L *m (row_perm (p^-1)%g L)^T = A.
Proof.
move=> HL; apply/matrixP => i j; rewrite mxE.
have := congr1 (fun X : 'M[R]_n => X ((p^-1)%g i) ((p^-1)%g j)) HL.
rewrite !mxE !permKV => <-.
by apply: eq_bigr => k _; rewrite !mxE.
Qed.

(** X7. When CHOLMOD's [L()] returns a factor [Lf] of the permuted matrix,
    [Lf Lf^T = A[P][:, P]] for the permutation [P] it reports, the matrix
    [L] that [PosDefSolver(A).L()] returns for a sparse [A] satisfies
    [L L^T = A]: the rows are put back with the inverse permutation. *)
Theorem sparse_L_factors n (a : spmatrix R n n) (bi : bool)
    (s : PosDefSolver be n) :
  outcome (PosDefSolver_init be true (Sparse a) bi) = Ok s ->
  (forall f, cholmod_cholesky be a = inr f ->
     exists2 Lf, factor_L f = inr Lf
       & toarray Lf *m (toarray Lf)^T
         = row_perm (factor_P f) (col_perm (factor_P f) (toarray a))) ->
  exists2 L, outcome (PosDefSolver_L s) = Ok (Sparse L)
           & toarray L *m (toarray L)^T = toarray a.
Proof.
move=> /PosDefSolver_init_sparse [f Hf [inv ->]] /(_ f Hf) [Lf HLf LLt].
exists (SpMatrix (row_perm (factor_P f)^-1 (toarray Lf)) (nnz Lf)).
  by rewrite /PosDefSolver_L /= /_SparsePosDefSolver_L /= /call HLf.
exact: row_perm_inv_factor.
Qed.

End SparseL.

Lemma sparse_L_factors_witness :
  exists2 s,
    outcome (PosDefSolver_init diag_backend true
               (Sparse (SpMatrix diag_4_16 2)) false) = Ok s
    & exists2 L, outcome (PosDefSolver_L s) = Ok (Sparse L)
               & toarray L *m (toarray L)^T = diag_4_16.
Proof.
eexists; first exact: (diag_PosDefSolver_init_4_16 2).
apply: (@sparse_L_factors rat diag_backend 2 (SpMatrix diag_4_16 2) false _
          (diag_PosDefSolver_init_4_16 2)).
move=> f; rewrite [cholmod_cholesky _ _]diag_cholesky_4_16 => -[<-].
eexists; first by [].
apply/matrixP => i j; rewrite !mxE !big_ord_recl big_ord0 !mxE /=.
rewrite !eqxx (inj_eq perm_inj) !rev_perm_2.
by case: i => [[|[|i]] Hi] //; case: j => [[|[|j]] Hj] //=;
   apply/eqP; vm_compute.
Defined.

(** ** GMRESSolver: the normalized system and the original one *)

Section GmresNormalized.

Variable R : realFieldType.
Variable be : backend R.

Local Notation M := (M R).

(** What construction stores, when it succeeds. *)
Lemma GMRESSolver_init_fields n (A : matrix_like R n n) drop_tol fill_factor
    normalize_inplace (self : GMRESSolver be n) :
  outcome (GMRESSolver_init be A drop_tol fill_factor normalize_inplace)
    = Ok self ->
  GMRESSolver_A self = divide_rows (csc_matrix A) (row_norms be (csc_matrix A))
  /\ GMRESSolver_n self = row_norms be (csc_matrix A).
Proof.
rewrite /GMRESSolver_init.
have -> : (if normalize_inplace
           then divide_rows (csc_matrix A) (row_norms be (csc_matrix A))
           else divide_rows (csc_matrix A) (row_norms be (csc_matrix A)))
          = divide_rows (csc_matrix A) (row_norms be (csc_matrix A)).
  by case: normalize_inplace.
move=> H; have [_ _ H1] := outcome_bind_ok_inv H.
have [ilu _ H2] := outcome_bind_ok_inv H1.
have [_ _ H3] := outcome_bind_ok_inv H2.
by move: H3 => [<-].
Qed.

Lemma toarray_csc_matrix m n (A : matrix_like R m n) :
  toarray (csc_matrix A) = as_array A.
Proof. by case: A. Qed.

(** Rows divided by nonzero numbers: a solution of the normalized system
    is a solution of the original one. *)
Lemma divide_rows_solution n (A : spmatrix R n n) (d x b : 'cV[R]_n) :
  (forall i, d i 0 != 0) ->
  toarray (divide_rows A d) *m x = \col_i (b i 0 / d i 0) ->
  toarray A *m x = b.
Proof.
move=> nz_d /matrixP H; apply/matrixP => i j; rewrite ord1.
have := H i 0; rewrite !mxE => /(congr1 (fun t => t * d i 0)).
rewrite divfK // mulr_suml => <-.
by apply: eq_bigr => l _; rewrite !mxE mulrAC divfK.
Qed.

(** X8. When no row norm of [A] is zero, and GMRES returns an exact
    solution of the system it is given, [GMRESSolver(A).solve(b)] returns a
    solution of [A x = b]: the division of [b] by the row norms in [solve]
    undoes the normalization of the rows of [A] done at construction, with
    [normalize_inplace] and without. *)
Theorem gmres_solves_original_system n (A : matrix_like R n n)
    (drop_tol fill_factor : R) (normalize_inplace : bool)
    (self : GMRESSolver be n) (b : 'cV[R]_n) (tol : R)
    (l2s : seq R) (x : 'cV[R]_n) (info : int) :
  (forall i, row_norms be (csc_matrix A) i 0 != 0) ->
  outcome (GMRESSolver_init be A drop_tol fill_factor normalize_inplace)
    = Ok self ->
  let rhs : 'cV[R]_n := \col_i (b i 0 / GMRESSolver_n self i 0) in
  gmres (GMRESSolver_A self) rhs tol (GMRESSolver_M self)
    = inr (l2s, x, info) ->
  toarray (GMRESSolver_A self) *m x = rhs ->
  outcome (GMRESSolver_solve self b tol) = Ok x /\ as_array A *m x = b.
Proof.
move=> nz_n /GMRESSolver_init_fields [EA En] rhs Hg Hx; split.
  rewrite /GMRESSolver_solve -/rhs Hg /= /debug /emit /bind /=.
  by case: (gmres_callbacks 0 l2s) (outcome_gmres_callbacks 0 l2s) => t r /= ->.
rewrite -toarray_csc_matrix; apply: divide_rows_solution nz_n _.
by rewrite -EA Hx /rhs En.
Qed.

End GmresNormalized.

(** The row norms of [diag(4, 16)] on the reference backend, and the
    matrix with its rows divided by them. *)
Lemma ref_row_norms_4_16 nz i :
  row_norms ref_backend (SpMatrix diag_4_16 nz) i 0
  = if (i : nat) == 0%N then 4%:R else 16%:R.
Proof.
rewrite !mxE !big_ord_recl big_ord0 /= !mxE.
by case: i => [[|[|i]] Hi] //=; apply/eqP; vm_compute.
Qed.

Lemma ref_divide_rows_4_16 nz :
  toarray (divide_rows (SpMatrix diag_4_16 nz)
             (row_norms ref_backend (SpMatrix diag_4_16 nz)))
  = 1%:M.
Proof.
apply/matrixP => i j; rewrite [LHS]mxE ref_row_norms_4_16 /= !mxE.
by case: i => [[|[|i]] Hi] //; case: j => [[|[|j]] Hj] //=;
   apply/eqP; vm_compute.
Qed.

Lemma gmres_solves_original_system_witness :
  let A : matrix_like rat 2 2 := Sparse (SpMatrix diag_4_16 2) in
  exists2 self,
    outcome (GMRESSolver_init ref_backend A 0 0 false) = Ok self
    & exists x, outcome (GMRESSolver_solve self col_2_4 0) = Ok x
                /\ as_array A *m x = col_2_4.
Proof.
move=> A.
pose self := @MkGMRESSolver _ ref_backend 2
               (divide_rows (csc_matrix A) (row_norms ref_backend (csc_matrix A)))
               tt (row_norms ref_backend (csc_matrix A)).
exists self => //; eexists.
apply: (@gmres_solves_original_system rat ref_backend 2 A 0 0 false self
          col_2_4 0 [::] _ 0).
- by move=> i; rewrite ref_row_norms_4_16; case: ifP.
- by [].
- by [].
- rewrite [toarray (GMRESSolver_A self)](ref_divide_rows_4_16 2).
  by rewrite invmx1 !mul1mx.
Defined.


(** ** PosDefSolver.log_det *)

Section LogDet.

Variable R : realFieldType.
Variable be : backend R.

(** [np.log] turns products of positive numbers into sums. *)
Hypothesis np_logM : forall x y : R,
  0 < x -> 0 < y -> np_log be (x * y) = np_log be x + np_log be y.

Lemma np_log1 : np_log be 1 = 0.
Proof.
have := np_logM ltr01 ltr01.
by rewrite mulr1 -{1}[np_log be 1]addr0 => /addrI <-.
Qed.

Lemma np_log_prod n (f : 'I_n -> R) :
  (forall i, 0 < f i) ->
  np_log be (\prod_i f i) = \sum_i np_log be (f i).
Proof.
move=> f_gt0.
suff [] : 0 < \prod_i f i /\ np_log be (\prod_i f i) = \sum_i np_log be (f i)
  by [].
elim/big_rec2: _ => [|i y x _ [x_gt0 <-]]; first by rewrite np_log1.
by rewrite mulr_gt0 // np_logM.
Qed.

Lemma det_row_col_perm n (p : 'S_n) (A : 'M[R]_n) :
  \det (row_perm p (col_perm p A)) = \det A.
Proof.
rewrite row_permE col_permE !det_mulmx !det_perm odd_permV mulrCA mulrA.
by rewrite -mulrA -expr2 sqrr_sign mulr1.
Qed.

(** X10. When [np.log] turns products of positive numbers into sums,
    [PosDefSolver.log_det] is the logarithm of the determinant of [A] on
    both backends: on the dense one when the stored factor is lower
    triangular with a positive diagonal and [L L^T = A], on the sparse one
    when CHOLMOD's [D] is positive and [A[P][:, P] = L D L^T] for a lower
    triangular [L] with ones on its diagonal. *)
Theorem log_det_is_log_of_det n (A : 'M[R]_n) (s : PosDefSolver be n) :
  match PosDefSolver_solver s with
  | DensePosDefSolver chol =>
      is_trig_mx chol /\ (forall i, 0 < chol i i) /\ chol *m chol^T = A
  | SparsePosDefSolver f =>
      (forall i, 0 < sp_d f i 0)
      /\ exists L : 'M[R]_n,
           [/\ is_trig_mx L, forall i, L i i = 1
             & L *m diag_mx (sp_d f)^T *m L^T
               = row_perm (sp_p f) (col_perm (sp_p f) A)]
  end ->
  PosDefSolver_log_det s = np_log be (\det A).
Proof.
rewrite /PosDefSolver_log_det; case: (PosDefSolver_solver s) => [f|chol].
  case=> d_gt0 [L [trigL diagL HL]].
  rewrite /_SparsePosDefSolver_log_det -(det_row_col_perm (sp_p f)) -HL.
  rewrite !det_mulmx det_tr det_diag (det_trig trigL).
  rewrite (eq_bigr (fun=> 1)) // prodr_const expr1n mul1r mulr1.
  have dT_gt0 : forall i, 0 < (sp_d f)^T 0 i by move=> i; rewrite mxE.
  by rewrite (np_log_prod dT_gt0); apply: eq_bigr => i _; rewrite mxE.
case=> trig [diag_gt0 <-].
rewrite /_DensePosDefSolver_log_det det_mulmx det_tr (det_trig trig).
rewrite np_logM ?prodr_gt0 // (np_log_prod diag_gt0).
by rewrite mulr2n mulrDl mul1r.
Qed.

End LogDet.

(** The logarithm of the reference backend turns products into sums. *)
Lemma ref_log2M (x y : rat) :
  0 < x -> 0 < y -> ref_log2 (x * y) = ref_log2 x + ref_log2 y.
Proof.
move=> x_gt0 y_gt0; have xy_gt0 : 0 < x * y by rewrite mulr_gt0.
have nz (z : rat) : (denq z)%:~R != 0 :> rat by rewrite intr_eq0 denq_eq0.
have pos (z : rat) : 0 < z -> (0 < `|numq z|)%N /\ (0 < `|denq z|)%N.
  by move=> z_gt0; rewrite !absz_gt0 denq_eq0 numq_eq0 gt_eqF.
have [nx dx] := pos _ x_gt0; have [ny dy] := pos _ y_gt0.
have [nxy dxy] := pos _ xy_gt0.
have E : (`|numq (x * y)| * (`|denq x| * `|denq y|)
          = `|numq x| * `|numq y| * `|denq (x * y)|)%N.
  have : (numq (x * y))%:~R / (denq (x * y))%:~R
         = (numq x)%:~R / (denq x)%:~R * ((numq y)%:~R / (denq y)%:~R) :> rat.
    by rewrite !divq_num_den.
  rewrite mulf_div => /eqP; rewrite eqr_div ?mulf_neq0 //.
  rewrite -!rmorphM /= eqr_int => /eqP /(congr1 absz).
  by rewrite !abszM.
have := congr1 (logn 2) E; rewrite !lognM ?muln_gt0 ?nx ?ny ?dx ?dy // => H.
have HQ := congr1 (fun m : nat => m%:R : rat) H; rewrite !natrD in HQ.
rewrite /ref_log2.
have -> : (logn 2 `|numq (x * y)|)%:R
          = (logn 2 `|numq x|)%:R + (logn 2 `|numq y|)%:R
            + (logn 2 `|denq (x * y)|)%:R
            - ((logn 2 `|denq x|)%:R + (logn 2 `|denq y|)%:R) :> rat.
  by rewrite -HQ addrK.
by rewrite addrAC addrK opprD addrACA.
Qed.

Lemma diag_2_4_factor : diag_2_4 *m diag_2_4^T = diag_4_16.
Proof.
apply/matrixP => i j; rewrite !mxE !big_ord_recl big_ord0 !mxE.
by case: i => [[|[|i]] Hi] //; case: j => [[|[|j]] Hj] //=;
   apply/eqP; vm_compute.
Qed.

Lemma log_det_is_log_of_det_witness :
  PosDefSolver_log_det
    (MkPosDefSolver (DensePosDefSolver ref_backend diag_2_4) None)
  = np_log ref_backend (\det diag_4_16)
  /\ exists2 s,
       outcome (PosDefSolver_init diag_backend true
                  (Sparse (SpMatrix diag_4_16 2)) false) = Ok s
       & PosDefSolver_log_det s = np_log diag_backend (\det diag_4_16).
Proof.
split.
  apply: (@log_det_is_log_of_det rat ref_backend ref_log2M 2 diag_4_16) => /=.
  split; last split; last exact: diag_2_4_factor.
    apply/is_trig_mxP => i j lt_ij; rewrite mxE.
    by case: eqP lt_ij => // ->; rewrite ltnn.
  by move=> i; rewrite mxE eqxx; case: ifP.
eexists; first exact: (diag_PosDefSolver_init_4_16 2).
apply: (@log_det_is_log_of_det rat diag_backend ref_log2M 2 diag_4_16) => /=.
split; first by move=> i; rewrite !mxE eqxx; case: ifP.
exists 1%:M; split; first exact: scalar_mx_is_trig.
  by move=> i; rewrite mxE eqxx.
rewrite mul1mx trmx1 mulmx1; apply/matrixP => i j; rewrite !mxE.
by rewrite eqxx (inj_eq perm_inj); case: (i == j).
Defined.

(** ** rbf.gpr: the cache of a memoized function *)

Section MemoizeFacts.

Variable args : Type.
Variable bytes : eqType.
Variable V : Type.
Variable tobytes : args -> bytes.

Local Notation ndarray := (Gpr.ndarray V).
Local Notation _Memoize := (Gpr._Memoize args bytes V).
Local Notation _Memoize_init := (@Gpr._Memoize_init args bytes V).
Local Notation __call__ := (Gpr.__call__ tobytes).
Local Notation call_all := (Gpr.call_all tobytes).
Local Notation set_cache_size := (@Gpr.set_cache_size args bytes V).
Local Notation bounded := (@Gpr.bounded args bytes V).
Local Notation contains := (@Gpr.contains bytes V).
Local Notation getitem := (@Gpr.getitem bytes V).
Local Notation pop_while := (@Gpr.pop_while bytes V).
Local Notation read_only := (@Gpr.read_only V).

Implicit Types (self s : _Memoize) (c : seq (bytes * ndarray)) (a : args).

Lemma getitem_rcons c key v :
  ~~ contains c key -> getitem (rcons c (key, v)) key = Gpr.Val v.
Proof.
rewrite /Gpr.contains /Gpr.getitem filter_rcons /= eqxx => notin.
suff -> : [seq kv <- c | kv.1 == key] = [::] by [].
elim: c notin => [|kv c IH] //=; rewrite inE negb_or eq_sym.
by case/andP=> /negbTE -> /IH.
Qed.

(** On an ordered cache, the loop of [set_cache_size] leaves the newest
    items, as many as the new size allows. *)
Lemma pop_while_nonneg c (sz : nat) :
  pop_while true c sz%:Z = (Gpr.Val tt, drop (size c - sz) c).
Proof.
elim: c => [|kv c IH] //=.
rewrite ltz_nat; case: ltnP => [lt_sz|le_sz].
  by rewrite IH subSn.
by move: (le_sz); rewrite -subn_eq0 => /eqP ->; rewrite drop0.
Qed.

Lemma pop_while_neg c (sz : int) :
  sz < 0 -> pop_while true c sz = (Gpr.Exc Gpr.KeyError, [::]).
Proof.
move=> sz_lt0; elim: c => [|kv c IH] /=; first by rewrite sz_lt0.
by rewrite (lt_le_trans sz_lt0).
Qed.

Lemma all_items_rcons (P : bytes * ndarray -> Prop) c kv :
  Gpr.all_items P c -> P kv -> Gpr.all_items P (rcons c kv).
Proof. by elim: c => [|kv' c IH] //= [Pkv' /IH H] /H. Qed.

Lemma getitem_contains (P : bytes * ndarray -> Prop) c key :
  contains c key -> Gpr.all_items P c ->
  exists2 v, getitem c key = Gpr.Val v & P (key, v).
Proof.
rewrite /Gpr.contains /Gpr.getitem.
elim: c => [|[k v] c IH] //=; rewrite inE eq_sym.
case: eqP => [->|_] /=; first by move=> _ [Pkv _]; exists v.
by move=> key_in [_ /(IH key_in)].
Qed.

(** X11. A memoized function starts with an ordered cache of at most
    [cache_size] items; a call keeps it so, whatever it returns or raises;
    and [set_cache_size] with a size that is not negative returns with the
    cache cut down to it. *)
Theorem memoize_cache_bounded (fin : args -> Gpr.res ndarray) self a
    (val : nat) :
  [/\ bounded (_Memoize_init fin),
      bounded self -> bounded (__call__ self a).2
    & Gpr.cache_is_OrderedDict self ->
      (set_cache_size self val%:Z).1 = Gpr.Val tt
      /\ bounded (set_cache_size self val%:Z).2].
Proof.
split=> //.
- case=> ordered le_sz; rewrite /Gpr.__call__.
  case: ifP => _ //; case: (Gpr.fin self a) => [output|e] //.
  case: eqP => [Esz|/eqP ne_sz].
    rewrite ordered /=; case Ec: (Gpr.cache self) => [|kv c'] //=.
    split=> //=; apply: le_trans le_sz.
    by rewrite Ec /= lez_nat.
  split=> //=; rewrite size_rcons.
  by rewrite -addn1 PoszD -ltzD1 lterD2 lt_neqAle ne_sz.
- move=> ordered; rewrite /Gpr.set_cache_size ordered pop_while_nonneg /=.
  split=> //; split=> //=.
  by rewrite size_drop lez_nat leq_subLR addnC -leq_subLR.
Qed.

(** One call on a sound, ordered cache with room for an item. *)
Lemma __call___sound self a :
  injective tobytes ->
  Gpr.cache_is_OrderedDict self -> 0 < Gpr.cache_size self ->
  Gpr.sound tobytes self ->
  [/\ (__call__ self a).1 = read_only (Gpr.fin self a),
      Gpr.cache_is_OrderedDict (__call__ self a).2,
      Gpr.cache_size (__call__ self a).2 = Gpr.cache_size self,
      Gpr.fin (__call__ self a).2 = Gpr.fin self
    & Gpr.sound tobytes (__call__ self a).2].
Proof.
move=> inj ordered sz_gt0 Hsound; rewrite /Gpr.__call__.
case: ifPn => [notin|/negPn key_in]; last first.
  have [v -> /(_ a (erefl _)) ->] := getitem_contains key_in Hsound.
  by split.
case Ef: (Gpr.fin self a) => [output|e] //=.
case: eqP => [Esz|_].
  rewrite ordered /=; case Ec: (Gpr.cache self) Esz Hsound => [|kv c'] /=.
    by move=> E0; rewrite -E0 in sz_gt0.
  by rewrite /Gpr.sound Ec /= => _ [_ Hc']; split.
rewrite getitem_rcons //=; split=> //.
apply: all_items_rcons => //= a' /inj ->.
by rewrite Ef.
Qed.

Lemma call_all_sound self xs :
  injective tobytes ->
  Gpr.cache_is_OrderedDict self -> 0 < Gpr.cache_size self ->
  Gpr.sound tobytes self ->
  (call_all self xs).1 = [seq read_only (Gpr.fin self x) | x <- xs].
Proof.
move=> inj; elim: xs self => [|x xs IH] self ordered sz_gt0 Hsound //=.
have [Er ordered' Esz Efin Hsound'] := __call___sound x inj ordered sz_gt0 Hsound.
case Ecall: (__call__ self x) Er ordered' Esz Efin Hsound' => [r self'] /=.
move=> -> ordered' Esz Efin Hsound'.
have := IH self' ordered'; rewrite Esz Efin => /(_ sz_gt0 Hsound').
by case: (call_all self' xs) => rs self'' /= ->.
Qed.

(** X12. When different arguments have different keys, a memoized
    function, called any number of times from its creation, returns at each
    call what [fin] returns for the arguments of that call, made read-only,
    and raises what [fin] raises. *)
Theorem memoize_transparent (fin : args -> Gpr.res ndarray) (xs : seq args) :
  injective tobytes ->
  (call_all (_Memoize_init fin) xs).1 = [seq read_only (fin x) | x <- xs].
Proof. by move=> inj; rewrite call_all_sound. Qed.

(** X13. The key is all that the cache sees of the arguments: when [a]
    and [a'] have the same key (the same bytes, in arrays of different
    shapes or types), a call with [a] that stores its result makes the next
    call with [a'] return the result for [a], whatever [fin] gives for
    [a']. *)
Theorem memoize_key_collision self a a' (v : ndarray) :
  tobytes a = tobytes a' ->
  ~~ contains (Gpr.cache self) (tobytes a) ->
  (size (Gpr.cache self))%:Z != Gpr.cache_size self ->
  Gpr.fin self a = Gpr.Val v ->
  (__call__ (__call__ self a).2 a').1
  = Gpr.Val (Gpr.NdArray (Gpr.contents v) false).
Proof.
move=> Ekey notin /negbTE ne_sz Ef.
rewrite {2}/Gpr.__call__ notin Ef ne_sz /=.
rewrite /Gpr.__call__ /= -Ekey.
have -> : contains (rcons (Gpr.cache self)
                      (tobytes a, Gpr.NdArray (Gpr.contents v) false))
                   (tobytes a).
  by rewrite /Gpr.contains map_rcons mem_rcons inE eqxx.
by rewrite /= getitem_rcons.
Qed.

(** X14. On an ordered cache, [set_cache_size(val)] with [val >= 0]
    returns and leaves the [val] newest items (all of them when there are
    fewer); with [val < 0] it empties the cache and raises [KeyError], and
    the negative size stays in place. *)
Theorem set_cache_size_keeps_newest self (val : int) :
  Gpr.cache_is_OrderedDict self ->
  set_cache_size self val
  = (if val < 0 then Gpr.Exc Gpr.KeyError else Gpr.Val tt,
     Gpr.Mk_Memoize
       (if val < 0 then [::]
        else drop (size (Gpr.cache self) - `|val|) (Gpr.cache self))
       true (Gpr.links self) (Gpr.fin self) val).
Proof.
move=> ordered; rewrite /Gpr.set_cache_size ordered.
case: ltP => [lt0|ge0]; first by rewrite pop_while_neg.
by rewrite -{1}(gez0_abs ge0) pop_while_nonneg.
Qed.

(** X15. After [set_cache_size(0)] a memoized function cannot be called:
    every call for which [fin] returns ends with the [KeyError] of popping
    from the empty cache. *)
Theorem memoize_cache_size_zero self a (v : ndarray) :
  Gpr.cache_is_OrderedDict self ->
  Gpr.fin self a = Gpr.Val v ->
  (set_cache_size self 0).1 = Gpr.Val tt
  /\ (__call__ (set_cache_size self 0).2 a).1 = Gpr.Exc Gpr.KeyError.
Proof.
move=> ordered Ef; rewrite /Gpr.set_cache_size ordered.
rewrite (pop_while_nonneg _ 0) subn0 drop_size /=; split=> //.
by rewrite /Gpr.__call__ /= Ef.
Qed.

End MemoizeFacts.

(** ** rbf.gpr: clear_cache *)

Section ClearCache.

Variable args : Type.
Variable bytes : eqType.
Variable V : Type.
Variable tobytes : args -> bytes.

Local Notation ndarray := (Gpr.ndarray V).
Local Notation _Memoize := (Gpr._Memoize args bytes V).
Local Notation heap := (Gpr.heap args bytes V).
Local Notation __call__ := (Gpr.__call__ tobytes).
Local Notation call_all := (Gpr.call_all tobytes).
Local Notation lookup := (@Gpr.lookup args bytes V).
Local Notation cleared := (@Gpr.cleared args bytes V).
Local Notation clear_cache := (@Gpr.clear_cache args bytes V).
Local Notation contains := (@Gpr.contains bytes V).
Local Notation read_only := (@Gpr.read_only V).

Implicit Types (h : heap) (s : _Memoize) (l : Gpr.loc).

Lemma lookup_lt h l s : lookup h l = Some s -> (l < size h)%N.
Proof.
rewrite /Gpr.lookup; case: ltnP => // le_l.
by rewrite nth_default // size_map.
Qed.

Lemma lookup_set_nth h l s0 s' i :
  (l < size h)%N ->
  lookup (set_nth s0 h l s') i = if i == l then Some s' else lookup h i.
Proof.
rewrite /Gpr.lookup.
elim: h l i => [|s h IH] [|l] [|i] //=.
by rewrite ltnS => /IH ->.
Qed.

(** What [clear_cache] may do to a store: every instance is left as it
    is, or its cache becomes an empty [dict]. *)
Lemma clear_cache_frame depth h l h' :
  clear_cache depth h l = Gpr.Val h' ->
  forall i, lookup h' i = lookup h i
            \/ lookup h' i = omap cleared (lookup h i).
Proof.
elim: depth h l h' => [|depth IH] h l h' //=.
case El: (lookup h l) => [s|]; last by move=> [<-] i; left.
have lt_l := lookup_lt El.
have: forall i, lookup (set_nth s h l (cleared s)) i = lookup h i
                \/ lookup (set_nth s h l (cleared s)) i
                   = omap cleared (lookup h i).
  move=> i; rewrite lookup_set_nth //; case: eqP => [->|_]; last by left.
  by right; rewrite El.
elim: (Gpr.links s) (set_nth _ _ _ _) => [|a ls IHls] h1 Hh1 /=.
  by move=> [<-].
case Ea: (clear_cache depth h1 a) => [h2|e] /=; last first.
  by elim: ls {IHls} => [|a' ls IHls].
apply: IHls => i.
case: (IH _ _ _ Ea i) (Hh1 i) => -> [->|->]; try by [left|right].
by right; case: (lookup h i) => [s1|].
Qed.

(** After [clear_cache] the instance has an empty [dict] for a cache. *)
Lemma clear_cache_self depth h l h' s :
  clear_cache depth h l = Gpr.Val h' -> lookup h l = Some s ->
  lookup h' l = Some (cleared s).
Proof.
case: depth => [|depth] //= Hclear El; move: Hclear; rewrite El.
have lt_l := lookup_lt El.
have: lookup (set_nth s h l (cleared s)) l = Some (cleared s).
  by rewrite lookup_set_nth // eqxx.
elim: (Gpr.links s) (set_nth _ _ _ _) => [|a ls IHls] h1 Hh1 /=.
  by move=> [<-].
case Ea: (clear_cache depth h1 a) => [h2|e] /=; last first.
  by elim: ls {IHls} => [|a' ls IHls].
apply: IHls.
by case: (clear_cache_frame Ea l) => ->; rewrite Hh1.
Qed.

(** Calls with new keys on a cache that is a [dict] with room for them. *)
Lemma call_all_dict s (xs : seq args) :
  Gpr.cache_is_OrderedDict s = false ->
  (forall x, exists v, Gpr.fin s x = Gpr.Val v) ->
  uniq ([seq kv.1 | kv <- Gpr.cache s] ++ [seq tobytes x | x <- xs]) ->
  (size (Gpr.cache s) + size xs)%:Z <= Gpr.cache_size s ->
  [/\ (call_all s xs).1 = [seq read_only (Gpr.fin s x) | x <- xs],
      Gpr.cache_is_OrderedDict (call_all s xs).2 = false,
      Gpr.fin (call_all s xs).2 = Gpr.fin s,
      Gpr.cache_size (call_all s xs).2 = Gpr.cache_size s
    & [seq kv.1 | kv <- Gpr.cache (call_all s xs).2]
      = [seq kv.1 | kv <- Gpr.cache s] ++ [seq tobytes x | x <- xs]].
Proof.
move=> dict total; elim: xs s dict total => [|x xs IH] s dict total /=.
  by rewrite cats0.
rewrite cat_uniq /= => /and3P [uniq_c /norP [x_notin notin] /andP [x_new uniq_xs]].
rewrite addnS => le_sz.
have [v Ev] := total x.
have ne_sz : ((size (Gpr.cache s))%:Z == Gpr.cache_size s) = false.
  apply/negbTE; rewrite neq_lt; apply/orP; left.
  by apply: lt_le_trans le_sz; rewrite ltz_nat ltnS leq_addr.
have Ecall : __call__ s x
             = (Gpr.Val (Gpr.NdArray (Gpr.contents v) false),
                Gpr.set_cache s (rcons (Gpr.cache s)
                   (tobytes x, Gpr.NdArray (Gpr.contents v) false))).
  by rewrite /Gpr.__call__ x_notin Ev ne_sz /= getitem_rcons.
rewrite Ecall.
set s1 := Gpr.set_cache _ _.
have [] := IH s1 dict total.
- rewrite /= map_rcons -cats1 -catA /= cat_uniq uniq_c /= negb_or x_notin.
  by rewrite notin x_new uniq_xs.
- by rewrite /= size_rcons addSn.
case: (call_all s1 xs) => rs s2 /= -> -> -> -> ->.
by rewrite Ev /= map_rcons -cats1 -catA.
Qed.

(** X16. After [clear_cache] the cache is a plain [dict]: the memoized
    function stores the results of as many new keys as [cache_size], and
    from then on every call with yet another key ends with a [TypeError],
    that of [popitem(0)] on a [dict]. *)
Theorem clear_cache_then_full depth h l h' s (xs : seq args) (a : args) :
  clear_cache depth h l = Gpr.Val h' -> lookup h l = Some s ->
  (forall x, exists v, Gpr.fin s x = Gpr.Val v) ->
  uniq [seq tobytes x | x <- rcons xs a] ->
  (size xs)%:Z = Gpr.cache_size s ->
  exists2 s', lookup h' l = Some s'
    & (call_all s' xs).1 = [seq read_only (Gpr.fin s x) | x <- xs]
      /\ (__call__ (call_all s' xs).2 a).1 = Gpr.Exc Gpr.TypeError.
Proof.
move=> Hclear El total; rewrite map_rcons rcons_uniq => /andP [a_new uniq_xs] Esz.
exists (cleared s); first exact: clear_cache_self Hclear El.
have [] := @call_all_dict (cleared s) xs (erefl _) total.
- by [].
- by rewrite /= add0n Esz.
case: (call_all (cleared s) xs) => rs s2 /= -> dict Efin Ecs Ekeys; split=> //.
have [v Ev] := total a.
rewrite /Gpr.__call__ /Gpr.contains Ekeys a_new Efin Ev Ecs -Esz dict.
have -> : size (Gpr.cache s2) = size xs.
  by rewrite -(size_map (fun kv => kv.1)) Ekeys size_map.
by rewrite eqxx.
Qed.

(** The only exception of [clear_cache] is that of the recursion. *)
Lemma foldl_clear_cache_Exc depth (ls : seq Gpr.loc) e e0 :
  foldl (fun acc a => Gpr.bind acc (fun h' => clear_cache depth h' a))
        (Gpr.Exc e0) ls = Gpr.Exc e -> e = e0.
Proof. by elim: ls => [|a ls IH] //= [->]. Qed.

Lemma clear_cache_Exc depth h l e :
  clear_cache depth h l = Gpr.Exc e -> e = Gpr.RecursionError.
Proof.
elim: depth h l e => [|depth IH] h l e /=; first by case.
case: (lookup h l) => [s|] //.
elim: (Gpr.links s) (set_nth _ _ _ _) => [|a ls IHls] h1 //=.
case Ea: (clear_cache depth h1 a) => [h2|e1] /=; first exact: IHls.
by move=> /foldl_clear_cache_Exc ->; apply: IH Ea.
Qed.

(** X17. A memoized function that is among its own links cannot clear its
    cache: [clear_cache] calls itself without end, and the call ends with
    [RecursionError] whatever depth of recursion the interpreter allows. *)
Theorem clear_cache_self_link depth h l s :
  lookup h l = Some s -> l \in Gpr.links s ->
  clear_cache depth h l = Gpr.Exc Gpr.RecursionError.
Proof.
elim: depth h s => [|depth IH] h s //= El l_in; rewrite El.
have lt_l := lookup_lt El.
have: exists2 s1, lookup (set_nth s h l (cleared s)) l = Some s1
                & l \in Gpr.links s1.
  by exists (cleared s); rewrite ?lookup_set_nth ?eqxx.
elim: (Gpr.links s) l_in (set_nth _ _ _ _) => [|a ls IHls] //= l_in h1 [s1 E1 in1].
case Ea: (clear_cache depth h1 a) => [h2|e1] /=; last first.
  rewrite (clear_cache_Exc Ea) {Ea IHls l_in}.
  by elim: ls => [|a' ls IHls].
move: l_in; rewrite inE => /orP [/eqP El_a|l_in].
  by rewrite -El_a (IH _ _ E1 in1) in Ea.
apply: IHls => //.
case: (clear_cache_frame Ea l) => ->; rewrite E1 /=; first by exists s1.
by exists (cleared s1).
Qed.

End ClearCache.

Lemma memoize_transparent_witness :
  (Gpr.call_all id (@Gpr._Memoize_init nat nat nat example_fin) [:: 1; 2; 1]%N).1
  = [seq Gpr.read_only (example_fin x) | x <- [:: 1; 2; 1]%N].
Proof.
apply: (@memoize_transparent nat nat nat id example_fin [:: 1; 2; 1]%N).
by move=> x y.
Defined.

Lemma memoize_key_collision_witness :
  (Gpr.__call__ (fun _ : nat => 0%N)
     (Gpr.__call__ (fun _ : nat => 0%N) (example_memoize 1000) 1%N).2 2%N).1
  = Gpr.Val (Gpr.NdArray 1%N false).
Proof.
exact: (@memoize_key_collision nat nat nat (fun _ => 0%N)
          (example_memoize 1000) 1%N 2%N (Gpr.NdArray 1%N true)
          (erefl _) isT isT (erefl _)).
Defined.

Lemma set_cache_size_keeps_newest_witness :
  Gpr.set_cache_size (example_memoize 1000) (- 1)
  = (Gpr.Exc Gpr.KeyError, example_memoize (- 1)).
Proof.
exact: (@set_cache_size_keeps_newest nat nat nat (example_memoize 1000)
          (- 1) isT).
Defined.

Lemma memoize_cache_size_zero_witness :
  (Gpr.set_cache_size (example_memoize 1000) 0).1 = Gpr.Val tt
  /\ (Gpr.__call__ id (Gpr.set_cache_size (example_memoize 1000) 0).2 5%N).1
     = Gpr.Exc Gpr.KeyError.
Proof.
exact: (@memoize_cache_size_zero nat nat nat id (example_memoize 1000) 5%N
          (Gpr.NdArray 5%N true) isT (erefl _)).
Defined.

Lemma clear_cache_then_full_witness :
  exists2 s', Gpr.lookup [:: Gpr.cleared (example_memoize 2)] 0 = Some s'
    & (Gpr.call_all id s' [:: 1; 2]%N).1
      = [seq Gpr.read_only (example_fin x) | x <- [:: 1; 2]%N]
      /\ (Gpr.__call__ id (Gpr.call_all id s' [:: 1; 2]%N).2 3%N).1
         = Gpr.Exc Gpr.TypeError.
Proof.
apply: (@clear_cache_then_full nat nat nat id 1 [:: example_memoize 2] 0
          [:: Gpr.cleared (example_memoize 2)] (example_memoize 2)
          [:: 1; 2]%N 3%N (erefl _) (erefl _)) => //.
by move=> x; exists (Gpr.NdArray x true).
Defined.

Lemma clear_cache_self_link_witness :
  Gpr.clear_cache 1000 example_self_linked 0 = Gpr.Exc Gpr.RecursionError.
Proof.
exact: (@clear_cache_self_link nat nat nat 1000 example_self_linked 0 _
          (erefl _) isT).
Defined.

(** ** rbf.gpr: sums, differences, multiples and derivatives *)

Section ProcessAlgebra.

Variable R : realFieldType.

Local Notation GaussianProcess := (Gpr.GaussianProcess R).
Local Notation "x <~ m ;; k" := (Gpr.bind m (fun x => k))
  (at level 100, m at next level, right associativity).

Implicit Types (gp g : GaussianProcess) (d diff : Gpr.diffspec).

Lemma dims_conflict_None (D : option nat) : Gpr.dims_conflict D None = false.
Proof. by case: D. Qed.

(** X18. Whenever [gp1.subtract(gp2)] returns, it is the process that
    [gp1.add(gp2.scale(-1))] returns: the same order, no [dim], and the same
    mean and covariance functions. *)
Theorem subtract_as_add_scale gp1 gp2 g :
  Gpr.subtract gp1 gp2 = Gpr.Val g ->
  exists2 g', Gpr.add gp1 (Gpr.scale gp2 (- 1)) = Gpr.Val g'
            & Gpr.same_process g g'.
Proof.
rewrite /Gpr.subtract /Gpr.add /= dims_conflict_None.
case: ifP => // _ [<-]; eexists; first by [].
split=> //=.
- by rewrite oppr_eq0 oner_eq0.
- move=> x diff; case: (Gpr._mean gp1 x diff) => [m1|e] //=.
  by case: (Gpr._mean gp2 x diff) => [m2|e] //=; rewrite scaleN1r.
- move=> x1 x2 diff1 diff2.
  case: (Gpr._covariance gp1 x1 x2 diff1 diff2) => [c1|e] //=.
  case: (Gpr._covariance gp2 x1 x2 diff1 diff2) => [c2|e] //=.
  by rewrite sqrrN expr1n scale1r.
Qed.

(** X19. A sum has no [dim]: when [gp1] and [gp3] have different
    dimensions, [gp1.add(gp3)] raises the [ValueError] of inconsistent
    dimensions, and yet [gp1.add(gp2).add(gp3)] returns whenever
    [gp1.add(gp2)] does. *)
Theorem sum_forgets_dim gp1 gp2 gp3 g :
  Gpr.dims_conflict (Gpr.dim gp1) (Gpr.dim gp3) ->
  Gpr.add gp1 gp2 = Gpr.Val g ->
  Gpr.add gp1 gp3
  = Gpr.Exc (Gpr.ValueError "The number of spatial dimensions for the GaussianProcesses are inconsistent")
  /\ exists g', Gpr.add g gp3 = Gpr.Val g'.
Proof.
move=> conflict; rewrite /Gpr.add conflict; case: ifP => // _ [<-] /=.
by split=> //; eexists.
Qed.

(** X20. Scaling by [c] and then by [d] gives the process that scaling by
    [d * c] gives: the same order, which is [-1] as soon as one factor is
    zero, and the same mean and covariance functions. *)
Theorem scale_scale gp (c d : R) :
  Gpr.same_process (Gpr.scale (Gpr.scale gp c) d) (Gpr.scale gp (d * c)).
Proof.
split=> //=.
- by rewrite mulf_eq0 negb_or; case: (d != 0); case: (c != 0).
- move=> x diff; case: (Gpr._mean gp x diff) => [m|e] //=.
  by rewrite scalerA.
- move=> x1 x2 diff1 diff2.
  case: (Gpr._covariance gp x1 x2 diff1 diff2) => [cov|e] //=.
  by rewrite scalerA exprMn.
Qed.

End ProcessAlgebra.

(** ** rbf.gpr: conditioning on observations without noise *)

Section Condition.

Variable R : realFieldType.
Variable nmonos : int -> nat -> nat.
Variable _mvmonos :
  forall (order : int) (D : nat) (x : Gpr.points R),
    Gpr.diffspec -> Gpr.res 'M[R]_(Gpr.npts x, nmonos order D).
Variable np_linalg_inv : forall n, 'M[R]_n -> option 'M[R]_n.

Local Notation GaussianProcess := (Gpr.GaussianProcess R).
Local Notation condition := (Gpr.condition _mvmonos np_linalg_inv).
Local Notation "x <~ m ;; k" := (Gpr.bind m (fun x => k))
  (at level 100, m at next level, right associativity).

(** What [np.linalg.inv] returns, when it returns, is the inverse. *)
Hypothesis inv_correct :
  forall n (A X : 'M[R]_n), np_linalg_inv A = Some X -> A *m X = 1%:M.

Lemma gpr_bind_inv T U (m : Gpr.res T) (f : T -> Gpr.res U) y :
  (x <~ m ;; f x) = Gpr.Val y -> exists2 x, m = Gpr.Val x & f x = Gpr.Val y.
Proof. by case: m => [x|e] //= Hf; exists x. Qed.

Lemma dims_conflict_same D : Gpr.dims_conflict (Some D) (Some D) = false.
Proof. by rewrite /= eqxx. Qed.

(** What [condition] has computed when it returns for data without
    noise. *)
Lemma condition_fields (gp g : GaussianProcess) (y : Gpr.points R)
    (d : 'cV[R]_(Gpr.npts y)) (obs_diff : option Gpr.diffspec) :
  condition gp y d None obs_diff = Gpr.Val g ->
  let od := Gpr.diff_or_zeros y obs_diff in
  exists Cu_yy p_y K_y_inv m_y,
    [/\ size od = Gpr.ndims y,
        Gpr._covariance gp y y od od = Gpr.Val Cu_yy,
        _mvmonos (Gpr.order gp) (Gpr.ndims y) y od = Gpr.Val p_y,
        Gpr._mean gp y od = Gpr.Val m_y
      & block_mx Cu_yy p_y p_y^T 0 *m K_y_inv = 1%:M
        /\ g = Gpr.MkGaussianProcess
                 (fun x diff =>
                    Cu_xy <~ Gpr._covariance gp x y diff od ;;
                    p_x <~ _mvmonos (Gpr.order gp) (Gpr.ndims y) x diff ;;
                    m_x <~ Gpr._mean gp x diff ;;
                    Gpr.Val (m_x + row_mx Cu_xy p_x
                                   *m (K_y_inv *m col_mx (d - m_y) 0)))
                 (fun x1 x2 diff1 diff2 =>
                    Cu_x1x2 <~ Gpr._covariance gp x1 x2 diff1 diff2 ;;
                    Cu_x1y <~ Gpr._covariance gp x1 y diff1 od ;;
                    Cu_x2y <~ Gpr._covariance gp x2 y diff2 od ;;
                    p_x1 <~ _mvmonos (Gpr.order gp) (Gpr.ndims y) x1 diff1 ;;
                    p_x2 <~ _mvmonos (Gpr.order gp) (Gpr.ndims y) x2 diff2 ;;
                    Gpr.Val (Cu_x1x2 - row_mx Cu_x1y p_x1 *m K_y_inv
                                       *m (row_mx Cu_x2y p_x2)^T))
                 (- 1) (Some (Gpr.ndims y))].
Proof.
rewrite /Gpr.condition; case: ifP => // _ H0.
have [od Hod H1] := gpr_bind_inv H0.
have {Hod} [Eod Esz] : od = Gpr.diff_or_zeros y obs_diff
                       /\ size od = Gpr.ndims y.
  case: obs_diff Hod {H0} => [od'|] /=; last by case=> <-; rewrite size_nseq.
  by case: eqP => //= Esz [<-].
rewrite {od}Eod in H1 Esz.
have [[mean covariance] H2 [<-]] := gpr_bind_inv H1.
move: H2; rewrite /Gpr._condition_factory => H2.
have [Cu_yy HCu H3] := gpr_bind_inv H2.
have [p_y Hp H4] := gpr_bind_inv H3.
have [K_y_inv HK H5] := gpr_bind_inv H4.
have [m_y Hm [<- <-]] := gpr_bind_inv H5.
exists Cu_yy, p_y, K_y_inv, m_y; split=> //; split=> //.
have Cd0 : diag_mx (\row_i ((0 : 'cV[R]_(Gpr.npts y)) i 0) ^+ 2) = 0.
  rewrite (_ : \row_i _ = 0) ?raddf0 //.
  by apply/matrixP => i j; rewrite !mxE expr0n.
move: HK; rewrite Cd0 addr0.
by case E: (np_linalg_inv _) => [X|] // [<-]; apply: inv_correct.
Qed.

(** The rows of the data in the inverse of the system. *)
Lemma usub_block_inverse q m (Cu : 'M[R]_q) (p : 'M[R]_(q, m))
    (K_inv : 'M[R]_(q + m)) :
  block_mx Cu p p^T 0 *m K_inv = 1%:M ->
  row_mx Cu p *m K_inv = row_mx 1%:M 0.
Proof.
move=> /(congr1 usubmx); rewrite -mul_usub_mx block_mxEv col_mxKu => ->.
by rewrite scalar_mx_block block_mxEv col_mxKu.
Qed.

(** X22. A process conditioned on observations [d] at [y] without noise
    ([sigma] omitted) has [d] for its mean at [y], for the derivative that
    was observed: the conditioned mean interpolates the data.
    [np.linalg.inv] is taken to return the inverse whenever it returns. *)
Theorem condition_interpolates (gp g : GaussianProcess) (y : Gpr.points R)
    (d : 'cV[R]_(Gpr.npts y)) (obs_diff : option Gpr.diffspec) :
  condition gp y d None obs_diff = Gpr.Val g ->
  Gpr.mean g y obs_diff = Gpr.Val d.
Proof.
move=> /condition_fields [Cu [p [K_inv [m [Esz HCu Hp Hm [HK ->]]]]]].
rewrite /Gpr.mean [Gpr.dim _]/= dims_conflict_same Esz dims_conflict_same.
rewrite /= HCu Hp Hm /=.
rewrite mulmxA (usub_block_inverse HK) mul_row_col mul1mx mul0mx addr0.
by rewrite addrC subrK.
Qed.

(** X23. When the covariance of the prior at the observation points is a
    symmetric matrix, the process conditioned on observations without noise
    has covariance zero between the observation points: nothing is left
    uncertain where the data are. *)
Theorem condition_leaves_no_variance (gp g : GaussianProcess)
    (y : Gpr.points R) (d : 'cV[R]_(Gpr.npts y))
    (obs_diff : option Gpr.diffspec) :
  condition gp y d None obs_diff = Gpr.Val g ->
  (forall Cu_yy,
     Gpr._covariance gp y y (Gpr.diff_or_zeros y obs_diff)
                     (Gpr.diff_or_zeros y obs_diff) = Gpr.Val Cu_yy ->
     Cu_yy^T = Cu_yy) ->
  Gpr.covariance g y y obs_diff obs_diff = Gpr.Val 0.
Proof.
move=> /condition_fields [Cu [p [K_inv [m [Esz HCu Hp Hm [HK ->]]]]]] sym.
rewrite /Gpr.covariance [Gpr.dim _]/= dims_conflict_same Esz dims_conflict_same.
rewrite /= HCu Hp /=.
rewrite (usub_block_inverse HK) tr_row_mx mul_row_col mul1mx mul0mx addr0.
by rewrite (sym _ HCu) subrr.
Qed.

End Condition.

(** ** rbf.gpr: mean_and_uncertainty *)

Section Chunks.

Variable R : realFieldType.
Variable np_sqrt : R -> R.

Local Notation GaussianProcess := (Gpr.GaussianProcess R).
Local Notation mean_and_uncertainty := (Gpr.mean_and_uncertainty np_sqrt).
Local Notation mean_and_uncertainty_loop :=
  (Gpr.mean_and_uncertainty_loop np_sqrt).
Local Notation "x <~ m ;; k" := (Gpr.bind m (fun x => k))
  (at level 100, m at next level, right associativity).

(** X24. With a [max_chunk] that is not positive, [mean_and_uncertainty]
    does not return for any [x] with at least one row: the first chunk is
    empty, and the call ends with an exception, at the latest with the
    [IndexError] of [idx[-1]]. *)
Theorem mean_and_uncertainty_empty_chunk (g : GaussianProcess)
    (x : Gpr.points R) (max_chunk : int) :
  max_chunk <= 0 -> (0 < Gpr.npts x)%N ->
  exists e, mean_and_uncertainty g x max_chunk = Gpr.Exc e.
Proof.
move=> le0 q_gt0; rewrite /Gpr.mean_and_uncertainty.
case Eq: (Gpr.npts x) q_gt0 => [|q] // _ /=.
rewrite Eq /= add0r.
have: Gpr.range 0 (Num.min max_chunk q.+1) = [::].
  have: Num.min max_chunk q.+1 <= 0 by rewrite ge_min le0.
  by case: (Num.min _ _) => [[|h]|h].
move: (Gpr.range _ _) => idx Eidx; rewrite {idx}Eidx /=.
case: (Gpr.mean _ _ _) => [m|e] /=; last by exists e.
by case: (Gpr.covariance _ _ _ _ _) => [cov|e] /=; [exists Gpr.IndexError|exists e].
Qed.

Lemma gpr_bind_Val T U (v : T) (f : T -> Gpr.res U) :
  (y <~ Gpr.Val v ;; f y) = f v.
Proof. by []. Qed.

(** Assignment to a range of places that still hold zeros. *)
Lemma set_nth_cat_size (pre : seq R) (y v : R) (post : seq R) :
  set_nth 0 (pre ++ y :: post) (size pre) v = pre ++ v :: post.
Proof. by elim: pre => [|z pre IH] //=; rewrite IH. Qed.

Lemma foldl_set_range (pre vs : seq R) (r : nat) :
  foldl (fun out (iv : nat * R) => set_nth 0 out iv.1 iv.2)
        (pre ++ nseq (size vs + r) 0) (zip (iota (size pre) (size vs)) vs)
  = pre ++ vs ++ nseq r 0.
Proof.
elim: vs pre => [|v vs IH] pre //=.
rewrite set_nth_cat_size -cat_rcons -(size_rcons pre v) IH.
by rewrite cat_rcons.
Qed.

Lemma tolist_range n (v : 'cV[R]_n) (s : seq R) (lo : nat) :
  (lo + n <= size s)%N -> (forall i : 'I_n, v i 0 = nth 0 s (lo + i)) ->
  Gpr.tolist v = take n (drop lo s).
Proof.
move=> le_s Hv.
have le_lo : (lo <= size s)%N := leq_trans (leq_addr _ _) le_s.
have Esz : size (take n (drop lo s)) = n.
  by rewrite size_takel // size_drop leq_subRL.
apply: (@eq_from_nth _ 0); first by rewrite Esz size_map size_enum_ord.
move=> i; rewrite size_map size_enum_ord => lt_i.
rewrite (nth_map (Ordinal lt_i)) ?size_enum_ord // nth_take // nth_drop.
by rewrite Hv nth_enum_ord.
Qed.

Lemma setitems_range (s : seq R) (lo k : nat)
    (vals : 'cV[R]_(size (iota lo k))) :
  (lo + k <= size s)%N ->
  (forall i : 'I_(size (iota lo k)), vals i 0 = nth 0 s (lo + i)) ->
  Gpr.setitems (take lo s ++ nseq (size s - lo) 0) (iota lo k) vals
  = take (lo + k) s ++ nseq (size s - (lo + k)) 0.
Proof.
move=> le_s Hv; rewrite /Gpr.setitems.
have le_lo : (lo <= size s)%N := leq_trans (leq_addr _ _) le_s.
have Evals : Gpr.tolist vals = take k (drop lo s).
  by rewrite (@tolist_range _ vals s lo) ?size_iota.
have Esz : size (take k (drop lo s)) = k.
  by rewrite size_takel // size_drop leq_subRL.
have := foldl_set_range (take lo s) (take k (drop lo s)) (size s - (lo + k)).
rewrite Esz (size_takel le_lo) Evals catA -takeD => <-.
by rewrite subnDA subnKC // leq_subRL.
Qed.

Lemma last_index_range (lo k : nat) :
  Gpr.last_index (iota lo k.+1) = Gpr.Val (lo + k)%N.
Proof.
rewrite /Gpr.last_index /=; congr Gpr.Val.
by rewrite (last_nth 0%N) size_iota -/(iota lo k.+1) nth_iota.
Qed.

Lemma check_rows_range (x : Gpr.points R) (lo k : nat) :
  (lo + k <= Gpr.npts x)%N -> Gpr.check_rows x (iota lo k) = Gpr.Val tt.
Proof.
move=> le_q; rewrite /Gpr.check_rows.
have -> // : all (fun i => i < Gpr.npts x)%N (iota lo k).
apply/allP => i; rewrite mem_iota => /andP [_ lt_i].
exact: leq_trans lt_i le_q.
Qed.

(** The end of the first chunk from [count]. *)
Lemma chunk_end (max_chunk : int) (count q : nat) :
  0 < max_chunk -> (count < q)%N ->
  exists2 k, Num.min (count%:Z + max_chunk) q%:Z = (count + k.+1)%:Z
           & (count + k.+1 <= q)%N.
Proof.
case: max_chunk => [[|n]|n] // _ lt_cq; rewrite -PoszD.
case: (leqP (count + n.+1) q) => [le_q|lt_q].
  by exists n => //; rewrite min_l // lez_nat.
exists (q - count).-1; last by rewrite prednK ?subn_gt0 // subnKC // ltnW.
by rewrite prednK ?subn_gt0 // subnKC 1?ltnW // min_r // lez_nat ltnW.
Qed.

(** The bound on the turns of the loop is never met: a turn more than
    [q - count] changes nothing. *)
Lemma last_index_ge (lo : nat) (hi : int) (j : nat) :
  Gpr.last_index (Gpr.range lo hi) = Gpr.Val j -> (lo <= j)%N.
Proof.
case: hi => [h|h] //=; case E: (h - lo)%N => [|k] //.
by rewrite last_index_range => -[<-]; rewrite leq_addr.
Qed.

Lemma mean_and_uncertainty_loopS (g : GaussianProcess) (x : Gpr.points R)
    (max_chunk : int) turns count out_mean out_sigma :
  mean_and_uncertainty_loop turns.+1 g x max_chunk count out_mean out_sigma
  = if (count < Gpr.npts x)%N then
      let idx := Gpr.range count
                   (Num.min (count%:Z + max_chunk) (Gpr.npts x)%:Z) in
      _ <~ Gpr.check_rows x idx ;;
      m <~ Gpr.mean g (Gpr.getrows x idx) None ;;
      cov <~ Gpr.covariance g (Gpr.getrows x idx) (Gpr.getrows x idx)
               None None ;;
      count <~ Gpr.last_index idx ;;
      mean_and_uncertainty_loop turns g x max_chunk count.+1
        (Gpr.setitems out_mean idx m)
        (Gpr.setitems out_sigma idx (\col_i np_sqrt (cov i i)))
    else Gpr.Val (out_mean, out_sigma).
Proof. by []. Qed.

Lemma mean_and_uncertainty_loop_turns (g : GaussianProcess)
    (x : Gpr.points R) (max_chunk : int) turns count out_mean out_sigma :
  (Gpr.npts x - count <= turns)%N ->
  mean_and_uncertainty_loop turns.+1 g x max_chunk count out_mean out_sigma
  = mean_and_uncertainty_loop turns g x max_chunk count out_mean out_sigma.
Proof.
elim: turns count out_mean out_sigma => [|t IH] count out_mean out_sigma le_t.
  by rewrite /= ltnNge -subn_eq0 -leqn0 le_t.
rewrite 2!mean_and_uncertainty_loopS; case: ifP => // lt_cq; cbv zeta.
set idx := Gpr.range _ _.
have Hidx : forall j, Gpr.last_index idx = Gpr.Val j -> (count <= j)%N.
  exact: last_index_ge.
clearbody idx.
case: (Gpr.check_rows x idx) => [u|e] //; rewrite !gpr_bind_Val.
case: (Gpr.mean _ _ _) => [m|e] //; rewrite !gpr_bind_Val.
case: (Gpr.covariance _ _ _ _ _) => [cov|e] //; rewrite !gpr_bind_Val.
case E: (Gpr.last_index idx) Hidx => [j|e] // /(_ j (erefl _)) le_j.
rewrite !gpr_bind_Val.
apply: IH; rewrite -ltnS; apply: leq_trans le_t.
by apply: ltn_sub2l.
Qed.

Section Loop.

Variables (g : GaussianProcess) (x : Gpr.points R) (max_chunk : int).
Variables (mu sig : seq R).

Hypothesis max_chunk_gt0 : 0 < max_chunk.
Hypothesis size_mu : size mu = Gpr.npts x.
Hypothesis size_sig : size sig = Gpr.npts x.

Hypothesis mean_rows : forall lo k, (lo + k <= Gpr.npts x)%N ->
  exists2 m, Gpr.mean g (Gpr.getrows x (iota lo k)) None = Gpr.Val m
    & forall i : 'I_(size (iota lo k)), m i 0 = nth 0 mu (lo + i).

Hypothesis sigma_rows : forall lo k, (lo + k <= Gpr.npts x)%N ->
  exists2 cov,
    Gpr.covariance g (Gpr.getrows x (iota lo k)) (Gpr.getrows x (iota lo k))
                   None None = Gpr.Val cov
    & forall i : 'I_(size (iota lo k)),
        np_sqrt (cov i i) = nth 0 sig (lo + i).

Lemma mean_and_uncertainty_loop_ok turns count :
  (count <= Gpr.npts x)%N -> (Gpr.npts x - count <= turns)%N ->
  mean_and_uncertainty_loop turns g x max_chunk count
    (take count mu ++ nseq (Gpr.npts x - count) 0)
    (take count sig ++ nseq (Gpr.npts x - count) 0)
  = Gpr.Val (mu, sig).
Proof.
have done_ count' t : (Gpr.npts x <= count')%N -> (count' <= Gpr.npts x)%N ->
    mean_and_uncertainty_loop t g x max_chunk count'
      (take count' mu ++ nseq (Gpr.npts x - count') 0)
      (take count' sig ++ nseq (Gpr.npts x - count') 0)
    = Gpr.Val (mu, sig).
  move=> ge_q le_q; have Ec : count' = Gpr.npts x by apply/eqP; rewrite eqn_leq le_q.
  case: t => [|t] /=; rewrite ltnNge ge_q /= Ec subnn /= !cats0;
    by rewrite -{1}size_mu -{1}size_sig !take_size.
elim: turns count => [|t IH] count le_cq le_t.
  by apply: done_ => //; rewrite -subn_eq0 -leqn0.
case: (leqP (Gpr.npts x) count) => [ge_q|lt_cq]; first exact: done_.
rewrite /= lt_cq.
have [k -> le_q] := chunk_end max_chunk_gt0 lt_cq.
rewrite /Gpr.range addKn check_rows_range // gpr_bind_Val.
have [m -> Hm] := mean_rows le_q; rewrite gpr_bind_Val.
have [cov -> Hcov] := sigma_rows le_q; rewrite gpr_bind_Val.
rewrite last_index_range gpr_bind_Val.
have le_mu : (count + k.+1 <= size mu)%N by rewrite size_mu.
have le_sig : (count + k.+1 <= size sig)%N by rewrite size_sig.
have := setitems_range le_mu Hm; rewrite size_mu => ->.
have Hs : forall i : 'I_(size (iota count k.+1)),
    (\col_i0 np_sqrt (cov i0 i0)) i 0 = nth 0 sig (count + i).
  by move=> i; rewrite mxE.
have := setitems_range le_sig Hs; rewrite size_sig => ->.
rewrite -addnS; apply: IH => //.
rewrite -ltnS; apply: leq_trans le_t.
by apply: ltn_sub2l => //; rewrite -{1}[count]addn0 ltn_add2l.
Qed.

End Loop.

(** X25. With a positive [max_chunk], when the mean of a chunk of rows is
    the matching part of [mu], and the square roots of the diagonal of its
    covariance are the matching part of [sig], [mean_and_uncertainty]
    returns [(mu, sig)]: the loop ends, the chunks cover every row once, and
    the size of the chunks does not show in the result. *)
Theorem chunks_do_not_matter (g : GaussianProcess) (x : Gpr.points R)
    (max_chunk : int) (mu sig : seq R) :
  0 < max_chunk ->
  size mu = Gpr.npts x -> size sig = Gpr.npts x ->
  (forall lo k, (lo + k <= Gpr.npts x)%N ->
     exists2 m, Gpr.mean g (Gpr.getrows x (iota lo k)) None = Gpr.Val m
       & forall i : 'I_(size (iota lo k)), m i 0 = nth 0 mu (lo + i)) ->
  (forall lo k, (lo + k <= Gpr.npts x)%N ->
     exists2 cov,
       Gpr.covariance g (Gpr.getrows x (iota lo k))
                      (Gpr.getrows x (iota lo k)) None None = Gpr.Val cov
       & forall i : 'I_(size (iota lo k)),
           np_sqrt (cov i i) = nth 0 sig (lo + i)) ->
  mean_and_uncertainty g x max_chunk = Gpr.Val (mu, sig).
Proof.
move=> mc_gt0 size_mu size_sig mean_rows sigma_rows.
have := mean_and_uncertainty_loop_ok mc_gt0 size_mu size_sig mean_rows
          sigma_rows (leq0n _) (leq_subr 0 (Gpr.npts x)).
by rewrite /Gpr.mean_and_uncertainty !take0 subn0.
Qed.

End Chunks.

(** The example process. *)
Lemma example_inv_correct n (A X : 'M[rat]_n) :
  example_inv A = Some X -> A *m X = 1%:M.
Proof. by rewrite /example_inv; case: ifP => // unitA [<-]; rewrite mulmxV. Qed.

Lemma example_covariance_symmetric n :
  (\matrix_(i, j) ((i : nat) == (j : nat))%:R : 'M[rat]_n)^T
  = \matrix_(i, j) ((i : nat) == (j : nat))%:R.
Proof. by apply/matrixP => i j; rewrite !mxE eq_sym. Qed.

Lemma example_condition (b : rat) (d : 'cV[rat]_1) :
  exists g, Gpr.condition example_mvmonos example_inv (example_gp b None)
              example_point d None None = Gpr.Val g.
Proof.
rewrite /Gpr.condition /= /Gpr._condition_factory /=.
set K := block_mx _ _ _ _.
have unitK : K \in unitmx.
  suff -> : K = 1%:M by rewrite unitmx1.
  rewrite /K [RHS](@scalar_mx_block _ 1 0) trmx0; congr block_mx.
    rewrite (_ : \row_i _ = 0) ?raddf0 ?addr0; last first.
      by apply/matrixP => i j; rewrite !mxE ?expr0n.
    by apply/matrixP => i j; rewrite !mxE.
  by rewrite [RHS]flatmx0.
by rewrite /example_inv unitK /=; eexists.
Qed.

Lemma subtract_as_add_scale_witness :
  exists2 g', Gpr.add (example_gp 1 None) (Gpr.scale (example_gp 2 None) (- 1))
              = Gpr.Val g'
            & forall x diff,
                Gpr._mean g' x diff = Gpr.Val (const_mx 1 - const_mx 2).
Proof.
have [g' Hg' [_ _ Hmean _]] :=
  @subtract_as_add_scale rat (example_gp 1 None) (example_gp 2 None) _
    (erefl _).
by exists g' => // x diff; rewrite -Hmean.
Defined.

Lemma sum_forgets_dim_witness :
  exists g', Gpr.add (Gpr.MkGaussianProcess
                        (Gpr._add_factory (example_gp 0 (Some 1%N))
                                          (example_gp 0 None)).1
                        (Gpr._add_factory (example_gp 0 (Some 1%N))
                                          (example_gp 0 None)).2
                        (- 1) None)
                     (example_gp 0 (Some 2%N)) = Gpr.Val g'.
Proof.
have [_ H] := @sum_forgets_dim rat (example_gp 0 (Some 1%N))
                (example_gp 0 None) (example_gp 0 (Some 2%N)) _ isT (erefl _).
exact: H.
Defined.

Lemma condition_interpolates_witness :
  exists2 g, Gpr.condition example_mvmonos example_inv (example_gp 0 None)
               example_point (const_mx 1) None None = Gpr.Val g
           & Gpr.mean g example_point None = Gpr.Val (const_mx 1).
Proof.
have [g Hg] := example_condition 0 (const_mx 1); exists g => //.
exact: (@condition_interpolates rat example_nmonos example_mvmonos
          example_inv example_inv_correct _ _ _ _ _ Hg).
Defined.

Lemma condition_leaves_no_variance_witness :
  exists2 g, Gpr.condition example_mvmonos example_inv (example_gp 0 None)
               example_point (const_mx 1) None None = Gpr.Val g
           & Gpr.covariance g example_point example_point None None
             = Gpr.Val 0.
Proof.
have [g Hg] := example_condition 0 (const_mx 1); exists g => //.
apply: (@condition_leaves_no_variance rat example_nmonos example_mvmonos
          example_inv example_inv_correct _ _ _ _ _ Hg).
by move=> Cu_yy [<-]; apply: example_covariance_symmetric.
Defined.

Lemma mean_and_uncertainty_empty_chunk_witness :
  exists e, Gpr.mean_and_uncertainty id (example_gp 0 None) example_point 0
            = Gpr.Exc e.
Proof.
exact: (@mean_and_uncertainty_empty_chunk rat id (example_gp 0 None)
          example_point 0 isT isT).
Defined.

Lemma example_nth2 (c : rat) (i : nat) : (i < 2)%N -> nth 0 [:: c; c] i = c.
Proof. by case: i => [|[|]]. Qed.

Lemma chunks_do_not_matter_witness :
  Gpr.mean_and_uncertainty id (example_gp 3 None) example_points 1
  = Gpr.Val ([:: 3; 3], [:: 1; 1]).
Proof.
apply: (@chunks_do_not_matter rat id (example_gp 3 None) example_points 1
          [:: 3; 3] [:: 1; 1] isT (erefl _) (erefl _)).
- move=> lo k le2; exists (const_mx 3) => // i.
  rewrite mxE example_nth2 //.
  by apply: leq_trans le2; rewrite ltn_add2l -[X in (_ < X)%N](size_iota lo k).
- move=> lo k le2; eexists; first by [].
  move=> i; rewrite mxE eqxx example_nth2 //.
  by apply: leq_trans le2; rewrite ltn_add2l -[X in (_ < X)%N](size_iota lo k).
Defined.
